(** * gitbrute: a shallow embedding of [gitbrute.go] and its properties

    The program brute-forces a [nonce] header of a git commit object until
    the SHA-1 of the object, rendered in hexadecimal, matches a regular
    expression.  Byte slices are lists of [Byte.byte]; Go's [int] is [Z]
    (with its wrap-around written out where the code relies on it); a panic
    is [None]; channels and goroutines are an interleaving step relation. *)

From Stdlib Require Import ZArith List Strings.Byte Strings.String Lia.
From stdpp Require Import base option list relations.
Import ListNotations.

Local Open Scope Z_scope.

Abbreviation bytes := (list byte).

#[global] Instance byte_eq_decision : EqDecision byte := byte_eq_dec.

Definition NUL : byte := x00.
Definition LF : byte := x0a.
Definition SP : byte := x20.
Definition ZERO : byte := x30.

(** ** The parts of Go's library the program calls *)

Module Go.

(** [len(s)] as an [int]. *)
Definition len (s : bytes) : Z := Z.of_nat (length s).

(** [s[i]]: an index out of range panics. *)
Definition at_ (s : bytes) (i : Z) : option byte :=
  if (0 <=? i) && (i <? len s) then s !! Z.to_nat i else None.

(** [s[i] = c] on an index already known to be in range. *)
Definition set (s : bytes) (i : Z) (c : byte) : bytes :=
  <[Z.to_nat i := c]> s.

(** [s[:i]] and [s[i:]]: bounds out of range panic. *)
Definition slice_to (s : bytes) (i : Z) : option bytes :=
  if (0 <=? i) && (i <=? len s) then Some (take (Z.to_nat i) s) else None.

Definition slice_from (s : bytes) (i : Z) : option bytes :=
  if (0 <=? i) && (i <=? len s) then Some (drop (Z.to_nat i) s) else None.

(** [bytes.HasPrefix]. *)
Fixpoint HasPrefix (s sep : bytes) : bool :=
  match sep, s with
  | [], _ => true
  | _ :: _, [] => false
  | c :: sep', d :: s' => bool_decide (c = d) && HasPrefix s' sep'
  end.

(** [bytes.Index(s, sep)]: the offset of the first occurrence of [sep] in
    [s], or -1.  [IndexFrom] carries the offset of the suffix examined. *)
Fixpoint IndexFrom (s sep : bytes) (k : Z) : Z :=
  if HasPrefix s sep then k
  else match s with
       | [] => -1
       | _ :: s' => IndexFrom s' sep (k + 1)
       end.

Definition Index (s sep : bytes) : Z := IndexFrom s sep 0.

Definition IndexByte (s : bytes) (c : byte) : Z := Index s [c].

Definition Contains (s sep : bytes) : bool := negb (Index s sep =? -1).

(** The decimal digit of a number below ten. *)
Definition digit (n : nat) : byte :=
  match Byte.of_N (48 + N.of_nat n) with
  | Some b => b
  | None => ZERO
  end.

(** [%d] of a non-negative [int]: most significant digit first, ["0"] for
    zero.  The recursion is on a bound of the number of digits. *)
Fixpoint itoa_acc (fuel n : nat) (acc : bytes) : bytes :=
  match fuel with
  | O => acc
  | S fuel' =>
      let acc' := digit (n mod 10) :: acc in
      if (n <? 10)%nat then acc' else itoa_acc fuel' (n / 10) acc'
  end.

Definition itoa (n : nat) : bytes := itoa_acc (S n) n [].

End Go.

(** ** Configuration: the command-line flags and the compiled pattern *)

(** The fragment of RE2 syntax the patterns of the program are written in. *)
Inductive regexp : Type :=
  | ReEmpty : regexp                      (* the empty pattern *)
  | ReLit : byte -> regexp                (* one literal byte *)
  | ReClass : bytes -> regexp             (* [...], a set of bytes *)
  | ReBegin : regexp                      (* ^, at the start of the text *)
  | ReEnd : regexp                        (* $, at the end of the text *)
  | ReCat : regexp -> regexp -> regexp    (* r1 r2 *)
  | ReAlt : regexp -> regexp -> regexp    (* r1|r2 *)
  | ReStar : regexp -> regexp.            (* r* *)

Record config : Type := Config {
  pattern : regexp;      (* -pattern, compiled into [re] *)
  cpu : nat;             (* -cpus *)
  nonceName : bytes;     (* -nonce-name *)
  nonceChars : bytes;    (* -nonce-chars *)
  intSize : Z;           (* the width of [int] on the platform: 32 or 64 *)
}.

(** ** The object buffer *)

Definition commitTag : bytes := Eval cbv in list_byte_of_string "commit ".

(** [fixHeader]: drop everything up to the first NUL and put a fresh
    ["commit <len>\x00"] header in front of what remains. *)
Definition fixHeader (obj : bytes) : bytes :=
  let obj := drop (Z.to_nat (Go.IndexByte obj NUL + 1)) obj in
  commitTag ++ Go.itoa (length obj) ++ [NUL] ++ obj.

(** ["\n" + *nonceName + " "] *)
Definition nonceHeader (cfg : config) : bytes :=
  [LF] ++ nonceName cfg ++ [SP].

(** The loop [for obj[i+1] != '\n' { i++ }] of [addOrFindNonce]; [rest] is
    [obj[i+1:]], and running off the end of the buffer panics. *)
Fixpoint scanLine (rest : bytes) (i : Z) : option Z :=
  match rest with
  | [] => None
  | c :: rest' => if bool_decide (c = LF) then Some i else scanLine rest' (i + 1)
  end.

Definition addOrFindNonce (cfg : config) (obj : bytes) : option (bytes * Z) :=
  obj ← (if negb (Go.Contains obj (nonceHeader cfg)) then
           let i := Go.Index obj [LF; LF] in
           header ← Go.slice_to obj i;
           footer ← Go.slice_from obj i;
           Some (fixHeader (header ++ nonceHeader cfg ++ footer))
         else Some obj);
  let i := Go.Index obj (nonceHeader cfg) in
  rest ← Go.slice_from obj (i + 1);
  i ← scanLine rest i;
  Some (obj, i).

Definition growNonce (cfg : config) (obj : bytes) : option bytes :=
  let i := Go.Index obj (nonceHeader cfg) + Go.len (nonceHeader cfg) in
  before ← Go.slice_to obj i;
  after ← Go.slice_from obj i;
  Some (fixHeader (before ++ [ZERO] ++ after)).

(** ** [crypto/sha1]: the SHA-1 of FIPS 180-4 on 32-bit words held in [Z] *)

Module SHA1.

Definition Size : nat := 20.

Definition byte_to_Z (b : byte) : Z := Z.of_N (Byte.to_N b).

Definition byte_of_Z (z : Z) : byte :=
  match Byte.of_N (Z.to_N (z mod 256)) with
  | Some b => b
  | None => x00
  end.

Definition w32 (x : Z) : Z := x mod 2 ^ 32.

Definition add32 (x y : Z) : Z := w32 (x + y).

Definition rotl (n x : Z) : Z :=
  w32 (Z.lor (Z.shiftl x n) (Z.shiftr x (32 - n))).

Definition not32 (x : Z) : Z := Z.lxor x 4294967295.

(** Big-endian words. *)
Definition word_of (b0 b1 b2 b3 : byte) : Z :=
  byte_to_Z b0 * 16777216 + byte_to_Z b1 * 65536
  + byte_to_Z b2 * 256 + byte_to_Z b3.

Definition bytes_of_word (x : Z) : bytes :=
  [byte_of_Z (Z.shiftr x 24); byte_of_Z (Z.shiftr x 16);
   byte_of_Z (Z.shiftr x 8); byte_of_Z x].

Definition bytes_of_len64 (bits : Z) : bytes :=
  bytes_of_word (Z.shiftr bits 32) ++ bytes_of_word bits.

(** The message followed by 0x80, zeros up to 56 mod 64, and its length in
    bits. *)
Definition pad (msg : bytes) : bytes :=
  let l := Z.of_nat (length msg) in
  msg ++ [x80] ++ repeat x00 (Z.to_nat ((55 - l) mod 64))
      ++ bytes_of_len64 (8 * l).

Fixpoint words (fuel : nat) (bs : bytes) : list Z :=
  match fuel, bs with
  | S fuel', b0 :: b1 :: b2 :: b3 :: bs' => word_of b0 b1 b2 b3 :: words fuel' bs'
  | _, _ => []
  end.

(** The message schedule, most recent word first. *)
Fixpoint schedule (n : nat) (ws : list Z) : list Z :=
  match n with
  | O => ws
  | S n' =>
      let w := rotl 1 (Z.lxor (Z.lxor (nth 2 ws 0) (nth 7 ws 0))
                              (Z.lxor (nth 13 ws 0) (nth 15 ws 0))) in
      schedule n' (w :: ws)
  end.

Definition f (t : nat) (b c d : Z) : Z :=
  if (t <? 20)%nat then Z.lor (Z.land b c) (Z.land (not32 b) d)
  else if (t <? 40)%nat then Z.lxor (Z.lxor b c) d
  else if (t <? 60)%nat then
    Z.lor (Z.lor (Z.land b c) (Z.land b d)) (Z.land c d)
  else Z.lxor (Z.lxor b c) d.

Definition K (t : nat) : Z :=
  if (t <? 20)%nat then 1518500249
  else if (t <? 40)%nat then 1859775393
  else if (t <? 60)%nat then 2400959708
  else 3395469782.

Record state : Type := State { ha : Z; hb : Z; hc : Z; hd : Z; he : Z }.

Definition init : state :=
  State 1732584193 4023233417 2562383102 271733878 3285377520.

Fixpoint rounds (t : nat) (ws : list Z) (s : state) : state :=
  match ws with
  | [] => s
  | w :: ws' =>
      let tmp := add32 (add32 (add32 (add32 (rotl 5 (ha s))
                       (f t (hb s) (hc s) (hd s))) (he s)) w) (K t) in
      rounds (S t) ws' (State tmp (ha s) (rotl 30 (hb s)) (hc s) (hd s))
  end.

Definition block (s : state) (blk : bytes) : state :=
  let ws := rev (schedule 64 (rev (words 16 blk))) in
  let s' := rounds 0 ws s in
  State (add32 (ha s) (ha s')) (add32 (hb s) (hb s')) (add32 (hc s) (hc s'))
        (add32 (hd s) (hd s')) (add32 (he s) (he s')).

Fixpoint blocks (n : nat) (s : state) (bs : bytes) : state :=
  match n with
  | O => s
  | S n' => blocks n' (block s (take 64 bs)) (drop 64 bs)
  end.

(** [Reset], [Write(msg)] and [Sum(nil)] in one go: the 20-byte digest. *)
Definition sum (msg : bytes) : bytes :=
  let p := pad msg in
  let s := blocks (length p / 64) init p in
  bytes_of_word (ha s) ++ bytes_of_word (hb s) ++ bytes_of_word (hc s)
    ++ bytes_of_word (hd s) ++ bytes_of_word (he s).

End SHA1.

(** ** Slices that share a backing array: [hexBuf] and [hexInPlace] *)

(** A slice seen from its first element: [arr] is the backing array from
    there to the end of the capacity, [slen] the length of the slice. *)
Record slice : Type := Slice { arr : bytes; slen : nat }.

Definition cap (v : slice) : nat := length (arr v).

(** The bytes a slice denotes. *)
Definition contents (v : slice) : bytes := take (slen v) (arr v).

(** [make([]byte, 0, n)] *)
Definition make0 (n : nat) : slice := Slice (replicate n x00) 0.

(** [v[:0]] *)
Definition reslice0 (v : slice) : slice := Slice (arr v) 0.

(** [append(v, data...)]: in place when the capacity suffices, otherwise
    into a fresh array (whose capacity is taken to be what is needed). *)
Definition appendSlice (v : slice) (data : bytes) : slice :=
  let n := (slen v + length data)%nat in
  if (n <=? cap v)%nat
  then Slice (take (slen v) (arr v) ++ data ++ drop n (arr v)) n
  else Slice (take (slen v) (arr v) ++ data) n.

Definition hexdigits : bytes := Eval cbv in list_byte_of_string "0123456789abcdef".

(** [hex[b>>4]] and [hex[b&0xf]] *)
Definition hexHi (b : byte) : byte :=
  default x00 (hexdigits !! Z.to_nat (Z.shiftr (SHA1.byte_to_Z b) 4)).

Definition hexLo (b : byte) : byte :=
  default x00 (hexdigits !! Z.to_nat (Z.land (SHA1.byte_to_Z b) 15)).

(** The loop of [hexInPlace], from [i = k - 1] down to 0, on the shared
    array: [v[i]] is read from the array that [h] is written to. *)
Fixpoint hexLoop (k : nat) (a : bytes) : bytes :=
  match k with
  | O => a
  | S i =>
      let b := default x00 (a !! i) in
      let a := <[(i * 2 + 0)%nat := hexHi b]> a in
      let a := <[(i * 2 + 1)%nat := hexLo b]> a in
      hexLoop i a
  end.

(** [hexInPlace]: [v[:len(v)*2]] panics beyond the capacity. *)
Definition hexInPlace (v : slice) : option slice :=
  if (slen v * 2 <=? cap v)%nat
  then Some (Slice (hexLoop (slen v) (arr v)) (slen v * 2))
  else None.

(** ** [regexp]: where a pattern can match in a text *)

Module Re.

(** The positions reachable from [i] by repeating [step] while it makes
    progress; [fuel] bounds the number of repetitions. *)
Fixpoint closure (step : nat -> list nat) (fuel i : nat) : list nat :=
  i :: match fuel with
       | O => []
       | S fuel' =>
           flat_map (closure step fuel') (filter (fun j => (i < j)%nat) (step i))
       end.

(** [ends r s i]: the positions [j] such that [r] matches [s[i:j]], as a
    part of the whole text [s]. *)
Fixpoint ends (r : regexp) (s : bytes) (i : nat) : list nat :=
  match r with
  | ReEmpty => [i]
  | ReLit c =>
      match s !! i with
      | Some d => if bool_decide (c = d) then [S i] else []
      | None => []
      end
  | ReClass cs =>
      match s !! i with
      | Some d => if bool_decide (d ∈ cs) then [S i] else []
      | None => []
      end
  | ReBegin => if bool_decide (i = 0%nat) then [i] else []
  | ReEnd => if bool_decide (i = length s) then [i] else []
  | ReCat r1 r2 => flat_map (ends r2 s) (ends r1 s i)
  | ReAlt r1 r2 => ends r1 s i ++ ends r2 s i
  | ReStar r1 => closure (ends r1 s) (length s) i
  end.

(** [r] matches at offset [i] of [s]. *)
Definition matchesAt (r : regexp) (s : bytes) (i : nat) : bool :=
  bool_decide (ends r s i ≠ []).

(** [re.Match(s)]: [s] contains some match of [r]. *)
Definition Match (r : regexp) (s : bytes) : bool :=
  existsb (matchesAt r s) (seq 0 (S (length s))).

End Re.

(** ** The worker: [bruteForce] *)

(** What running a piece of the code for a bounded number of steps gives. *)
Inductive run (A : Type) : Type :=
  | Ret : A -> run A
  | Panic : run A
  | OutOfFuel : run A.

Arguments Ret {A} _.
Arguments Panic {A}.
Arguments OutOfFuel {A}.

(** The block labelled [writeNonce]: the state is the buffer, [nonceIdx],
    the cursor [i] and what is left of the nonce; [goto writeNonce] starts
    again with [i = nonceIdx] and the whole nonce [t]. *)
Fixpoint writeNonce (fuel : nat) (cfg : config) (t : Z)
    (obj : bytes) (nonceIdx i nonce : Z) : run (bytes * Z) :=
  match fuel with
  | O => OutOfFuel
  | S fuel' =>
      if 0 <? nonce then
        match Go.at_ obj i with
        | None => Panic
        | Some c =>
            if bool_decide (c = SP) then
              match growNonce cfg obj with
              | None => Panic
              | Some obj' =>
                  writeNonce fuel' cfg t obj' (nonceIdx + 1) (nonceIdx + 1) t
              end
            else
              let r := Go.len (nonceChars cfg) in
              if r =? 0 then Panic
              else
                match Go.at_ (nonceChars cfg) (Z.rem nonce r) with
                | None => Panic
                | Some d =>
                    writeNonce fuel' cfg t (Go.set obj i d) nonceIdx
                               (i - 1) (Z.quot nonce r)
                end
        end
      else Ret (obj, nonceIdx)
  end.

(** [re.Match(hexInPlace(s1.Sum(hexBuf[:0])))] after [s1.Reset()] and
    [s1.Write(obj)]; the array behind [hexBuf] is handed back, since the
    next candidate reuses it. *)
Definition testDigest (cfg : config) (obj : bytes) (hexBuf : slice)
    : option (bool * slice) :=
  let digest := SHA1.sum obj in
  h ← hexInPlace (appendSlice (reslice0 hexBuf) digest);
  let shared := bool_decide (length digest ≤ cap hexBuf)%nat in
  Some (Re.Match (pattern cfg) (contents h),
        if shared then Slice (arr h) (slen hexBuf) else hexBuf).

(** The variables of [bruteForce] that live across iterations. *)
Record worker : Type := Worker {
  w_obj : bytes;
  w_nonceIdx : Z;
  w_hexBuf : slice;
}.

(** What one iteration of [for t := range possibilities] ends in. *)
Inductive verdict : Type :=
  | Continue (w : worker)     (* [continue]: the digest did not match *)
  | Publish (obj : bytes).    (* [winner <- obj; return] *)

(** The [default:] branch of the [select], for the candidate [t]. *)
Definition tryNonce (fuel : nat) (cfg : config) (w : worker) (t : Z)
    : run verdict :=
  match writeNonce fuel cfg t (w_obj w) (w_nonceIdx w) (w_nonceIdx w) t with
  | Ret (obj, nonceIdx) =>
      match testDigest cfg obj (w_hexBuf w) with
      | Some (true, _) => Ret (Publish obj)
      | Some (false, hexBuf) => Ret (Continue (Worker obj nonceIdx hexBuf))
      | None => Panic
      end
  | Panic => Panic
  | OutOfFuel => OutOfFuel
  end.

(** The prologue of [bruteForce]. *)
Definition startWorker (cfg : config) (obj : bytes) : option worker :=
  '(obj, nonceIdx) ← addOrFindNonce cfg obj;
  Some (Worker obj nonceIdx (make0 (SHA1.Size * 2))).

(** ** The enumerator: [explore] *)

(** Signed [bits]-bit wrap-around of Go's [int]. *)
Definition wrapInt (bits x : Z) : Z :=
  (x + 2 ^ (bits - 1)) mod 2 ^ bits - 2 ^ (bits - 1).

(** [explore] in front of a receiver that is always ready: [e_nonce] is
    [t.nonce], [e_sent] what went into the channel so far, oldest first, and
    [e_closed] whether [close(c)] has run. *)
Record explorer : Type := Explorer {
  e_nonce : Z;
  e_sent : list Z;
  e_closed : bool;
}.

(** One turn of the [for] loop, with the [close(c)] that follows a [break]. *)
Definition explore_iter (bits : Z) (e : explorer) : explorer :=
  if e_closed e then e
  else
    let n := wrapInt bits (e_nonce e + 1) in
    Explorer n (e_sent e ++ [n]) (n =? 0).

Definition explore_run (bits : Z) (k : N) : explorer :=
  N.iter k (explore_iter bits) (Explorer 0 [] false).

(** ** The pool: [main], [explore] and the workers, interleaved *)

(** Where [explore] stands. *)
Inductive estate : Type :=
  | Exploring (nonce : Z)   (* at the head of the loop, [t.nonce = nonce] *)
  | Breaking                (* has sent 0 and left the loop *)
  | Finished.               (* has closed the channel and returned *)

(** Where a [bruteForce] goroutine stands. *)
Inductive wstate : Type :=
  | Starting (obj : bytes)  (* before [addOrFindNonce] *)
  | Ranging (w : worker)    (* receiving from [possibilities] *)
  | Sending (obj : bytes)   (* blocked in [winner <- obj] *)
  | Exited.                 (* returned *)

(** Where [main] stands once the goroutines are started. *)
Inductive mstate : Type :=
  | Waiting                 (* blocked in [w := <-winner] *)
  | Received (w : bytes)    (* has [w], before [close(done)] *)
  | Announced (w : bytes).  (* [done] is closed; goes on to write [w] *)

Record pool : Type := Pool {
  p_explore : estate;
  p_queue : list Z;         (* the buffer of [possibilities] *)
  p_closed : bool;          (* [possibilities] is closed *)
  p_workers : list wstate;
  p_done : bool;            (* [done] is closed *)
  p_main : mstate;
  p_crashed : bool;         (* a goroutine panicked *)
}.

(** [make(chan try, 512)] *)
Definition queueCap : nat := 512.

(** The state [main] leaves behind when it blocks on [winner]; [raw] is the
    output of [git cat-file -p HEAD]. *)
Definition startPool (cfg : config) (raw : bytes) : pool :=
  Pool (Exploring 0) [] false
       (replicate (cpu cfg) (Starting (fixHeader raw))) false Waiting false.

Definition setWorker (p : pool) (i : nat) (w : wstate) : pool :=
  Pool (p_explore p) (p_queue p) (p_closed p) (<[i := w]> (p_workers p))
       (p_done p) (p_main p) (p_crashed p).

Definition setQueue (p : pool) (q : list Z) : pool :=
  Pool (p_explore p) q (p_closed p) (p_workers p)
       (p_done p) (p_main p) (p_crashed p).

Definition crash (p : pool) : pool :=
  Pool (p_explore p) (p_queue p) (p_closed p) (p_workers p)
       (p_done p) (p_main p) true.

Inductive step (cfg : config) : pool -> pool -> Prop :=
  | step_send p n :
      p_crashed p = false ->
      p_explore p = Exploring n ->
      (length (p_queue p) < queueCap)%nat ->
      let n' := wrapInt (intSize cfg) (n + 1) in
      step cfg p
        (Pool (if n' =? 0 then Breaking else Exploring n')
              (p_queue p ++ [n']) (p_closed p) (p_workers p)
              (p_done p) (p_main p) (p_crashed p))
  | step_close p :
      p_crashed p = false ->
      p_explore p = Breaking ->
      step cfg p
        (Pool Finished (p_queue p) true (p_workers p)
              (p_done p) (p_main p) (p_crashed p))
  | step_start p i obj w :
      p_crashed p = false ->
      p_workers p !! i = Some (Starting obj) ->
      startWorker cfg obj = Some w ->
      step cfg p (setWorker p i (Ranging w))
  | step_start_panic p i obj :
      p_crashed p = false ->
      p_workers p !! i = Some (Starting obj) ->
      startWorker cfg obj = None ->
      step cfg p (crash p)
  | step_cancelled p i w t q :
      p_crashed p = false ->
      p_workers p !! i = Some (Ranging w) ->
      p_queue p = t :: q ->
      p_done p = true ->
      step cfg p (setWorker (setQueue p q) i Exited)
  | step_continue p i w t q fuel w' :
      p_crashed p = false ->
      p_workers p !! i = Some (Ranging w) ->
      p_queue p = t :: q ->
      p_done p = false ->
      tryNonce fuel cfg w t = Ret (Continue w') ->
      step cfg p (setWorker (setQueue p q) i (Ranging w'))
  | step_match p i w t q fuel obj :
      p_crashed p = false ->
      p_workers p !! i = Some (Ranging w) ->
      p_queue p = t :: q ->
      p_done p = false ->
      tryNonce fuel cfg w t = Ret (Publish obj) ->
      step cfg p (setWorker (setQueue p q) i (Sending obj))
  | step_panic p i w t q fuel :
      p_crashed p = false ->
      p_workers p !! i = Some (Ranging w) ->
      p_queue p = t :: q ->
      p_done p = false ->
      tryNonce fuel cfg w t = Panic ->
      step cfg p (crash (setQueue p q))
  | step_drained p i w :
      p_crashed p = false ->
      p_workers p !! i = Some (Ranging w) ->
      p_queue p = [] ->
      p_closed p = true ->
      step cfg p (setWorker p i Exited)
  | step_receive p i obj :
      p_crashed p = false ->
      p_main p = Waiting ->
      p_workers p !! i = Some (Sending obj) ->
      step cfg p
        (Pool (p_explore p) (p_queue p) (p_closed p)
              (<[i := Exited]> (p_workers p))
              (p_done p) (Received obj) (p_crashed p))
  | step_announce p w :
      p_crashed p = false ->
      p_main p = Received w ->
      step cfg p
        (Pool (p_explore p) (p_queue p) (p_closed p) (p_workers p)
              true (Announced w) (p_crashed p)).

(** The states some schedule leads to. *)
Definition reachable (cfg : config) (raw : bytes) (p : pool) : Prop :=
  rtc (step cfg) (startPool cfg raw) p.

(** ** The prologue of [main] *)

Module GoStrings.

(** The entries of [asciiSpace]: tab, newline, vertical tab, form feed,
    carriage return and space. *)
Definition asciiSpace (c : byte) : bool :=
  bool_decide (c ∈ [x09; x0a; x0b; x0c; x0d; x20]).

(** One of the two loops of [strings.TrimSpace], from the start of [s]: it
    skips the ASCII spaces.  At a byte of [0x80] or more Go turns to the
    Unicode tables; that turn is not taken here, the result is [None]. *)
Fixpoint skipSpace (s : bytes) : option bytes :=
  match s with
  | [] => Some []
  | c :: s' =>
      if (128 <=? Byte.to_N c)%N then None
      else if asciiSpace c then skipSpace s' else Some s
  end.

(** [strings.TrimSpace] on a string the two loops get through: first from
    the start, then from the end. *)
Definition TrimSpace (s : bytes) : option bytes :=
  l ← skipSpace s; r ← skipSpace (rev l); Some (rev r).

End GoStrings.

(** What [main] has done by the time it waits for a winner, or returns. *)
Inductive started : Type :=
  | AlreadyMatches (hash : bytes)  (* prints the hash and returns *)
  | Searching (p : pool).          (* the goroutines are running *)

(** [main] up to [w := <-winner]: [force] is the flag [-force], [head] what
    [git rev-parse HEAD] printed and [raw] what [git cat-file -p HEAD]
    printed. *)
Definition mainStart (cfg : config) (force : bool) (head raw : bytes)
    : option started :=
  hash ← GoStrings.TrimSpace head;
  if Re.Match (pattern cfg) hash then Some (AlreadyMatches hash)
  else Some (Searching (startPool cfg raw)).

(** ** What the claims speak of *)

(** Lowercase hexadecimal, two characters a byte, by division. *)
Definition hexChar (n : N) : byte := nth (N.to_nat n) hexdigits x00.

Definition encodeHex (bs : bytes) : bytes :=
  flat_map (fun b => [hexChar (Byte.to_N b / 16); hexChar (Byte.to_N b mod 16)]) bs.

(** The flags at their defaults ([-pattern ^[01]{7}], [-nonce-name nonce],
    [-nonce-chars 0123456789]) on a 64-bit machine with four processors, and
    a small commit as [git cat-file -p] prints it. *)
Definition zeroOrOne : regexp := ReClass [x30; x31].

Definition defaultConfig : config :=
  Config (ReCat ReBegin
            (ReCat zeroOrOne (ReCat zeroOrOne (ReCat zeroOrOne (ReCat zeroOrOne
            (ReCat zeroOrOne (ReCat zeroOrOne zeroOrOne)))))))
         4
         (list_byte_of_string "nonce")
         (list_byte_of_string "0123456789")
         64.

Definition withPattern (cfg : config) (r : regexp) : config :=
  Config r (cpu cfg) (nonceName cfg) (nonceChars cfg) (intSize cfg).

Definition sampleCommit : bytes :=
  [x74; x72; x65; x65; x20; x34; x62; x38; x32; x35; x64; x63; x0a;
   x61; x75; x74; x68; x6f; x72; x20; x41; x20; x3c; x61; x40; x62; x3e;
   x20; x31; x20; x2b; x30; x30; x30; x30; x0a;
   x0a; x6d; x73; x67; x0a].

(** The sample commit after an earlier run left [nonce 987] in it, and the
    sample commit with [nonce 9] and a longer message, 99 bytes in all. *)
Definition staleCommit : bytes :=
  take 36 sampleCommit ++ list_byte_of_string "nonce 987" ++ [LF]
    ++ drop 36 sampleCommit.

Definition longCommit : bytes :=
  take 36 sampleCommit ++ list_byte_of_string "nonce 9" ++ [LF; LF]
    ++ replicate 53 x78 ++ [LF].

(** The sample commit with a message of 52 bytes and a newline, 90 bytes
    in all: with the field put in and a value of two digits the content is
    99 bytes. *)
Definition wideCommit : bytes :=
  take 37 sampleCommit ++ replicate 52 x78 ++ [LF].

(** A sequence that is strictly increasing, and one without negative
    elements. *)
Definition increasing (l : list Z) : Prop :=
  forall (j : nat) (x y : Z), l !! j = Some x -> l !! S j = Some y -> x < y.

Definition nonNegative (l : list Z) : Prop :=
  forall (j : nat) (x : Z), l !! j = Some x -> 0 <= x.

(** [occursAt sep s n]: [sep] occurs at offset [n] of [s]. *)
Definition occursAt (sep s : bytes) (n : nat) : Prop :=
  (n <= length s)%nat /\ sep `prefix_of` drop n s.

(** The framing ["commit <len>\x00<content>"] of a content, and how a
    buffer reads: the length its header declares, and the content after the
    first NUL. *)
Definition hdr (n : nat) : bytes := commitTag ++ Go.itoa n ++ [NUL].

Definition frame (c : bytes) : bytes := hdr (length c) ++ c.

Definition digitValue (b : byte) : option nat :=
  let n := Byte.to_N b in
  if ((48 <=? n) && (n <=? 57))%N then Some (N.to_nat (n - 48)) else None.

Fixpoint atoi_acc (bs : bytes) (acc : nat) : option nat :=
  match bs with
  | [] => Some acc
  | b :: bs' => d ← digitValue b; atoi_acc bs' (10 * acc + d)%nat
  end.

Definition atoi (bs : bytes) : option nat :=
  match bs with
  | [] => None
  | _ => atoi_acc bs 0%nat
  end.

Definition declaredLength (obj : bytes) : option nat :=
  if Go.HasPrefix obj commitTag then
    let rest := drop (length commitTag) obj in
    let k := Go.IndexByte rest NUL in
    if k <? 0 then None else atoi (take (Z.to_nat k) rest)
  else None.

Definition content (obj : bytes) : bytes :=
  drop (Z.to_nat (Go.IndexByte obj NUL + 1)) obj.

Definition wellFramed (obj : bytes) : Prop :=
  declaredLength obj = Some (length (content obj)).

(** The digits of [x] in the alphabet [chars], most significant first, as
    the loop of [writeNonce] produces them from the right; [fuel] bounds
    their number. *)
Fixpoint digitsOf (fuel : nat) (chars : bytes) (x : Z) : bytes :=
  match fuel with
  | O => []
  | S fuel' =>
      if 0 <? x then
        digitsOf fuel' chars (Z.quot x (Go.len chars))
          ++ [default x00 (chars !! Z.to_nat (Z.rem x (Go.len chars)))]
      else []
  end.

Definition digits (chars : bytes) (x : Z) : bytes :=
  digitsOf (Z.to_nat x) chars x.

(** The value of a byte as a digit of the alphabet. *)
Fixpoint indexOf (chars : bytes) (b : byte) : option Z :=
  match chars with
  | [] => None
  | c :: chars' =>
      if bool_decide (c = b) then Some 0 else z ← indexOf chars' b; Some (z + 1)
  end.

(** Reading a numeral in the alphabet, most significant digit first. *)
Fixpoint parseFrom (chars : bytes) (acc : Z) (bs : bytes) : option Z :=
  match bs with
  | [] => Some acc
  | b :: bs' => d ← indexOf chars b; parseFrom chars (acc * Go.len chars + d) bs'
  end.

Definition parseNonce (chars bs : bytes) : option Z := parseFrom chars 0 bs.

(** The bytes of a line up to its end. *)
Fixpoint upToLF (s : bytes) : bytes :=
  match s with
  | [] => []
  | c :: s' => if bool_decide (c = LF) then [] else c :: upToLF s'
  end.

(** The value of the field in a buffer: what follows the first
    ["\n<name> "] up to the end of the line. *)
Definition fieldValue (cfg : config) (obj : bytes) : option bytes :=
  let i := Go.Index obj (nonceHeader cfg) in
  if i <? 0 then None
  else Some (upToLF (drop (Z.to_nat i + length (nonceHeader cfg)) obj)).

(** The length of a stretch of bytes from its first space on (0 when it has
    none), and the length of the run free of spaces at its right end. *)
Fixpoint fromSpace (l : bytes) : nat :=
  match l with
  | [] => O
  | c :: l' => if bool_decide (c = SP) then S (length l') else fromSpace l'
  end.

Fixpoint lead (l : bytes) : nat :=
  match l with
  | [] => O
  | c :: l' => if bool_decide (c = SP) then O else S (lead l')
  end.

Definition runLen (l : bytes) : nat := lead (rev l).

(** Where the worker stands in a framed buffer: the content is [a], the
    first nonce header, then [w ++ d ++ v]; the cursor [i] is on the last
    byte of [w], or on the space of the header when [w] is empty. *)
Definition cursorAt (cfg : config) (obj : bytes) (i : Z) (a w d v : bytes) : Prop :=
  let c := a ++ nonceHeader cfg ++ w ++ d ++ v in
  obj = frame c /\
  Go.Index (a ++ nonceHeader cfg) (nonceHeader cfg) = Z.of_nat (length a) /\
  i = Z.of_nat (length (hdr (length c)) + length a
                + length (nonceHeader cfg) + length w) - 1.

(** [nonceIdx] designates a byte of the line of the field, at or after the
    space that ends the header. *)
Definition located (cfg : config) (obj : bytes) (nonceIdx : Z) : Prop :=
  exists a w v, cursorAt cfg obj nonceIdx a w [] v.

(** The block [writeNonce] ends in [res]. *)
Definition rendersTo (cfg : config) (t : Z) (obj : bytes) (nonceIdx i nonce : Z)
    (res : bytes * Z) : Prop :=
  exists fuel, writeNonce fuel cfg t obj nonceIdx i nonce = Ret res.

(** ** What the further properties speak of *)

(** The value of a hexadecimal character, and the byte two of them spell. *)
Definition hexValue (c : byte) : option N :=
  '(i, _) ← list_find (fun d => d = c) hexdigits; Some (N.of_nat i).

Definition unhex (hi lo : byte) : option byte :=
  h ← hexValue hi; l ← hexValue lo; Byte.of_N (16 * h + l).

(** The value [explore] has in [t.nonce]; it is back at 0 once the loop is
    left. *)
Definition counter (e : estate) : Z :=
  match e with
  | Exploring n => n
  | Breaking | Finished => 0
  end.

(** [passes cfg w0 n w]: a worker that starts as [w0] and is handed the
    candidates 1, 2, ..., [n] finds no match among them, and stands as [w]
    afterwards. *)
Inductive passes (cfg : config) (w0 : worker) : Z -> worker -> Prop :=
  | passes_none : passes cfg w0 0 w0
  | passes_next n w fuel w' :
      passes cfg w0 n w ->
      tryNonce fuel cfg w (n + 1) = Ret (Continue w') ->
      passes cfg w0 (n + 1) w'.

(** The sample commit with the message [see], [nonce 7], [end]: no field
    among its headers, and a line of the message that begins with the name of
    the field. *)
Definition messageCommit : bytes :=
  take 37 sampleCommit ++ list_byte_of_string "see" ++ nonceHeader defaultConfig
    ++ list_byte_of_string "7" ++ LF :: list_byte_of_string "end" ++ [LF].

(** * Properties *)

(** ** [hexInPlace] *)

Lemma hexHi_spec b : hexHi b = hexChar (Byte.to_N b / 16).
Proof. destruct b; reflexivity. Qed.

Lemma hexLo_spec b : hexLo b = hexChar (Byte.to_N b mod 16).
Proof. destruct b; reflexivity. Qed.

Lemma encodeHex_snoc bs b :
  encodeHex (bs ++ [b]) = encodeHex bs ++ [hexHi b; hexLo b].
Proof.
  unfold encodeHex. rewrite flat_map_app. simpl.
  now rewrite hexHi_spec, hexLo_spec.
Qed.

Lemma length_encodeHex bs : length (encodeHex bs) = (2 * length bs)%nat.
Proof. induction bs as [|b bs IH]; simpl; [reflexivity | rewrite IH; lia]. Qed.

(** The loop leaves the array beyond [2k] alone and turns its first [k]
    bytes into their [2k] hexadecimal characters: an input byte [i] is read
    before the writes at [2i] and [2i+1], which are never below [i]. *)
Lemma hexLoop_spec k : forall a : bytes,
  (2 * k <= length a)%nat ->
  hexLoop k a = encodeHex (take k a) ++ drop (2 * k) a.
Proof.
  induction k as [|i IH]; intros a Hlen.
  - now rewrite take_0, drop_0.
  - cbn [hexLoop].
    destruct (lookup_lt_is_Some_2 a i ltac:(lia)) as [b Hb].
    rewrite Hb. cbn [default].
    rewrite IH by (rewrite !length_insert; lia).
    rewrite !take_insert_ge by lia.
    rewrite (take_S_r a i b Hb), encodeHex_snoc, <- app_assoc.
    f_equal.
    replace (i * 2 + 0)%nat with (2 * i)%nat by lia.
    replace (i * 2 + 1)%nat with (S (2 * i))%nat by lia.
    destruct (lookup_lt_is_Some_2 a (2 * i) ltac:(lia)) as [x Hx].
    destruct (lookup_lt_is_Some_2 a (S (2 * i)) ltac:(lia)) as [y Hy].
    rewrite <- (take_drop (2 * i) a) at 1.
    assert (Hl : length (take (2 * i) a) = (2 * i)%nat) by (rewrite length_take; lia).
    rewrite (drop_S a x (2 * i) Hx), (drop_S a y (S (2 * i)) Hy).
    rewrite (insert_app_r_alt _ _ (2 * i)) by lia.
    rewrite (insert_app_r_alt _ _ (S (2 * i))) by lia.
    rewrite Hl. replace (2 * i - 2 * i)%nat with 0%nat by lia.
    replace (S (2 * i) - 2 * i)%nat with 1%nat by lia.
    cbn [list_insert insert].
    rewrite drop_app_length' by (symmetry; exact Hl).
    simpl. do 3 f_equal. lia.
Qed.

Lemma length_sum msg : length (SHA1.sum msg) = SHA1.Size.
Proof. reflexivity. Qed.

Lemma appendSlice_fits (v : slice) data :
  (slen v + length data <= cap v)%nat ->
  slen (appendSlice v data) = (slen v + length data)%nat /\
  cap (appendSlice v data) = cap v /\
  contents (appendSlice v data) = contents v ++ data.
Proof.
  intros H. unfold appendSlice, contents, cap in *.
  apply Nat.leb_le in H as Hb. unfold cap. rewrite Hb. cbn [slen arr].
  split; [reflexivity | split].
  - rewrite !length_app, length_take, length_drop. lia.
  - rewrite app_assoc, take_app_length'; [reflexivity |].
    rewrite length_app, length_take. lia.
Qed.

Lemma hexInPlace_spec (v : slice) :
  (2 * slen v <= cap v)%nat ->
  exists h, hexInPlace v = Some h /\
            slen h = (2 * slen v)%nat /\
            cap h = cap v /\
            contents h = encodeHex (contents v).
Proof.
  destruct v as [a n]. intros Hcap.
  unfold hexInPlace, cap, contents in *. cbn [slen arr] in *.
  assert (Hb : (n * 2 <=? length a)%nat = true) by (apply Nat.leb_le; lia).
  rewrite Hb. eexists. split; [reflexivity |]. cbn [slen arr].
  rewrite hexLoop_spec by lia.
  split; [lia | split].
  - rewrite length_app, length_encodeHex, length_take, length_drop. lia.
  - rewrite take_app_length'; [reflexivity |].
    rewrite length_encodeHex, length_take. lia.
Qed.

(** The test of a candidate, with [hexBuf] as [bruteForce] allocates it. *)
Lemma testDigest_spec cfg obj (hexBuf : slice) :
  slen hexBuf = 0%nat ->
  cap hexBuf = (2 * SHA1.Size)%nat ->
  let v := appendSlice (reslice0 hexBuf) (SHA1.sum obj) in
  (2 * slen v <= cap v)%nat /\
  contents v = SHA1.sum obj /\
  exists hexBuf',
    testDigest cfg obj hexBuf =
      Some (Re.Match (pattern cfg) (encodeHex (SHA1.sum obj)), hexBuf') /\
    slen hexBuf' = 0%nat /\ cap hexBuf' = (2 * SHA1.Size)%nat.
Proof.
  intros Hlen Hcap v.
  destruct (appendSlice_fits (reslice0 hexBuf) (SHA1.sum obj)) as (Hs & Hc & Hv).
  { unfold cap, reslice0 in *. cbn [slen arr]. rewrite length_sum, Hcap. lia. }
  fold v in Hs, Hc, Hv. cbn [reslice0 slen] in Hs.
  rewrite length_sum in Hs.
  assert (Hcv : cap v = (2 * SHA1.Size)%nat) by (rewrite Hc; exact Hcap).
  assert (Hcont : contents v = SHA1.sum obj) by (rewrite Hv; reflexivity).
  split; [rewrite Hs, Hcv; lia | split; [exact Hcont |]].
  destruct (hexInPlace_spec v) as (h & Hh & Hsh & Hch & Hcth); [rewrite Hs, Hcv; lia |].
  unfold testDigest. fold v. rewrite Hh. cbn [mbind option_bind].
  rewrite Hcth, Hcont.
  assert (Hd : bool_decide (length (SHA1.sum obj) <= cap hexBuf)%nat = true).
  { apply bool_decide_eq_true. rewrite length_sum, Hcap. lia. }
  rewrite Hd. eexists. split; [reflexivity |]. cbn [slen]. split; [exact Hlen |].
  unfold cap in *. cbn [arr]. congruence.
Qed.

(** C10. [hexInPlace] on a slice of length [n] whose capacity is at least
    [2n] returns a slice of length [2n] holding the lowercase hexadecimal
    encoding of the [n] bytes it was given, although it writes into the array
    it reads from; and the one call, on the digest appended to [hexBuf[:0]]
    with [hexBuf] of capacity [2 * sha1.Size], meets the capacity bound, so
    that the test of a candidate is the pattern applied to the hexadecimal
    digest of the buffer. *)
Theorem hexInPlace_correct :
  (forall v : slice,
     (2 * slen v <= cap v)%nat ->
     exists h, hexInPlace v = Some h /\
               slen h = (2 * slen v)%nat /\
               cap h = cap v /\
               contents h = encodeHex (contents v)) /\
  (forall cfg obj (hexBuf : slice),
     slen hexBuf = 0%nat ->
     cap hexBuf = (2 * SHA1.Size)%nat ->
     let v := appendSlice (reslice0 hexBuf) (SHA1.sum obj) in
     (2 * slen v <= cap v)%nat /\
     contents v = SHA1.sum obj /\
     exists hexBuf',
       testDigest cfg obj hexBuf =
         Some (Re.Match (pattern cfg) (encodeHex (SHA1.sum obj)), hexBuf') /\
       slen hexBuf' = 0%nat /\ cap hexBuf' = (2 * SHA1.Size)%nat).
Proof. split; [exact hexInPlace_spec | exact testDigest_spec]. Qed.

Lemma hexInPlace_correct_witness :
  exists h, hexInPlace (Slice [xab; xcd; x00; x00; x00] 2) = Some h /\
            contents h = [x61; x62; x63; x64].
Proof.
  destruct (proj1 hexInPlace_correct (Slice [xab; xcd; x00; x00; x00] 2))
    as (h & Hh & _ & _ & Hc); [vm_compute; lia |].
  exists h. split; [exact Hh | exact Hc].
Defined.

(** ** [explore] *)

Section Explore.

Variable bits : Z.
Hypothesis bits_pos : 1 <= bits.

Let half := 2 ^ (bits - 1).

Lemma pow_bits : 2 ^ bits = 2 * half /\ 0 < half.
Proof.
  unfold half. split; [| apply Z.pow_pos_nonneg; lia].
  replace bits with (Z.succ (bits - 1)) at 1 by lia.
  rewrite Z.pow_succ_r by lia. reflexivity.
Qed.

Lemma wrapInt_small x : - half <= x < half -> wrapInt bits x = x.
Proof.
  intros Hx. unfold wrapInt. fold half.
  destruct pow_bits as [-> Hh]. rewrite Z.mod_small; lia.
Qed.

Lemma wrapInt_high x : half <= x < 3 * half -> wrapInt bits x = x - 2 * half.
Proof.
  intros Hx. unfold wrapInt. fold half.
  destruct pow_bits as [-> Hh].
  replace (x + half) with ((x - half) + 1 * (2 * half)) by lia.
  rewrite Z.mod_add by lia. rewrite Z.mod_small; lia.
Qed.

Lemma wrapInt_succ x : wrapInt bits (wrapInt bits x + 1) = wrapInt bits (x + 1).
Proof.
  unfold wrapInt. fold half. destruct pow_bits as [-> Hh].
  f_equal.
  replace ((x + half) mod (2 * half) - half + 1 + half)
    with ((x + half) mod (2 * half) + 1) by lia.
  rewrite Z.add_mod_idemp_l by lia. f_equal. lia.
Qed.

(** The first [2^bits] turns of the loop: the counter after [k] turns is
    [k] wrapped, and the channel is still open before the last of them. *)
Lemma explore_run_nonce (k : N) :
  Z.of_N k <= 2 ^ bits ->
  e_nonce (explore_run bits k) = wrapInt bits (Z.of_N k) /\
  e_closed (explore_run bits k) = bool_decide (Z.of_N k = 2 ^ bits).
Proof.
  destruct pow_bits as [Hp Hh].
  induction k as [|k IH] using N.peano_ind; intros Hk.
  - cbn. rewrite wrapInt_small by lia. split; [reflexivity |].
    symmetry. apply bool_decide_eq_false. lia.
  - destruct IH as [IHn IHc]; [lia |].
    unfold explore_run in *. rewrite N.iter_succ.
    set (e := N.iter k _ _) in *.
    assert (He : explore_iter bits e =
                 Explorer (wrapInt bits (Z.of_N (N.succ k)))
                          (e_sent e ++ [wrapInt bits (Z.of_N (N.succ k))])
                          (wrapInt bits (Z.of_N (N.succ k)) =? 0)).
    { unfold explore_iter. rewrite IHc, bool_decide_eq_false_2 by lia.
      rewrite IHn, wrapInt_succ.
      replace (Z.of_N k + 1) with (Z.of_N (N.succ k)) by lia. reflexivity. }
    rewrite He. cbn [e_nonce e_closed].
    split; [reflexivity |].
    destruct (decide (Z.of_N (N.succ k) < half)).
    + rewrite wrapInt_small by lia.
      rewrite bool_decide_eq_false_2 by lia. apply Z.eqb_neq. lia.
    + rewrite wrapInt_high by lia.
      destruct (decide (Z.of_N (N.succ k) = 2 ^ bits)) as [E|E].
      * rewrite bool_decide_eq_true_2 by exact E. apply Z.eqb_eq. lia.
      * rewrite bool_decide_eq_false_2 by exact E. apply Z.eqb_neq. lia.
Qed.

Lemma explore_run_succ (k : N) :
  Z.of_N k < 2 ^ bits ->
  explore_run bits (N.succ k) =
    Explorer (wrapInt bits (Z.of_N k + 1))
             (e_sent (explore_run bits k) ++ [wrapInt bits (Z.of_N k + 1)])
             (wrapInt bits (Z.of_N k + 1) =? 0).
Proof.
  intros Hk. destruct (explore_run_nonce k) as [Hn Hc]; [lia |].
  unfold explore_run in *. rewrite N.iter_succ.
  unfold explore_iter at 1. rewrite Hc, bool_decide_eq_false_2 by lia.
  rewrite Hn, wrapInt_succ. reflexivity.
Qed.

Lemma explore_run_sent (k : N) :
  Z.of_N k <= 2 ^ bits ->
  length (e_sent (explore_run bits k)) = N.to_nat k /\
  forall j : N, (j < k)%N ->
    e_sent (explore_run bits k) !! N.to_nat j = Some (wrapInt bits (Z.of_N j + 1)).
Proof.
  induction k as [|k IH] using N.peano_ind; intros Hk.
  - split; [reflexivity | intros j Hj; lia].
  - destruct IH as [IHl IHs]; [lia |].
    rewrite explore_run_succ by lia. cbn [e_sent].
    split; [rewrite length_app, IHl; cbn [length]; lia |].
    intros j Hj. destruct (decide (j = k)) as [->|Hne].
    + rewrite lookup_app_r by lia. rewrite IHl, Nat.sub_diag. reflexivity.
    + rewrite lookup_app_l by lia. apply IHs. lia.
Qed.

(** Once closed, [explore] has returned: nothing is sent any more. *)
Lemma explore_run_closed (k : N) :
  2 ^ bits <= Z.of_N k ->
  explore_run bits k = explore_run bits (Z.to_N (2 ^ bits)).
Proof.
  destruct pow_bits as [Hp Hh].
  induction k as [|k IH] using N.peano_ind; intros Hk; [lia |].
  destruct (decide (Z.of_N (N.succ k) = 2 ^ bits)) as [E|E].
  - f_equal. lia.
  - rewrite <- IH by lia.
    destruct (explore_run_nonce (Z.to_N (2 ^ bits))) as [_ Hc]; [lia |].
    rewrite <- IH in Hc by lia.
    unfold explore_run in *. rewrite N.iter_succ. unfold explore_iter at 1.
    rewrite Hc, bool_decide_eq_true_2 by lia. reflexivity.
Qed.

End Explore.

(** C3, as the code has it.  On an [int] of [bits] bits, [explore] sends
    [2^bits] values and then closes the channel: the value number [j+1] is
    [j+1] wrapped to [bits] bits, that is 1, 2, ... up to the largest [int],
    then the smallest [int] and on through the negative numbers to -1, and
    last 0.  As long as the counter has not overflowed the sequence is
    strictly increasing and positive; the channel is closed exactly when the
    counter is back at zero, and nothing is sent afterwards. *)
Theorem explore_sequence (bits : Z) :
  2 <= bits ->
  (forall k : N, Z.of_N k <= 2 ^ bits ->
     length (e_sent (explore_run bits k)) = N.to_nat k /\
     forall j : N, (j < k)%N ->
       e_sent (explore_run bits k) !! N.to_nat j
       = Some (wrapInt bits (Z.of_N j + 1))) /\
  e_sent (explore_run bits 1) = [1] /\
  (forall k : N, Z.of_N k < 2 ^ (bits - 1) ->
     increasing (e_sent (explore_run bits k)) /\
     forall (j : nat) (x : Z),
       e_sent (explore_run bits k) !! j = Some x -> x = Z.of_nat j + 1) /\
  (forall k : N,
     e_closed (explore_run bits k) = true <-> 2 ^ bits <= Z.of_N k) /\
  (forall k : N,
     e_closed (explore_run bits k) = true -> e_nonce (explore_run bits k) = 0) /\
  (forall k : N, 2 ^ bits <= Z.of_N k ->
     explore_run bits k = explore_run bits (Z.to_N (2 ^ bits))).
Proof.
  intros Hbits.
  assert (Hb1 : 1 <= bits) by lia.
  destruct (pow_bits bits Hb1) as [Hp Hh].
  assert (Hh2 : 2 <= 2 ^ (bits - 1)).
  { change 2 with (2 ^ 1) at 1. apply Z.pow_le_mono_r; lia. }
  assert (Hpos : forall k : N, Z.of_N k < 2 ^ (bits - 1) ->
            forall (j : nat) (x : Z),
              e_sent (explore_run bits k) !! j = Some x -> x = Z.of_nat j + 1).
  { intros k Hk j x Hj.
    destruct (explore_run_sent bits Hb1 k) as [Hl Hs]; [lia |].
    apply lookup_lt_Some in Hj as Hlt. rewrite Hl in Hlt.
    specialize (Hs (N.of_nat j) ltac:(lia)).
    rewrite Nat2N.id, Hj in Hs. injection Hs as ->.
    rewrite wrapInt_small by lia. lia. }
  assert (Hclosed : forall k : N,
            e_closed (explore_run bits k) = true <-> 2 ^ bits <= Z.of_N k).
  { intros k. destruct (decide (Z.of_N k <= 2 ^ bits)) as [Hle|Hgt].
    - destruct (explore_run_nonce bits Hb1 k Hle) as [_ ->].
      rewrite bool_decide_eq_true. lia.
    - rewrite (explore_run_closed bits Hb1 k) by lia.
      destruct (explore_run_nonce bits Hb1 (Z.to_N (2 ^ bits))) as [_ ->]; [lia |].
      rewrite bool_decide_eq_true. lia. }
  split; [intros k Hk; apply (explore_run_sent bits Hb1 k Hk) |].
  split.
  { change 1%N with (N.succ 0). rewrite (explore_run_succ bits Hb1) by lia.
    cbn. rewrite wrapInt_small by lia. reflexivity. }
  split.
  { intros k Hk. split; [| apply (Hpos k Hk)].
    intros j x y Hx Hy.
    apply (Hpos k Hk) in Hx, Hy. lia. }
  split; [exact Hclosed |].
  split; [| apply (explore_run_closed bits Hb1)].
  intros k Hc. apply Hclosed in Hc.
  rewrite (explore_run_closed bits Hb1 k Hc).
  destruct (explore_run_nonce bits Hb1 (Z.to_N (2 ^ bits))) as [-> _]; [lia |].
  rewrite wrapInt_high by lia. lia.
Qed.

Lemma explore_sequence_witness :
  2 <= 64 /\ e_sent (explore_run 64 1) = [1].
Proof.
  split; [lia |].
  exact (proj1 (proj2 (explore_sequence 64 ltac:(lia)))).
Defined.

(** C3, as it is worded, fails on a 64-bit [int]: the value sent after
    [2^63 - 1] is [-2^63], so the sequence is neither increasing nor free of
    negative elements. *)
Lemma explore_wraps_negative :
  ~ (forall k : N, increasing (e_sent (explore_run 64 k)) /\
                   nonNegative (e_sent (explore_run 64 k))).
Proof.
  intros H. destruct (H 9223372036854775808%N) as [_ Hnn].
  destruct (explore_run_sent 64 ltac:(lia) 9223372036854775808%N) as [_ Hs];
    [vm_compute; discriminate |].
  specialize (Hs 9223372036854775807%N ltac:(lia)).
  apply Hnn in Hs. vm_compute in Hs. apply Hs. reflexivity.
Qed.

(** ** The test of a candidate against the pattern *)






(** ** Indexing, slicing and searching *)

Lemma at_nat (s : bytes) (i : nat) : Go.at_ s (Z.of_nat i) = s !! i.
Proof.
  unfold Go.at_, Go.len. rewrite Nat2Z.id.
  destruct (decide (i < length s)%nat) as [Hlt|Hge].
  - replace (0 <=? Z.of_nat i) with true by (symmetry; apply Z.leb_le; lia).
    replace (Z.of_nat i <? Z.of_nat (length s)) with true
      by (symmetry; apply Z.ltb_lt; lia).
    reflexivity.
  - replace (Z.of_nat i <? Z.of_nat (length s)) with false
      by (symmetry; apply Z.ltb_ge; lia).
    rewrite andb_false_r. symmetry. apply lookup_ge_None. lia.
Qed.

Lemma slice_to_nat (s : bytes) (i : nat) :
  (i <= length s)%nat -> Go.slice_to s (Z.of_nat i) = Some (take i s).
Proof.
  intros H. unfold Go.slice_to, Go.len. rewrite Nat2Z.id.
  replace (0 <=? Z.of_nat i) with true by (symmetry; apply Z.leb_le; lia).
  replace (Z.of_nat i <=? Z.of_nat (length s)) with true
    by (symmetry; apply Z.leb_le; lia).
  reflexivity.
Qed.

Lemma slice_from_nat (s : bytes) (i : nat) :
  (i <= length s)%nat -> Go.slice_from s (Z.of_nat i) = Some (drop i s).
Proof.
  intros H. unfold Go.slice_from, Go.len. rewrite Nat2Z.id.
  replace (0 <=? Z.of_nat i) with true by (symmetry; apply Z.leb_le; lia).
  replace (Z.of_nat i <=? Z.of_nat (length s)) with true
    by (symmetry; apply Z.leb_le; lia).
  reflexivity.
Qed.

Lemma HasPrefix_spec (s sep : bytes) :
  Go.HasPrefix s sep = true <-> sep `prefix_of` s.
Proof.
  revert s. induction sep as [|c sep IH]; intros s.
  - destruct s; cbn; split; intros; try reflexivity; apply prefix_nil.
  - destruct s as [|d s]; cbn.
    + split; [discriminate |]. intros [k Hk]. discriminate.
    + rewrite andb_true_iff, bool_decide_eq_true, IH. split.
      * intros [-> Hp]. apply prefix_cons. exact Hp.
      * intros Hp. apply prefix_cons_inv_1 in Hp as Hc.
        apply prefix_cons_inv_2 in Hp. auto.
Qed.

Lemma HasPrefix_false (s sep : bytes) :
  Go.HasPrefix s sep = false <-> ~ sep `prefix_of` s.
Proof. rewrite <- HasPrefix_spec. destruct (Go.HasPrefix s sep); split; congruence. Qed.

Lemma IndexFrom_spec (sep : bytes) : forall (s : bytes) (k : Z),
  (Go.IndexFrom s sep k = -1 /\ forall n, ~ occursAt sep s n) \/
  (exists n : nat, Go.IndexFrom s sep k = k + Z.of_nat n /\ occursAt sep s n /\
                   forall m, (m < n)%nat -> ~ occursAt sep s m) \/
  k < 0.
Proof.
  induction s as [|c s IH]; intros k.
  - cbn [Go.IndexFrom]. destruct (Go.HasPrefix [] sep) eqn:Hp.
    + destruct (decide (k < 0)); [auto |]. right. left. exists 0%nat.
      split; [lia |]. split; [| intros; lia].
      split; [cbn; lia | apply HasPrefix_spec; exact Hp].
    + left. split; [reflexivity |]. intros n [Hn Hpre].
      cbn in Hn. replace n with 0%nat in Hpre by lia.
      apply HasPrefix_false in Hp. auto.
  - cbn [Go.IndexFrom]. destruct (Go.HasPrefix (c :: s) sep) eqn:Hp.
    + destruct (decide (k < 0)); [auto |]. right. left. exists 0%nat.
      split; [lia |]. split; [| intros; lia].
      split; [cbn; lia | apply HasPrefix_spec; exact Hp].
    + apply HasPrefix_false in Hp.
      destruct (IH (k + 1)) as [[He Hno] | [(n & He & Ho & Hmin) | Hk]].
      * left. split; [exact He |]. intros [|n] [Hn Hpre]; [auto |].
        apply (Hno n). split; [cbn in Hn; lia | exact Hpre].
      * right. left. exists (S n). split; [lia |].
        destruct Ho as [Hn Hpre]. split; [split; [cbn; lia | exact Hpre] |].
        intros [|m] Hm [Hm1 Hm2]; [auto |].
        apply (Hmin m ltac:(lia)). split; [cbn in Hm1; lia | exact Hm2].
      * destruct (decide (k < 0)); [auto |].
        assert (k = -1) by lia. subst k.
        (* unreachable in [Index], which starts at 0 *)
        right. right. lia.
Qed.

Lemma Index_spec (s sep : bytes) :
  (Go.Index s sep = -1 /\ forall n, ~ occursAt sep s n) \/
  (exists n : nat, Go.Index s sep = Z.of_nat n /\ occursAt sep s n /\
                   forall m, (m < n)%nat -> ~ occursAt sep s m).
Proof.
  unfold Go.Index.
  destruct (IndexFrom_spec sep s 0) as [H | [(n & He & H) | H]]; [auto | | lia].
  right. exists n. split; [lia | exact H].
Qed.

Lemma Index_first (s sep : bytes) (n : nat) :
  occursAt sep s n -> (forall m, (m < n)%nat -> ~ occursAt sep s m) ->
  Go.Index s sep = Z.of_nat n.
Proof.
  intros Ho Hmin.
  destruct (Index_spec s sep) as [[_ Hno] | (n' & He & Ho' & Hmin')].
  - exfalso. exact (Hno n Ho).
  - rewrite He. f_equal.
    destruct (Nat.lt_trichotomy n n') as [Hlt | [Heq | Hgt]]; [| exact (eq_sym Heq) |].
    + exfalso. exact (Hmin' n Hlt Ho).
    + exfalso. exact (Hmin n' Hgt Ho').
Qed.

Lemma Index_absent (s sep : bytes) :
  (forall n, ~ occursAt sep s n) -> Go.Index s sep = -1.
Proof.
  intros Hno. destruct (Index_spec s sep) as [[He _] | (n & _ & Ho & _)]; [exact He |].
  exfalso. exact (Hno n Ho).
Qed.

Lemma Contains_false (s sep : bytes) :
  Go.Contains s sep = false <-> Go.Index s sep = -1.
Proof. unfold Go.Contains. rewrite negb_false_iff, Z.eqb_eq. tauto. Qed.

Lemma occursAt_app (sep p v : bytes) : occursAt sep (p ++ sep ++ v) (length p).
Proof.
  split; [rewrite length_app; lia |].
  rewrite drop_app_length. apply prefix_app_r. reflexivity.
Qed.

Lemma prefix_of_app_long (sep x v : bytes) :
  (length sep <= length x)%nat -> sep `prefix_of` x ++ v -> sep `prefix_of` x.
Proof.
  intros Hlen [k Hk]. exists (drop (length sep) x).
  apply (f_equal (take (length sep))) in Hk as Ht.
  rewrite take_app_le in Ht by exact Hlen.
  rewrite take_app_length in Ht.
  rewrite <- Ht at 1. symmetry. apply take_drop.
Qed.

(** An occurrence that ends within [p ++ sep] does not depend on what
    follows. *)
Lemma occursAt_indep (sep p v : bytes) (m : nat) :
  (m <= length p)%nat ->
  occursAt sep (p ++ sep ++ v) m <-> occursAt sep (p ++ sep) m.
Proof.
  intros Hm. unfold occursAt. rewrite app_assoc.
  rewrite (drop_app_le (p ++ sep) v) by (rewrite length_app; lia).
  rewrite !length_app. split; intros [Hl Hp]; (split; [lia |]).
  - apply (prefix_of_app_long sep _ v); [| exact Hp].
    rewrite length_drop, length_app. lia.
  - apply prefix_app_r. exact Hp.
Qed.

Lemma Index_first_indep (sep p v v' : bytes) :
  Go.Index (p ++ sep ++ v) sep = Z.of_nat (length p) ->
  Go.Index (p ++ sep ++ v') sep = Z.of_nat (length p).
Proof.
  intros H. apply Index_first; [apply occursAt_app |].
  intros m Hm Ho.
  destruct (Index_spec (p ++ sep ++ v) sep) as [[He _] | (n & He & _ & Hmin)];
    [lia |].
  assert (n = length p) by lia. subst n.
  apply (Hmin m Hm). apply occursAt_indep; [lia |].
  apply occursAt_indep in Ho; [exact Ho | lia].
Qed.

(** A prefix free of the first byte of [sep] is skipped by the search. *)
Lemma occursAt_skip (h s r : bytes) (c : byte) (n : nat) :
  c ∉ h ->
  occursAt (c :: r) (h ++ s) n <->
  (length h <= n)%nat /\ occursAt (c :: r) s (n - length h).
Proof.
  intros Hc. unfold occursAt. rewrite length_app. split.
  - intros [Hl Hp]. destruct (decide (n < length h)%nat) as [Hlt|Hge].
    + exfalso. rewrite drop_app_le in Hp by lia.
      destruct (lookup_lt_is_Some_2 h n Hlt) as [d Hd].
      rewrite (drop_S h d n Hd) in Hp. cbn in Hp.
      apply prefix_cons_inv_1 in Hp. subst d.
      apply Hc. eapply list_elem_of_lookup_2. exact Hd.
    + rewrite drop_app_ge in Hp by lia. repeat split; [lia | lia | exact Hp].
  - intros (Hge & Hl & Hp). split; [lia |].
    rewrite drop_app_ge by lia. exact Hp.
Qed.

Lemma Index_skip (h s r : bytes) (c : byte) :
  c ∉ h ->
  Go.Index (h ++ s) (c :: r) =
    if Go.Index s (c :: r) =? -1 then -1
    else Go.len h + Go.Index s (c :: r).
Proof.
  intros Hc.
  destruct (Index_spec s (c :: r)) as [[He Hno] | (n & He & Ho & Hmin)]; rewrite He.
  - cbn. apply Index_absent. intros n Ho.
    apply occursAt_skip in Ho; [| exact Hc]. destruct Ho as [_ Ho].
    exact (Hno _ Ho).
  - replace (Z.of_nat n =? -1) with false by (symmetry; apply Z.eqb_neq; lia).
    unfold Go.len. rewrite <- Nat2Z.inj_add. apply Index_first.
    + apply occursAt_skip; [exact Hc |]. split; [lia |].
      replace (length h + n - length h)%nat with n by lia. exact Ho.
    + intros m Hm Hom. apply occursAt_skip in Hom; [| exact Hc].
      destruct Hom as [Hge Hom]. apply (Hmin (m - length h)%nat); [lia | exact Hom].
Qed.

Lemma IndexByte_first (h s : bytes) (c : byte) :
  c ∉ h -> Go.IndexByte (h ++ c :: s) c = Go.len h.
Proof.
  intros Hc. unfold Go.IndexByte. rewrite Index_skip by exact Hc.
  replace (Go.Index (c :: s) [c]) with 0; [cbn; lia |].
  unfold Go.Index. cbn [Go.IndexFrom].
  rewrite (proj2 (HasPrefix_spec (c :: s) [c])); [reflexivity |].
  apply prefix_cons, prefix_nil.
Qed.

(** ** The decimal length in the header *)

Lemma digit_spec (n : nat) :
  (n < 10)%nat ->
  digitValue (Go.digit n) = Some n /\
  Go.digit n <> NUL /\ Go.digit n <> LF /\ Go.digit n <> SP.
Proof.
  intros H.
  do 10 (destruct n as [|n]; [repeat split; discriminate |]). lia.
Qed.

Lemma itoa_acc_app (fuel : nat) : forall (n : nat) (acc : bytes),
  Go.itoa_acc fuel n acc = Go.itoa_acc fuel n [] ++ acc.
Proof.
  induction fuel as [|fuel IH]; intros n acc; [reflexivity |].
  cbn [Go.itoa_acc]. destruct (n <? 10)%nat; [reflexivity |].
  rewrite IH, (IH _ [_]), <- app_assoc. reflexivity.
Qed.

Lemma itoa_acc_fuel (fuel : nat) : forall (fuel' n : nat) (acc : bytes),
  (n < fuel)%nat -> (n < fuel')%nat ->
  Go.itoa_acc fuel n acc = Go.itoa_acc fuel' n acc.
Proof.
  induction fuel as [|fuel IH]; intros fuel' n acc Hf Hf'; [lia |].
  destruct fuel' as [|fuel']; [lia |].
  cbn [Go.itoa_acc]. destruct (n <? 10)%nat eqn:Hn; [reflexivity |].
  apply Nat.ltb_ge in Hn.
  assert (n / 10 < n)%nat by (apply Nat.div_lt; lia).
  apply IH; lia.
Qed.

Lemma itoa_small (n : nat) : (n < 10)%nat -> Go.itoa n = [Go.digit n].
Proof.
  intros H. unfold Go.itoa. cbn [Go.itoa_acc].
  rewrite (proj2 (Nat.ltb_lt n 10) H), Nat.mod_small by lia. reflexivity.
Qed.

Lemma itoa_step (n : nat) :
  (10 <= n)%nat -> Go.itoa n = Go.itoa (n / 10) ++ [Go.digit (n mod 10)].
Proof.
  intros H. unfold Go.itoa at 1. cbn [Go.itoa_acc].
  rewrite (proj2 (Nat.ltb_ge n 10) H).
  assert (n / 10 < n)%nat by (apply Nat.div_lt; lia).
  rewrite itoa_acc_app. f_equal. apply itoa_acc_fuel; lia.
Qed.

(** Induction along the digits of a number. *)
Lemma itoa_ind (P : nat -> Prop) :
  (forall n, (n < 10)%nat -> P n) ->
  (forall n, (10 <= n)%nat -> P (n / 10)%nat -> P n) ->
  forall n, P n.
Proof.
  intros Hs Hl n. induction n as [n IH] using lt_wf_ind.
  destruct (decide (n < 10)%nat); [apply Hs; assumption |].
  apply Hl; [lia |]. apply IH. apply Nat.div_lt; lia.
Qed.

Lemma itoa_chars (n : nat) :
  Forall (fun b => b <> NUL /\ b <> LF /\ b <> SP) (Go.itoa n).
Proof.
  induction n as [n H | n H IH] using itoa_ind.
  - rewrite itoa_small by exact H. constructor; [| constructor].
    apply (digit_spec n H).
  - rewrite itoa_step by exact H. apply Forall_app. split; [exact IH |].
    constructor; [| constructor].
    apply digit_spec. apply Nat.mod_upper_bound. lia.
Qed.

Lemma atoi_acc_snoc (bs : bytes) (b : byte) : forall acc : nat,
  atoi_acc (bs ++ [b]) acc =
    x ← atoi_acc bs acc; d ← digitValue b; Some (10 * x + d)%nat.
Proof.
  induction bs as [|c bs IH]; intros acc; cbn.
  - destruct (digitValue b); reflexivity.
  - destruct (digitValue c); cbn; [apply IH | reflexivity].
Qed.

Lemma itoa_nonempty (n : nat) : Go.itoa n <> [].
Proof.
  destruct (decide (n < 10)%nat).
  - rewrite itoa_small by assumption. discriminate.
  - rewrite itoa_step by lia. intros H. apply app_eq_nil in H as [_ H]. discriminate.
Qed.

Lemma atoi_acc_itoa (n : nat) : atoi_acc (Go.itoa n) 0 = Some n.
Proof.
  induction n as [n H | n H IH] using itoa_ind.
  - rewrite itoa_small by exact H. cbn.
    rewrite (proj1 (digit_spec n H)). cbn. try (f_equal; lia).
  - rewrite itoa_step by exact H. rewrite atoi_acc_snoc, IH.
    cbn [mbind option_bind].
    rewrite (proj1 (digit_spec (n mod 10)%nat ltac:(apply Nat.mod_upper_bound; lia))).
    cbn [mbind option_bind]. f_equal. symmetry. rewrite Nat.add_comm, Nat.mul_comm.
    rewrite (Nat.div_mod_eq n 10) at 1. lia.
Qed.

(** Reading back what [%d] printed. *)
Lemma atoi_itoa (n : nat) : atoi (Go.itoa n) = Some n.
Proof.
  unfold atoi. pose proof (itoa_nonempty n) as Hne.
  destruct (Go.itoa n) eqn:E; [congruence |]. rewrite <- E. apply atoi_acc_itoa.
Qed.

(** The number of digits: [n] is below [10^len], and not below
    [10^(len-1)] unless it is a single digit. *)
Lemma itoa_length (n : nat) :
  (1 <= length (Go.itoa n))%nat /\
  (n < 10 ^ length (Go.itoa n))%nat /\
  (10 <= n -> 10 ^ (length (Go.itoa n) - 1) <= n)%nat.
Proof.
  induction n as [n H | n H IH] using itoa_ind.
  - rewrite itoa_small by exact H. cbn. lia.
  - rewrite itoa_step by exact H. rewrite length_app. cbn [length].
    destruct IH as (IH1 & IH2 & IH3).
    replace (length (Go.itoa (n / 10)) + 1)%nat
      with (S (length (Go.itoa (n / 10)))) by lia.
    rewrite Nat.pow_succ_r'. cbn [Nat.sub]. rewrite Nat.sub_0_r.
    pose proof (Nat.div_mod_eq n 10) as Hdm.
    pose proof (Nat.mod_upper_bound n 10 ltac:(lia)) as Hm.
    split; [lia |]. split; [lia |]. intros _.
    destruct (decide (n / 10 < 10)%nat) as [Hs|Hs].
    + rewrite itoa_small by exact Hs. cbn. lia.
    + specialize (IH3 ltac:(lia)).
      destruct (length (Go.itoa (n / 10))) as [|l]; [lia |].
      cbn [Nat.sub] in IH3. rewrite Nat.sub_0_r in IH3.
      rewrite Nat.pow_succ_r'. lia.
Qed.

(** ** Framed buffers *)

Lemma hdr_chars (n : nat) :
  (NUL ∉ commitTag ++ Go.itoa n) /\ (LF ∉ hdr n).
Proof.
  pose proof (itoa_chars n) as Hc. rewrite Forall_forall in Hc.
  assert (Htag : forall b, b ∈ commitTag -> b <> NUL /\ b <> LF).
  { intros b Hb. unfold commitTag in Hb.
    repeat (apply elem_of_cons in Hb as [-> | Hb]; [split; discriminate |]).
    apply elem_of_nil in Hb. contradiction. }
  split.
  - intros H. apply elem_of_app in H as [H | H].
    + apply Htag in H. tauto.
    + apply Hc in H. tauto.
  - unfold hdr. intros H. apply elem_of_app in H as [H | H].
    + apply Htag in H. tauto.
    + apply elem_of_app in H as [H | H].
      * apply Hc in H. tauto.
      * apply list_elem_of_singleton in H. discriminate.
Qed.

Lemma length_hdr (n : nat) :
  length (hdr n) = (8 + length (Go.itoa n))%nat.
Proof. unfold hdr. rewrite !length_app. cbn. lia. Qed.

Lemma IndexByte_hdr (n : nat) (x : bytes) :
  Go.IndexByte (hdr n ++ x) NUL = Z.of_nat (length (hdr n)) - 1.
Proof.
  unfold hdr. rewrite <- !app_assoc. cbn [app].
  rewrite (app_assoc commitTag), IndexByte_first by apply hdr_chars.
  unfold Go.len. rewrite !length_app. cbn [length]. lia.
Qed.

(** [fixHeader] replaces a header by the one that fits what follows. *)
Lemma fixHeader_hdr (n : nat) (x : bytes) : fixHeader (hdr n ++ x) = frame x.
Proof.
  unfold fixHeader. rewrite IndexByte_hdr.
  replace (Z.to_nat (Z.of_nat (length (hdr n)) - 1 + 1)) with (length (hdr n)) by lia.
  rewrite drop_app_length. unfold frame, hdr. rewrite <- !app_assoc. reflexivity.
Qed.

Lemma fixHeader_frame (c : bytes) : fixHeader (frame c) = frame c.
Proof. apply fixHeader_hdr. Qed.

Lemma fixHeader_framed (obj : bytes) : fixHeader obj = frame (content obj).
Proof. unfold fixHeader, content, frame, hdr. rewrite <- !app_assoc. reflexivity. Qed.

Lemma content_frame (c : bytes) : content (frame c) = c.
Proof.
  unfold content, frame. rewrite IndexByte_hdr.
  replace (Z.to_nat (Z.of_nat (length (hdr (length c))) - 1 + 1))
    with (length (hdr (length c))) by lia.
  apply drop_app_length.
Qed.

Lemma declaredLength_frame (c : bytes) :
  declaredLength (frame c) = Some (length c).
Proof.
  unfold declaredLength, frame, hdr. rewrite <- !app_assoc.
  rewrite (proj2 (HasPrefix_spec _ commitTag)) by (apply prefix_app_r; reflexivity).
  rewrite drop_app_length. cbn [app].
  pose proof (itoa_chars (length c)) as Hc. rewrite Forall_forall in Hc.
  rewrite IndexByte_first by (intros H; apply Hc in H; tauto).
  unfold Go.len. replace (Z.of_nat _ <? 0) with false by (symmetry; apply Z.ltb_ge; lia).
  rewrite Nat2Z.id, take_app_length. apply atoi_itoa.
Qed.

Lemma wellFramed_frame (c : bytes) : wellFramed (frame c).
Proof. unfold wellFramed. rewrite declaredLength_frame, content_frame. reflexivity. Qed.

(** Searching a framed buffer for something that starts a line searches its
    content. *)
Lemma Index_frame (c r : bytes) :
  Go.Index (frame c) (LF :: r) =
    if Go.Index c (LF :: r) =? -1 then -1
    else Go.len (hdr (length c)) + Go.Index c (LF :: r).
Proof. unfold frame. apply Index_skip. apply hdr_chars. Qed.

Lemma nonceHeader_cons cfg : nonceHeader cfg = LF :: (nonceName cfg ++ [SP]).
Proof. reflexivity. Qed.

Lemma length_nonceHeader cfg :
  length (nonceHeader cfg) = (2 + length (nonceName cfg))%nat.
Proof. unfold nonceHeader. rewrite !length_app. cbn. lia. Qed.

(** ** [growNonce] *)

Lemma growNonce_frame cfg (a v : bytes) :
  Go.Index (a ++ nonceHeader cfg ++ v) (nonceHeader cfg) = Z.of_nat (length a) ->
  growNonce cfg (frame (a ++ nonceHeader cfg ++ v))
    = Some (frame (a ++ nonceHeader cfg ++ ZERO :: v)).
Proof.
  intros Hidx. unfold growNonce.
  set (c := a ++ nonceHeader cfg ++ v) in *.
  pose proof (Index_frame c (nonceName cfg ++ [SP])) as Hi.
  change (LF :: nonceName cfg ++ [SP]) with (nonceHeader cfg) in Hi.
  rewrite Hidx in Hi.
  replace (Z.of_nat (length a) =? -1) with false in Hi
    by (symmetry; apply Z.eqb_neq; lia).
  rewrite Hi.
  unfold Go.len. rewrite <- !Nat2Z.inj_add.
  set (k := (length (hdr (length c)) + length a + length (nonceHeader cfg))%nat).
  assert (Hsplit : frame c = (hdr (length c) ++ a ++ nonceHeader cfg) ++ v).
  { unfold frame, c. rewrite <- !app_assoc. reflexivity. }
  assert (Hk : k = length (hdr (length c) ++ a ++ nonceHeader cfg)).
  { unfold k. rewrite !length_app. lia. }
  rewrite slice_to_nat, slice_from_nat by (rewrite Hsplit, length_app; lia).
  cbn [mbind option_bind]. f_equal.
  rewrite Hsplit, Hk, take_app_length, drop_app_length.
  rewrite <- !app_assoc. rewrite fixHeader_hdr. cbn [app]. reflexivity.
Qed.

(** ** [addOrFindNonce] *)

Lemma scanLine_spec (u v : bytes) : forall i : Z,
  LF ∉ u -> scanLine (u ++ LF :: v) i = Some (i + Go.len u).
Proof.
  unfold Go.len. induction u as [|c u IH]; intros i Hu; cbn [app scanLine].
  - rewrite bool_decide_eq_true_2 by reflexivity. cbn. f_equal. lia.
  - apply not_elem_of_cons in Hu as [Hc Hu].
    rewrite bool_decide_eq_false_2 by congruence.
    rewrite IH by exact Hu. cbn [length]. f_equal. lia.
Qed.

(** The second half of [addOrFindNonce], on a framed buffer in which the
    first nonce line is [a] bytes into the content and reads [val]. *)
Lemma locate_frame cfg (a val b : bytes) :
  let c := a ++ nonceHeader cfg ++ val ++ LF :: b in
  LF ∉ nonceName cfg -> LF ∉ val ->
  Go.Index c (nonceHeader cfg) = Z.of_nat (length a) ->
  (let i := Go.Index (frame c) (nonceHeader cfg) in
   rest ← Go.slice_from (frame c) (i + 1);
   i ← scanLine rest i;
   Some (frame c, i))
  = Some (frame c,
          Z.of_nat (length (hdr (length c)) + length a
                    + length (nonceHeader cfg) + length val) - 1).
Proof.
  intros c Hname Hval Hidx.
  pose proof (Index_frame c (nonceName cfg ++ [SP])) as Hi.
  change (LF :: nonceName cfg ++ [SP]) with (nonceHeader cfg) in Hi.
  rewrite Hidx in Hi.
  replace (Z.of_nat (length a) =? -1) with false in Hi
    by (symmetry; apply Z.eqb_neq; lia).
  cbv zeta. rewrite Hi. unfold Go.len. rewrite <- Nat2Z.inj_add.
  set (k := (length (hdr (length c)) + length a)%nat).
  assert (Hsplit : frame c = (hdr (length c) ++ a ++ [LF])
                             ++ (nonceName cfg ++ [SP] ++ val) ++ LF :: b).
  { unfold frame, c, nonceHeader. rewrite <- !app_assoc. reflexivity. }
  assert (Hk : length (hdr (length c) ++ a ++ [LF]) = S k).
  { unfold k. rewrite !length_app. cbn. lia. }
  replace (Z.of_nat k + 1) with (Z.of_nat (S k)) by lia.
  rewrite slice_from_nat by (rewrite Hsplit, length_app; lia).
  cbn [mbind option_bind].
  rewrite Hsplit at 1. rewrite <- Hk, drop_app_length.
  rewrite scanLine_spec.
  - cbn [mbind option_bind]. f_equal. f_equal. unfold Go.len.
    rewrite !length_app, length_nonceHeader. cbn [length]. lia.
  - intros H. apply elem_of_app in H as [H | H]; [auto |].
    apply elem_of_app in H as [H | H]; [| auto].
    apply list_elem_of_singleton in H. discriminate.
Qed.

(** A header line put into a content that had none is the first one,
    provided the name of the field is on one line. *)
Lemma fresh_first cfg (x rest : bytes) :
  LF ∉ nonceName cfg ->
  (forall n, ~ occursAt (nonceHeader cfg) (x ++ rest) n) ->
  Go.Index (x ++ nonceHeader cfg ++ rest) (nonceHeader cfg) = Z.of_nat (length x).
Proof.
  intros Hname Hno. apply Index_first; [apply occursAt_app |].
  intros m Hm [_ Hp].
  rewrite drop_app_le in Hp by lia.
  destruct (decide (length (nonceHeader cfg) <= length (drop m x))%nat) as [Hlong|Hshort].
  - apply (Hno m). split; [rewrite length_app; lia |].
    rewrite drop_app_le by lia. apply prefix_app_r.
    eapply prefix_of_app_long; [exact Hlong | exact Hp].
  - set (k := length (drop m x)) in *.
    assert (Hk : (1 <= k)%nat) by (unfold k; rewrite length_drop; lia).
    destruct (lookup_lt_is_Some_2 (nonceHeader cfg) k ltac:(lia)) as [d Hd].
    pose proof (prefix_lookup_Some _ _ _ _ Hd Hp) as Hd'.
    rewrite lookup_app_r in Hd' by (fold k; lia). fold k in Hd'.
    rewrite Nat.sub_diag in Hd'. cbn in Hd'. injection Hd' as <-.
    rewrite nonceHeader_cons in Hd. destruct k as [|k]; [lia |].
    cbn in Hd. apply list_elem_of_lookup_2 in Hd.
    apply elem_of_app in Hd as [Hd | Hd]; [auto |].
    apply list_elem_of_singleton in Hd. discriminate.
Qed.

Lemma addOrFindNonce_found cfg (a val b : bytes) :
  let c := a ++ nonceHeader cfg ++ val ++ LF :: b in
  LF ∉ nonceName cfg -> LF ∉ val ->
  Go.Index c (nonceHeader cfg) = Z.of_nat (length a) ->
  addOrFindNonce cfg (frame c)
  = Some (frame c,
          Z.of_nat (length (hdr (length c)) + length a
                    + length (nonceHeader cfg) + length val) - 1).
Proof.
  intros c Hname Hval Hidx. unfold addOrFindNonce.
  assert (Hcont : Go.Contains (frame c) (nonceHeader cfg) = true).
  { apply not_false_iff_true. rewrite Contains_false.
    pose proof (Index_frame c (nonceName cfg ++ [SP])) as Hi.
    change (LF :: nonceName cfg ++ [SP]) with (nonceHeader cfg) in Hi.
    rewrite Hidx in Hi.
    replace (Z.of_nat (length a) =? -1) with false in Hi
      by (symmetry; apply Z.eqb_neq; lia).
    rewrite Hi. unfold Go.len. lia. }
  rewrite Hcont. cbn [negb mbind option_bind].
  apply (locate_frame cfg a val b Hname Hval Hidx).
Qed.

Lemma addOrFindNonce_fresh cfg (x y : bytes) :
  let c := x ++ LF :: LF :: y in
  let c' := x ++ nonceHeader cfg ++ LF :: LF :: y in
  LF ∉ nonceName cfg ->
  Go.Index c (nonceHeader cfg) = -1 ->
  Go.Index c [LF; LF] = Z.of_nat (length x) ->
  Go.Index c' (nonceHeader cfg) = Z.of_nat (length x) /\
  addOrFindNonce cfg (frame c)
  = Some (frame c',
          Z.of_nat (length (hdr (length c')) + length x
                    + length (nonceHeader cfg)) - 1).
Proof.
  intros c c' Hname Habs Hblank.
  assert (Hfirst : Go.Index c' (nonceHeader cfg) = Z.of_nat (length x)).
  { apply fresh_first; [exact Hname |]. intros n Ho.
    destruct (Index_spec c (nonceHeader cfg)) as [[_ Hno] | (k & He & _)].
    - exact (Hno n Ho).
    - rewrite Habs in He. lia. }
  split; [exact Hfirst |].
  unfold addOrFindNonce.
  assert (Hcont : Go.Contains (frame c) (nonceHeader cfg) = false).
  { apply Contains_false. rewrite nonceHeader_cons, Index_frame.
    rewrite <- nonceHeader_cons, Habs. reflexivity. }
  rewrite Hcont. cbn [negb].
  rewrite Index_frame, Hblank.
  replace (Z.of_nat (length x) =? -1) with false by (symmetry; apply Z.eqb_neq; lia).
  unfold Go.len. rewrite <- Nat2Z.inj_add.
  assert (Hsplit : frame c = (hdr (length c) ++ x) ++ LF :: LF :: y).
  { unfold frame, c. rewrite <- app_assoc. reflexivity. }
  assert (Hk : (length (hdr (length c)) + length x)%nat
               = length (hdr (length c) ++ x)) by (rewrite length_app; lia).
  rewrite slice_to_nat, slice_from_nat by (rewrite Hsplit, length_app; lia).
  cbn [mbind option_bind].
  rewrite Hsplit, Hk, take_app_length, drop_app_length.
  rewrite <- !app_assoc, fixHeader_hdr. fold c'.
  pose proof (locate_frame cfg x [] (LF :: y) Hname) as Hloc.
  cbn [app length] in Hloc. fold c' in Hloc.
  rewrite Hloc; [| apply not_elem_of_nil | exact Hfirst].
  do 3 f_equal. lia.
Qed.

Lemma at_middle (p s : bytes) (c : byte) (i : Z) :
  i = Z.of_nat (length p) -> Go.at_ (p ++ c :: s) i = Some c.
Proof. intros ->. rewrite at_nat. apply list_lookup_middle. reflexivity. Qed.

Lemma at_middle1 (p s : bytes) (c d : byte) (i : Z) :
  i = Z.of_nat (length p) + 1 -> Go.at_ (p ++ c :: d :: s) i = Some d.
Proof.
  intros ->. rewrite (cons_middle c), app_assoc. apply at_middle.
  rewrite length_app. cbn [length]. lia.
Qed.

Lemma at_middle2 (p s : bytes) (c d e : byte) (i : Z) :
  i = Z.of_nat (length p) + 2 -> Go.at_ (p ++ c :: d :: e :: s) i = Some e.
Proof.
  intros ->. rewrite (cons_middle c), app_assoc. apply at_middle1.
  rewrite length_app. cbn [length]. lia.
Qed.

(** C4, as the code has it.  On a framed buffer with a blank line and
    without the field, [addOrFindNonce] puts the line ["<name> "], the name
    and a space with no value after it, right before the first blank line
    and writes the header anew; the offset it returns is that of the space,
    the last byte of the new line. *)
Theorem addOrFindNonce_inserts cfg (x y : bytes) :
  let c := x ++ LF :: LF :: y in
  let c' := x ++ nonceHeader cfg ++ LF :: LF :: y in
  LF ∉ nonceName cfg ->
  Go.Index c [LF; LF] = Z.of_nat (length x) ->
  Go.Contains (frame c) (nonceHeader cfg) = false ->
  exists obj idx,
    addOrFindNonce cfg (frame c) = Some (obj, idx) /\
    obj = frame c' /\ wellFramed obj /\ content obj = c' /\
    idx = Z.of_nat (length (hdr (length c')) + length x
                    + length (nonceName cfg)) + 1 /\
    Go.at_ obj idx = Some SP /\
    Go.at_ obj (idx + 1) = Some LF /\
    Go.at_ obj (idx + 2) = Some LF.
Proof.
  intros c c' Hname Hblank Habs.
  assert (Habs' : Go.Index c (nonceHeader cfg) = -1).
  { apply Contains_false in Habs.
    rewrite nonceHeader_cons, Index_frame, <- nonceHeader_cons in Habs.
    destruct (Go.Index c (nonceHeader cfg) =? -1) eqn:E; [apply Z.eqb_eq; exact E |].
    destruct (Index_spec c (nonceHeader cfg)) as [[He _] | (k & He & _)];
      [exact He | unfold Go.len in Habs; lia]. }
  destruct (addOrFindNonce_fresh cfg x y Hname Habs' Hblank) as [_ Hadd].
  fold c c' in Hadd. eexists _, _. split; [exact Hadd |].
  split; [reflexivity |]. split; [apply wellFramed_frame |].
  split; [apply content_frame |].
  split; [rewrite length_nonceHeader; lia |].
  assert (Hsplit : frame c' = (hdr (length c') ++ x ++ LF :: nonceName cfg)
                              ++ SP :: LF :: LF :: y).
  { unfold frame, c', nonceHeader. rewrite <- ?app_assoc. cbn [app].
    rewrite <- ?app_assoc. reflexivity. }
  assert (Hlen : length (hdr (length c') ++ x ++ LF :: nonceName cfg)
                 = (length (hdr (length c')) + length x
                    + length (nonceHeader cfg) - 1)%nat).
  { rewrite !length_app, length_nonceHeader. cbn [length]. lia. }
  pose proof (length_nonceHeader cfg) as Hnh.
  split; [rewrite Hsplit; apply at_middle; rewrite Hlen; lia |].
  split; [rewrite Hsplit; apply at_middle1; rewrite Hlen; lia |].
  rewrite Hsplit; apply at_middle2; rewrite Hlen; lia.
Qed.

Lemma defaultConfig_name : LF ∉ nonceName defaultConfig.
Proof. apply (bool_decide_unpack _). vm_compute. exact I. Defined.

Lemma addOrFindNonce_inserts_witness :
  exists obj idx,
    addOrFindNonce defaultConfig (fixHeader sampleCommit) = Some (obj, idx) /\
    Go.at_ obj idx = Some SP.
Proof.
  destruct (addOrFindNonce_inserts defaultConfig
              (take 35 sampleCommit) (drop 37 sampleCommit))
    as (obj & idx & Hadd & _ & _ & _ & _ & Hsp & _).
  - exact defaultConfig_name.
  - vm_compute. reflexivity.
  - vm_compute. reflexivity.
  - exists obj, idx. split; [exact Hadd | exact Hsp].
Defined.

(** C4, as it is worded, fails on the sample commit: the new line is
    ["nonce "] and nothing more, and the byte at the returned offset is the
    space, not a digit of a placeholder. *)
Lemma addOrFindNonce_no_placeholder :
  exists obj idx,
    addOrFindNonce defaultConfig (fixHeader sampleCommit) = Some (obj, idx) /\
    content obj = take 35 sampleCommit
                  ++ list_byte_of_string "
nonce " ++ drop 35 sampleCommit /\
    ~ (exists d, d ∈ nonceChars defaultConfig /\ Go.at_ obj idx = Some d).
Proof.
  eexists _, _. split; [vm_compute; reflexivity |].
  split; [vm_compute; reflexivity |].
  intros (d & Hd & Hat). vm_compute in Hat. injection Hat as <-.
  revert Hd. apply (bool_decide_unpack _). vm_compute. exact I.
Qed.

(** ** The steps of [writeNonce] on a framed buffer *)

Lemma rendersTo_done cfg t obj nonceIdx i nonce :
  nonce <= 0 -> rendersTo cfg t obj nonceIdx i nonce (obj, nonceIdx).
Proof.
  intros H. exists 1%nat. cbn [writeNonce].
  replace (0 <? nonce) with false by (symmetry; apply Z.ltb_ge; lia).
  reflexivity.
Qed.

Lemma rendersTo_write cfg t obj nonceIdx i nonce c d res :
  0 < nonce ->
  Go.at_ obj i = Some c -> c <> SP ->
  Go.len (nonceChars cfg) <> 0 ->
  Go.at_ (nonceChars cfg) (Z.rem nonce (Go.len (nonceChars cfg))) = Some d ->
  rendersTo cfg t (Go.set obj i d) nonceIdx (i - 1)
            (Z.quot nonce (Go.len (nonceChars cfg))) res ->
  rendersTo cfg t obj nonceIdx i nonce res.
Proof.
  intros Hn Hat Hc Hr Hd [fuel Hf]. exists (S fuel). cbn [writeNonce].
  replace (0 <? nonce) with true by (symmetry; apply Z.ltb_lt; lia).
  rewrite Hat, bool_decide_eq_false_2 by exact Hc.
  replace (Go.len (nonceChars cfg) =? 0) with false
    by (symmetry; apply Z.eqb_neq; exact Hr).
  rewrite Hd. exact Hf.
Qed.

Lemma rendersTo_grow cfg t obj nonceIdx i nonce obj' res :
  0 < nonce ->
  Go.at_ obj i = Some SP ->
  growNonce cfg obj = Some obj' ->
  rendersTo cfg t obj' (nonceIdx + 1) (nonceIdx + 1) t res ->
  rendersTo cfg t obj nonceIdx i nonce res.
Proof.
  intros Hn Hat Hg [fuel Hf]. exists (S fuel). cbn [writeNonce].
  replace (0 <? nonce) with true by (symmetry; apply Z.ltb_lt; lia).
  rewrite Hat, bool_decide_eq_true_2 by reflexivity.
  rewrite Hg. exact Hf.
Qed.

(** More fuel does not change a result. *)
Lemma writeNonce_fuel cfg t (fuel : nat) : forall fuel' obj nonceIdx i nonce res,
  (fuel <= fuel')%nat ->
  writeNonce fuel cfg t obj nonceIdx i nonce = Ret res ->
  writeNonce fuel' cfg t obj nonceIdx i nonce = Ret res.
Proof.
  induction fuel as [|fuel IH]; intros fuel' obj nonceIdx i nonce res Hle H;
    [discriminate |].
  destruct fuel' as [|fuel']; [lia |].
  cbn [writeNonce] in *.
  destruct (0 <? nonce); [| exact H].
  destruct (Go.at_ obj i) as [c|]; [| discriminate].
  destruct (bool_decide (c = SP)).
  - destruct (growNonce cfg obj); [| discriminate]. apply IH; [lia | exact H].
  - destruct (Go.len (nonceChars cfg) =? 0); [discriminate |].
    destruct (Go.at_ (nonceChars cfg) _); [| discriminate].
    apply IH; [lia | exact H].
Qed.

Lemma rendersTo_unique cfg t obj nonceIdx i nonce res res' :
  rendersTo cfg t obj nonceIdx i nonce res ->
  rendersTo cfg t obj nonceIdx i nonce res' -> res = res'.
Proof.
  intros [f Hf] [f' Hf'].
  apply (writeNonce_fuel _ _ _ (f + f')%nat) in Hf; [| lia].
  apply (writeNonce_fuel _ _ _ (f + f')%nat) in Hf'; [| lia].
  congruence.
Qed.

(** Reading and writing the byte under the cursor. *)
Lemma at_frame (p s : bytes) (ch : byte) (i : Z) :
  i = Z.of_nat (length (hdr (length (p ++ ch :: s))) + length p) ->
  Go.at_ (frame (p ++ ch :: s)) i = Some ch.
Proof.
  intros ->. unfold frame. rewrite app_assoc. apply at_middle.
  f_equal. symmetry. apply length_app.
Qed.

Lemma set_frame (p s : bytes) (ch dg : byte) (i : Z) :
  i = Z.of_nat (length (hdr (length (p ++ ch :: s))) + length p) ->
  Go.set (frame (p ++ ch :: s)) i dg = frame (p ++ dg :: s).
Proof.
  intros ->. unfold Go.set, frame. rewrite Nat2Z.id.
  replace (length (p ++ dg :: s)) with (length (p ++ ch :: s))
    by (rewrite !length_app; reflexivity).
  rewrite insert_app_r_alt by lia.
  f_equal. rewrite insert_app_r_alt by lia.
  replace (length (hdr (length (p ++ ch :: s))) + length p
           - length (hdr (length (p ++ ch :: s))) - length p)%nat with 0%nat by lia.
  reflexivity.
Qed.

(** The first header stays the first one whatever follows it. *)
Lemma firstHeader cfg (a v : bytes) :
  Go.Index (a ++ nonceHeader cfg) (nonceHeader cfg) = Z.of_nat (length a) ->
  Go.Index (a ++ nonceHeader cfg ++ v) (nonceHeader cfg) = Z.of_nat (length a).
Proof.
  intros H. apply (Index_first_indep _ _ []). rewrite app_nil_r. exact H.
Qed.

Lemma firstHeader_inv cfg (a v : bytes) :
  Go.Index (a ++ nonceHeader cfg ++ v) (nonceHeader cfg) = Z.of_nat (length a) ->
  Go.Index (a ++ nonceHeader cfg) (nonceHeader cfg) = Z.of_nat (length a).
Proof.
  intros H. apply (Index_first_indep _ _ _ []) in H. rewrite app_nil_r in H. exact H.
Qed.

(** ** Numerals in the alphabet *)

Section Numerals.

Variable chars : bytes.
Hypothesis radix : 2 <= Go.len chars.

Let r := Go.len chars.

Lemma quot_lt (x : Z) : 0 < x -> 0 <= Z.quot x r < x.
Proof.
  intros Hx. rewrite Z.quot_div_nonneg by (unfold r; lia).
  split; [apply Z.div_pos; unfold r; lia | apply Z.div_lt; unfold r; lia].
Qed.

Lemma rem_range (x : Z) : 0 < x -> 0 <= Z.rem x r < r.
Proof. intros Hx. apply Z.rem_bound_pos; unfold r; lia. Qed.

Lemma digitsOf_fuel (fuel : nat) : forall (fuel' : nat) (x : Z),
  x <= Z.of_nat fuel -> x <= Z.of_nat fuel' ->
  digitsOf fuel chars x = digitsOf fuel' chars x.
Proof.
  induction fuel as [|fuel IH]; intros fuel' x Hf Hf'.
  - destruct fuel'; cbn [digitsOf]; [reflexivity |].
    replace (0 <? x) with false by (symmetry; apply Z.ltb_ge; lia). reflexivity.
  - destruct fuel' as [|fuel']; cbn [digitsOf].
    + replace (0 <? x) with false by (symmetry; apply Z.ltb_ge; lia). reflexivity.
    + destruct (0 <? x) eqn:Hx; [| reflexivity]. apply Z.ltb_lt in Hx.
      pose proof (quot_lt x Hx). fold r. f_equal. apply IH; lia.
Qed.

Lemma digits_nonpos (x : Z) : x <= 0 -> digits chars x = [].
Proof.
  intros Hx. unfold digits. destruct (Z.to_nat x); cbn [digitsOf]; [reflexivity |].
  replace (0 <? x) with false by (symmetry; apply Z.ltb_ge; lia). reflexivity.
Qed.

Lemma digits_step (x : Z) :
  0 < x ->
  digits chars x =
    digits chars (Z.quot x r) ++ [default x00 (chars !! Z.to_nat (Z.rem x r))].
Proof.
  intros Hx. unfold digits.
  destruct (Z.to_nat x) as [|n] eqn:En; [lia |]. cbn [digitsOf].
  replace (0 <? x) with true by (symmetry; apply Z.ltb_lt; lia).
  fold r. f_equal. pose proof (quot_lt x Hx). apply digitsOf_fuel; lia.
Qed.

(** The digit the loop writes for [x]. *)
Lemma digit_at (x : Z) :
  0 < x ->
  Go.at_ chars (Z.rem x r) = Some (default x00 (chars !! Z.to_nat (Z.rem x r))) /\
  default x00 (chars !! Z.to_nat (Z.rem x r)) ∈ chars.
Proof.
  intros Hx. pose proof (rem_range x Hx) as Hr.
  destruct (lookup_lt_is_Some_2 chars (Z.to_nat (Z.rem x r))) as [d Hd].
  { unfold r, Go.len in *. lia. }
  rewrite Hd. change (default x00 (Some d)) with d. split.
  - rewrite <- (Z2Nat.id (Z.rem x r)) by lia. rewrite at_nat. exact Hd.
  - eapply list_elem_of_lookup_2. exact Hd.
Qed.

(** Induction along the digits of a number. *)
Lemma digits_ind (P : Z -> Prop) :
  (forall x, x <= 0 -> P x) ->
  (forall x, 0 < x -> P (Z.quot x r) -> P x) ->
  forall x, P x.
Proof.
  intros H0 Hs x.
  assert (H : forall n : nat, forall x, x <= Z.of_nat n -> P x).
  { induction n as [|n IH]; intros y Hy; [apply H0; lia |].
    destruct (decide (0 < y)); [| apply H0; lia].
    apply Hs; [assumption |]. apply IH. pose proof (quot_lt y); lia. }
  destruct (decide (0 < x)); [| apply H0; lia].
  apply (H (Z.to_nat x)). lia.
Qed.

Lemma digits_in (x : Z) : Forall (fun b => b ∈ chars) (digits chars x).
Proof.
  induction x as [x Hx | x Hx IH] using digits_ind.
  - rewrite digits_nonpos by exact Hx. constructor.
  - rewrite digits_step by exact Hx. apply Forall_app. split; [exact IH |].
    constructor; [apply (digit_at x Hx) | constructor].
Qed.

Lemma digits_positive (x : Z) : 0 < x -> (1 <= length (digits chars x))%nat.
Proof. intros Hx. rewrite digits_step by exact Hx. rewrite length_app. cbn. lia. Qed.

Lemma indexOf_lookup (k : nat) (b : byte) :
  NoDup chars -> chars !! k = Some b -> indexOf chars b = Some (Z.of_nat k).
Proof.
  clear radix r. revert k. induction chars as [|c cs IH]; intros k Hnd Hk;
    [discriminate |].
  cbn [indexOf]. apply NoDup_cons in Hnd as [Hc Hnd].
  destruct k as [|k]; cbn in Hk.
  - injection Hk as ->. rewrite bool_decide_eq_true_2 by reflexivity. reflexivity.
  - rewrite bool_decide_eq_false_2.
    + rewrite (IH k Hnd Hk). cbn. f_equal. lia.
    + intros ->. apply Hc. eapply list_elem_of_lookup_2. exact Hk.
Qed.

Lemma parseFrom_snoc (bs : bytes) (b : byte) : forall acc : Z,
  parseFrom chars acc (bs ++ [b]) =
    v ← parseFrom chars acc bs; d ← indexOf chars b; Some (v * r + d).
Proof.
  induction bs as [|c bs IH]; intros acc; cbn [app parseFrom].
  - destruct (indexOf chars b); reflexivity.
  - destruct (indexOf chars c); cbn [mbind option_bind]; [apply IH | reflexivity].
Qed.

(** Reading back the digits of a number gives the number. *)
Lemma parseNonce_digits (x : Z) :
  NoDup chars -> 0 <= x -> parseNonce chars (digits chars x) = Some x.
Proof.
  intros Hnd. unfold parseNonce.
  induction x as [x Hx | x Hx IH] using digits_ind; intros H0.
  - rewrite digits_nonpos by exact Hx. cbn. f_equal. lia.
  - rewrite digits_step by exact Hx. rewrite parseFrom_snoc.
    pose proof (quot_lt x Hx) as Hq. rewrite IH by lia. cbn [mbind option_bind].
    pose proof (rem_range x Hx) as Hr.
    destruct (lookup_lt_is_Some_2 chars (Z.to_nat (Z.rem x r))) as [d Hd].
    { unfold r, Go.len in *. lia. }
    rewrite Hd. change (default x00 (Some d)) with d.
    rewrite (indexOf_lookup _ _ Hnd Hd).
    cbn [mbind option_bind]. f_equal. rewrite Z2Nat.id by lia.
    pose proof (Z.quot_rem' x r). lia.
Qed.

End Numerals.

(** ** One pass of the digit loop *)

Lemma runLen_nil : runLen [] = 0%nat.
Proof. reflexivity. Qed.

Lemma runLen_snoc (l : bytes) (c : byte) :
  runLen (l ++ [c]) = if bool_decide (c = SP) then 0%nat else S (runLen l).
Proof. unfold runLen. rewrite rev_unit. reflexivity. Qed.

Lemma runLen_le (l : bytes) : (runLen l <= length l)%nat.
Proof.
  induction l as [|c l IH] using rev_ind; [cbn; lia |].
  rewrite runLen_snoc, length_app. cbn [length]. destruct (bool_decide (c = SP)); lia.
Qed.


(** How the header widens: the number of digits of the length goes up by
    one exactly when the length reaches a power of ten. *)
Lemma itoa_length_succ (n : nat) :
  length (Go.itoa (S n)) =
    if decide (S n = 10 ^ length (Go.itoa n))%nat
    then S (length (Go.itoa n)) else length (Go.itoa n).
Proof.
  destruct (itoa_length n) as (L1 & L2 & L3).
  destruct (itoa_length (S n)) as (M1 & M2 & M3).
  set (L := length (Go.itoa n)) in *. set (M := length (Go.itoa (S n))) in *.
  assert (HL : (n < 10 -> L = 1)%nat)
    by (intros H; unfold L; rewrite itoa_small by exact H; reflexivity).
  assert (HM : (S n < 10 -> M = 1)%nat)
    by (intros H; unfold M; rewrite itoa_small by exact H; reflexivity).
  assert (Hle : (L <= M)%nat).
  { destruct (decide (L <= M)%nat) as [|Hn]; [assumption | exfalso].
    assert (10 <= n)%nat by (destruct (decide (n < 10)%nat); [lia | lia]).
    specialize (L3 ltac:(lia)).
    assert (10 ^ M <= 10 ^ (L - 1))%nat by (apply Nat.pow_le_mono_r; lia). lia. }
  assert (Hge : (M <= S L)%nat).
  { destruct (decide (M <= S L)%nat) as [|Hn]; [assumption | exfalso].
    assert (10 <= S n)%nat by (destruct (decide (S n < 10)%nat); [lia | lia]).
    specialize (M3 ltac:(lia)).
    assert (10 ^ (S L) <= 10 ^ (M - 1))%nat by (apply Nat.pow_le_mono_r; lia).
    rewrite Nat.pow_succ_r' in *. lia. }
  destruct (decide (S n = 10 ^ L)%nat) as [E|E].
  - destruct (decide (M = L)) as [e|ne]; [rewrite e in M2; lia | lia].
  - destruct (decide (M = L)) as [|Hne]; [assumption | exfalso].
    assert (M = S L) by lia.
    assert (10 <= S n)%nat by (destruct (decide (S n < 10)%nat); [lia | lia]).
    specialize (M3 ltac:(lia)). subst M. rewrite H in M3.
    cbn [Nat.sub] in M3. rewrite Nat.sub_0_r in M3. lia.
Qed.

Lemma length_hdr_succ (n : nat) :
  length (hdr (S n)) =
    if decide (S n = 10 ^ length (Go.itoa n))%nat
    then S (length (hdr n)) else length (hdr n).
Proof. rewrite !length_hdr, itoa_length_succ. destruct (decide _); lia. Qed.

(** ** Spaces and runs *)

(** What follows the first space only adds to the count. *)
Lemma fromSpace_app (l x : bytes) :
  (0 < fromSpace l)%nat -> fromSpace (l ++ x) = (fromSpace l + length x)%nat.
Proof.
  induction l as [|c l IH]; cbn [fromSpace app]; [lia |]. intros H.
  destruct (bool_decide (c = SP)); [rewrite length_app; lia | apply IH; exact H].
Qed.

Lemma fromSpace_snoc_SP (p : bytes) : (0 < fromSpace (p ++ [SP]))%nat.
Proof.
  induction p as [|c p IH]; cbn [fromSpace app].
  - rewrite bool_decide_eq_true_2 by reflexivity. lia.
  - destruct (bool_decide (c = SP)); [lia | exact IH].
Qed.

(** Neither the digits written after the last space nor the byte put in
    front change the count. *)
Lemma fromSpace_blocked (p run digs : bytes) :
  length digs = length run ->
  fromSpace (ZERO :: (p ++ [SP]) ++ digs) = fromSpace ((p ++ [SP]) ++ run) /\
  (0 < fromSpace ((p ++ [SP]) ++ run))%nat.
Proof.
  intros Hl. cbn [fromSpace]. rewrite bool_decide_eq_false_2 by discriminate.
  pose proof (fromSpace_snoc_SP p) as Hp.
  rewrite !(fromSpace_app (p ++ [SP])) by exact Hp. lia.
Qed.

(** Dropping the last byte takes one off the count, unless there is
    nothing to count. *)
Lemma fromSpace_init (l : bytes) (c : byte) :
  fromSpace l = (fromSpace (l ++ [c]) - 1)%nat.
Proof.
  induction l as [|d l IH]; cbn [fromSpace app].
  - destruct (bool_decide (c = SP)); reflexivity.
  - destruct (bool_decide (d = SP)); [rewrite length_app; cbn [length]; lia | exact IH].
Qed.

Lemma runLen_app (pre run : bytes) :
  SP ∉ run -> runLen (pre ++ run) = (runLen pre + length run)%nat.
Proof.
  induction run as [|c run IH] using rev_ind; intros H.
  - rewrite app_nil_r. cbn. lia.
  - apply not_elem_of_app in H as [H1 H2].
    rewrite app_assoc, runLen_snoc, length_app.
    rewrite bool_decide_eq_false_2.
    + rewrite IH by exact H1. cbn [length]. lia.
    + intros ->. apply H2. apply list_elem_of_singleton. reflexivity.
Qed.

(** A stretch of bytes is a part that is empty or ends in a space, followed
    by its last run. *)
Lemma run_decomp (w : bytes) :
  exists pre run,
    w = pre ++ run /\ (SP ∉ run) /\ length run = runLen w /\
    (pre = [] \/ exists p, pre = p ++ [SP]).
Proof.
  induction w as [|c w IH] using rev_ind.
  - exists [], []. repeat split; [apply not_elem_of_nil | left; reflexivity].
  - destruct IH as (pre & run & -> & Hrun & Hlen & Hpre).
    rewrite runLen_snoc. destruct (decide (c = SP)) as [->|Hc].
    + rewrite bool_decide_eq_true_2 by reflexivity.
      exists ((pre ++ run) ++ [SP]), []. rewrite app_nil_r.
      repeat split; [apply not_elem_of_nil | right; eexists; reflexivity].
    + rewrite bool_decide_eq_false_2 by exact Hc.
      exists pre, (run ++ [c]). rewrite app_assoc.
      split; [reflexivity |]. split; [| split; [| exact Hpre]].
      * apply not_elem_of_app. split; [exact Hrun |].
        intros H. apply list_elem_of_singleton in H. congruence.
      * rewrite length_app, Hlen. cbn [length]. lia.
Qed.

Lemma exists_last_or_nil (w : bytes) :
  w = [] \/ exists w' ch, w = w' ++ [ch].
Proof.
  destruct w as [|c w]; [left; reflexivity | right].
  destruct (exists_last (l := c :: w)) as (w' & ch & E); [discriminate |].
  exists w', ch. exact E.
Qed.

Section Pass.

Variable cfg : config.
Variable t : Z.
Hypothesis radix : 2 <= Go.len (nonceChars cfg).

Let nh := nonceHeader cfg.
Let chars := nonceChars cfg.

(** The buffer with content [a ++ nh ++ w ++ d ++ v], and the offset of
    the last byte of [w] in it. *)
Let buf (a w d v : bytes) : bytes := frame (a ++ nh ++ w ++ d ++ v).

Let pos (a w d v : bytes) : Z :=
  Z.of_nat (length (hdr (length (a ++ nh ++ w ++ d ++ v))) + length a
            + length nh + length w) - 1.

Lemma cursorAt_buf obj i a w d v :
  cursorAt cfg obj i a w d v <->
  obj = buf a w d v /\ i = pos a w d v /\
  Go.Index (a ++ nh) nh = Z.of_nat (length a).
Proof. unfold cursorAt, buf, pos, nh. tauto. Qed.

Lemma at_cursor_snoc a w ch d v :
  Go.at_ (buf a (w ++ [ch]) d v) (pos a (w ++ [ch]) d v) = Some ch.
Proof.
  unfold buf, pos.
  replace (a ++ nh ++ (w ++ [ch]) ++ d ++ v) with ((a ++ nh ++ w) ++ ch :: d ++ v)
    by (rewrite <- !app_assoc; reflexivity).
  apply at_frame. rewrite !length_app. cbn [length]. lia.
Qed.

Lemma at_cursor_nil a d v : Go.at_ (buf a [] d v) (pos a [] d v) = Some SP.
Proof.
  unfold buf, pos, nh, nonceHeader.
  replace (a ++ ([LF] ++ nonceName cfg ++ [SP]) ++ [] ++ d ++ v)
    with ((a ++ LF :: nonceName cfg) ++ SP :: d ++ v)
    by (rewrite <- !app_assoc; reflexivity).
  apply at_frame. rewrite !length_app. cbn [length]. lia.
Qed.

Lemma set_cursor a w ch dg d v :
  Go.set (buf a (w ++ [ch]) d v) (pos a (w ++ [ch]) d v) dg = buf a w (dg :: d) v /\
  pos a (w ++ [ch]) d v - 1 = pos a w (dg :: d) v.
Proof.
  unfold buf, pos.
  replace (a ++ nh ++ (w ++ [ch]) ++ d ++ v) with ((a ++ nh ++ w) ++ ch :: d ++ v)
    by (rewrite <- !app_assoc; reflexivity).
  replace (a ++ nh ++ w ++ (dg :: d) ++ v) with ((a ++ nh ++ w) ++ dg :: d ++ v)
    by (rewrite <- !app_assoc; reflexivity).
  split.
  - apply set_frame. rewrite !length_app. cbn [length]. lia.
  - rewrite !length_app. cbn [length]. rewrite !length_app. lia.
Qed.

Lemma grow_buf a w d v :
  Go.Index (a ++ nh) nh = Z.of_nat (length a) ->
  growNonce cfg (buf a w d v) = Some (buf a (ZERO :: w) d v).
Proof.
  intros H. unfold buf. apply growNonce_frame. apply firstHeader. exact H.
Qed.

(** From the cursor on the last byte of [w], with [x] left to write: if
    the run of bytes other than a space that ends [w] has room for the
    digits of [x], they replace its last bytes and the loop ends; otherwise
    the run is filled with the low digits and the buffer grows. *)
Lemma pass_spec (nonceIdx : Z) (a v : bytes) :
  Go.Index (a ++ nh) nh = Z.of_nat (length a) ->
  forall (w d : bytes) (x : Z),
    let q := runLen w in
    let m := length (digits chars x) in
    ((m <= q)%nat ->
     rendersTo cfg t (buf a w d v) nonceIdx (pos a w d v) x
       (buf a (take (length w - m) w) (digits chars x ++ d) v, nonceIdx)) /\
    ((q < m)%nat ->
     forall res,
       rendersTo cfg t
         (buf a (ZERO :: take (length w - q) w)
              (drop (m - q) (digits chars x) ++ d) v)
         (nonceIdx + 1) (nonceIdx + 1) t res ->
       rendersTo cfg t (buf a w d v) nonceIdx (pos a w d v) x res).
Proof.
  intros Hfirst w. induction w as [|ch w IH] using rev_ind; intros d x; cbv zeta.
  - (* the cursor is on the space of the header *)
    rewrite runLen_nil. destruct (decide (0 < x)) as [Hx|Hx].
    + pose proof (digits_positive chars radix x Hx) as Hm.
      split; [lia |]. intros _ res Hres.
      rewrite !Nat.sub_0_r, drop_all in Hres. cbn [take app length Nat.sub] in Hres.
      eapply rendersTo_grow; [exact Hx | apply at_cursor_nil | | exact Hres].
      apply grow_buf. exact Hfirst.
    + rewrite digits_nonpos by lia. split; [| cbn; lia].
      intros _. cbn [take app length Nat.sub]. apply rendersTo_done. lia.
  - destruct (decide (0 < x)) as [Hx|Hx].
    2:{ rewrite digits_nonpos by lia. split; [| cbn; lia].
        intros _. cbn [length app].
        rewrite Nat.sub_0_r, take_ge by lia. apply rendersTo_done. lia. }
    pose proof (digits_step chars radix x Hx) as Hstep.
    fold chars in Hstep.
    set (dg := default x00 (chars !! Z.to_nat (Z.rem x (Go.len chars)))) in *.
    set (x' := Z.quot x (Go.len chars)) in *.
    assert (Hm : length (digits chars x) = S (length (digits chars x'))).
    { rewrite Hstep, length_app. cbn [length]. lia. }
    destruct (decide (ch = SP)) as [->|Hch].
    + (* a space inside the line *)
      rewrite runLen_snoc, bool_decide_eq_true_2 by reflexivity.
      split; [lia |]. intros _ res Hres.
      rewrite !Nat.sub_0_r, drop_all, take_ge in Hres by lia. cbn [app] in Hres.
      eapply rendersTo_grow; [exact Hx | apply at_cursor_snoc | | exact Hres].
      apply grow_buf. exact Hfirst.
    + rewrite runLen_snoc, bool_decide_eq_false_2 by exact Hch.
      destruct (set_cursor a w ch dg d v) as [Hset Hpos].
      destruct (digit_at chars radix x Hx) as [Hdg _]. fold chars dg in Hdg.
      pose proof (runLen_le w) as Hrl.
      destruct (IH (dg :: d) x') as [IH1 IH2].
      assert (Hwrite : forall res,
                rendersTo cfg t (buf a w (dg :: d) v) nonceIdx (pos a w (dg :: d) v) x' res ->
                rendersTo cfg t (buf a (w ++ [ch]) d v) nonceIdx (pos a (w ++ [ch]) d v) x res).
      { intros res Hres.
        eapply rendersTo_write;
          [exact Hx | apply at_cursor_snoc | exact Hch | lia
           | exact Hdg |].
        fold chars x'. rewrite Hset, Hpos. exact Hres. }
      rewrite length_app. cbn [length]. rewrite Hm. split.
      * intros Hle. apply Hwrite.
        replace (length w + 1 - S (length (digits chars x')))%nat
          with (length w - length (digits chars x'))%nat by lia.
        rewrite take_app_le by lia.
        rewrite Hstep, <- app_assoc. cbn [app]. apply IH1. lia.
      * intros Hlt res Hres. apply Hwrite. apply IH2; [lia |].
        replace (length w + 1 - S (runLen w))%nat
          with (length w - runLen w)%nat in Hres by lia.
        rewrite take_app_le in Hres by lia.
        replace (S (length (digits chars x')) - S (runLen w))%nat
          with (length (digits chars x') - runLen w)%nat in Hres by lia.
        rewrite Hstep, drop_app_le, <- app_assoc in Hres by lia.
        cbn [app] in Hres. exact Hres.
Qed.


(** *** From one pass to the next *)

(** The length of the content, and whether the next [growNonce] makes the
    header one byte longer. *)
Let size (a w v : bytes) : nat := length (a ++ nh ++ w ++ [] ++ v).

Let widens (n : nat) : Prop := S n = (10 ^ length (Go.itoa n))%nat.

Lemma size_eq a w v :
  size a w v = (length a + length nh + length w + length v)%nat.
Proof. unfold size. rewrite !length_app. cbn [length]. lia. Qed.

Lemma buf_join a w1 w2 v : buf a (w1 ++ w2) [] v = buf a w1 w2 v.
Proof. unfold buf. rewrite <- !app_assoc. reflexivity. Qed.

Lemma pos_same a w w' v v' :
  length w = length w' -> length v = length v' ->
  pos a w [] v = pos a w' [] v'.
Proof. intros Hw Hv. unfold pos. rewrite !length_app, Hw, Hv. reflexivity. Qed.

Lemma located_buf a w v :
  Go.Index (a ++ nh) nh = Z.of_nat (length a) ->
  located cfg (buf a w [] v) (pos a w [] v).
Proof. intros H. exists a, w, v. apply cursorAt_buf. auto. Qed.

(** A pass that has room ends with the digits of [t] in place. *)
Lemma restart_done a w v :
  Go.Index (a ++ nh) nh = Z.of_nat (length a) ->
  (length (digits chars t) <= runLen w)%nat ->
  rendersTo cfg t (buf a w [] v) (pos a w [] v) (pos a w [] v) t
    (buf a (take (length w - length (digits chars t)) w ++ digits chars t) [] v,
     pos a w [] v).
Proof.
  intros Hfirst Hm.
  destruct (pass_spec (pos a w [] v) a v Hfirst w [] t) as [H _].
  specialize (H Hm). rewrite app_nil_r in H. rewrite buf_join. exact H.
Qed.

(** A pass that has no room grows the buffer and starts again, one byte
    further unless the header has widened. *)
Lemma restart_grow a w v res :
  Go.Index (a ++ nh) nh = Z.of_nat (length a) ->
  (runLen w < length (digits chars t))%nat ->
  let wd := ZERO :: take (length w - runLen w) w
                 ++ drop (length (digits chars t) - runLen w) (digits chars t) in
  let k := if decide (widens (size a w v)) then length w else S (length w) in
  rendersTo cfg t (buf a (take k wd) [] (drop k wd ++ v))
            (pos a (take k wd) [] (drop k wd ++ v))
            (pos a (take k wd) [] (drop k wd ++ v)) t res ->
  rendersTo cfg t (buf a w [] v) (pos a w [] v) (pos a w [] v) t res.
Proof.
  intros Hfirst Hq wd k Hres.
  destruct (pass_spec (pos a w [] v) a v Hfirst w [] t) as [_ H].
  apply (H Hq). clear H. rewrite app_nil_r.
  pose proof (runLen_le w) as Hrl.
  assert (Hwd : length wd = S (length w)).
  { unfold wd. cbn [length]. rewrite length_app, length_take, length_drop. lia. }
  assert (Hk : (k <= length wd)%nat) by (unfold k; destruct (decide _); lia).
  assert (Hbuf : buf a (ZERO :: take (length w - runLen w) w)
                     (drop (length (digits chars t) - runLen w) (digits chars t)) v
                 = buf a (take k wd) [] (drop k wd ++ v)).
  { unfold buf. do 3 f_equal. cbn [app].
    rewrite (app_assoc (take k wd)), take_drop. unfold wd. cbn [app].
    rewrite <- app_assoc. reflexivity. }
  assert (Hpos : pos a w [] v + 1 = pos a (take k wd) [] (drop k wd ++ v)).
  { unfold pos.
    replace (length (a ++ nh ++ take k wd ++ [] ++ drop k wd ++ v))
      with (S (size a w v)).
    2:{ rewrite size_eq, !length_app, length_take, length_drop. cbn [length]. lia. }
    rewrite length_hdr_succ. fold (size a w v). fold (widens (size a w v)).
    rewrite length_take. unfold k.
    destruct (decide (widens (size a w v))); lia. }
  rewrite Hbuf, Hpos. exact Hres.
Qed.

(** [restarts a w v]: from the head of [writeNonce], with the cursor on
    the last byte of [w], the block ends, and leaves [nonceIdx] on the line of
    the field. *)
Let restarts (a w v : bytes) : Prop :=
  exists res,
    rendersTo cfg t (buf a w [] v) (pos a w [] v) (pos a w [] v) t res /\
    located cfg res.1 res.2.

Lemma restarts_done a w v :
  Go.Index (a ++ nh) nh = Z.of_nat (length a) ->
  (length (digits chars t) <= runLen w)%nat -> restarts a w v.
Proof.
  intros Hfirst Hm. eexists. split; [apply restart_done; assumption |].
  cbn [fst snd]. pose proof (runLen_le w).
  rewrite (pos_same a w (take (length w - length (digits chars t)) w ++ digits chars t) v v).
  - apply located_buf. exact Hfirst.
  - rewrite length_app, length_take. lia.
  - reflexivity.
Qed.

Lemma restarts_grow a w v :
  Go.Index (a ++ nh) nh = Z.of_nat (length a) ->
  (runLen w < length (digits chars t))%nat ->
  let wd := ZERO :: take (length w - runLen w) w
                 ++ drop (length (digits chars t) - runLen w) (digits chars t) in
  let k := if decide (widens (size a w v)) then length w else S (length w) in
  restarts a (take k wd) (drop k wd ++ v) -> restarts a w v.
Proof.
  intros Hfirst Hq wd k (res & Hres & Hloc). exists res. split; [| exact Hloc].
  apply restart_grow; assumption.
Qed.



(** *** Whatever the fuel, the cursor stays on the line of the field *)

Lemma grow_cursor a w v :
  let wd := ZERO :: w in
  let k := if decide (widens (size a w v)) then length w else S (length w) in
  buf a wd [] v = buf a (take k wd) [] (drop k wd ++ v) /\
  pos a w [] v + 1 = pos a (take k wd) [] (drop k wd ++ v).
Proof.
  intros wd k.
  assert (Hk : (k <= length wd)%nat)
    by (unfold k, wd; cbn [length]; destruct (decide _); lia).
  split.
  - unfold buf. do 3 f_equal. cbn [app].
    rewrite (app_assoc (take k wd)), take_drop. reflexivity.
  - unfold pos.
    replace (length (a ++ nh ++ take k wd ++ [] ++ drop k wd ++ v))
      with (S (size a w v)).
    2:{ rewrite size_eq, !length_app, length_take, length_drop.
        unfold wd. cbn [length]. lia. }
    rewrite length_hdr_succ. fold (size a w v). fold (widens (size a w v)).
    rewrite length_take. unfold k, wd. cbn [length].
    destruct (decide (widens (size a w v))); lia.
Qed.

Lemma writeNonce_cursor (fuel : nat) :
  forall obj nonceIdx i x res a w d v,
    Go.Index (a ++ nh) nh = Z.of_nat (length a) ->
    obj = buf a w d v -> i = pos a w d v -> nonceIdx = pos a (w ++ d) [] v ->
    writeNonce fuel cfg t obj nonceIdx i x = Ret res ->
    located cfg res.1 res.2.
Proof.
  induction fuel as [|fuel IH]; intros obj nonceIdx i x res a w d v Hfirst -> -> -> H;
    [discriminate |].
  cbn [writeNonce] in H.
  destruct (0 <? x) eqn:Hx.
  2:{ injection H as <-. cbn [fst snd]. rewrite <- buf_join.
      apply located_buf. exact Hfirst. }
  assert (Hgrow : forall y z,
            writeNonce fuel cfg t (buf a (ZERO :: w) d v)
              (pos a (w ++ d) [] v + 1) y z = Ret res ->
            y = pos a (w ++ d) [] v + 1 ->
            located cfg res.1 res.2).
  { intros y z Hr ->.
    destruct (grow_cursor a (w ++ d) v) as [Hb Hp]. cbv zeta in Hb, Hp.
    rewrite <- buf_join in Hr.
    change ((ZERO :: w) ++ d) with (ZERO :: w ++ d) in Hr.
    rewrite Hb, Hp in Hr.
    eapply IH; [exact Hfirst | reflexivity | reflexivity | | exact Hr].
    rewrite app_nil_r. reflexivity. }
  destruct (exists_last_or_nil w) as [-> | (w' & ch & ->)].
  - rewrite at_cursor_nil, bool_decide_eq_true_2 in H by reflexivity.
    rewrite grow_buf in H by exact Hfirst. eapply Hgrow; [exact H | reflexivity].
  - rewrite at_cursor_snoc in H.
    destruct (bool_decide (ch = SP)) eqn:Hch.
    + rewrite grow_buf in H by exact Hfirst. eapply Hgrow; [exact H | reflexivity].
    + destruct (Go.len (nonceChars cfg) =? 0); [discriminate |].
      destruct (Go.at_ (nonceChars cfg) _) as [dg|]; [| discriminate].
      destruct (set_cursor a w' ch dg d v) as [Hset Hpos].
      rewrite Hset, Hpos in H.
      eapply IH; [exact Hfirst | reflexivity | reflexivity | | exact H].
      apply pos_same; [| reflexivity].
      rewrite <- !app_assoc, !length_app. reflexivity.
Qed.

(** *** The block ends *)

Section Terminates.

Variable a : bytes.
Hypothesis first : Go.Index (a ++ nh) nh = Z.of_nat (length a).

Lemma not_widens_twice (n : nat) : widens n -> ~ widens (S n).
Proof.
  unfold widens. intros H H'. rewrite itoa_length_succ in H'.
  rewrite decide_True in H' by exact H. rewrite Nat.pow_succ_r' in H'. lia.
Qed.

(** What is missing for the digits of [t] to fit before the cursor,
    counted so that it goes down with every [growNonce]: a pass that does not
    widen the header gains a byte, and the header does not widen twice in a
    row. *)
Let missing (w v : bytes) : nat :=
  if decide (length (digits chars t) <= length w)%nat then 0%nat
  else (2 * (length (digits chars t) - length w)
        + (if decide (widens (size a w v)) then 1 else 0))%nat.

(** How far the header is from widening. *)
Let slack (w v : bytes) : nat :=
  (10 ^ length (Go.itoa (size a w v)) - S (size a w v))%nat.

(** The block labelled [writeNonce] ends, wherever the cursor starts on the
    line of the field.  A pass that stops at a space grows the buffer; the
    cursor keeps its distance to that space until the header widens, which
    moves it one byte to the left, towards the space and then past it; and
    the spaces a pass writes itself lie to the right of the one it stops
    at. *)
Lemma restarts_measure (f : nat) : forall psi omega w v,
  missing w v = f -> fromSpace w = psi -> slack w v = omega ->
  restarts a w v.
Proof.
  induction f as [f IHf] using lt_wf_ind. intros psi.
  induction psi as [psi IHp] using lt_wf_ind. intros omega.
  induction omega as [omega IHo] using lt_wf_ind.
  intros w v Hf Hpsi Homega.
  destruct (decide (length (digits chars t) <= runLen w)%nat) as [Hm|Hm].
  { apply restarts_done; [exact first | exact Hm]. }
  apply restarts_grow; [exact first | lia |]. cbv zeta.
  destruct (run_decomp w) as (pre & run & Hw & Hrun & Hlen & Hpre).
  set (q := runLen w) in *.
  set (digs := drop (length (digits chars t) - q) (digits chars t)).
  assert (Hdl : length digs = q) by (unfold digs; rewrite length_drop; lia).
  assert (Hlw : length w = (length pre + q)%nat) by (rewrite Hw, length_app; lia).
  replace (take (length w - q) w) with pre.
  2:{ rewrite Hw at 2. rewrite take_app_length'; [reflexivity | lia]. }
  set (wd := ZERO :: pre ++ digs).
  assert (Hwdl : length wd = S (length w)).
  { unfold wd. cbn [length]. rewrite length_app. lia. }
  (* the size, and with it the width of the header, after the grow *)
  assert (Hsize : forall k, (k <= length wd)%nat ->
            size a (take k wd) (drop k wd ++ v) = S (size a w v)).
  { intros k Hk. rewrite !size_eq, length_app, length_take, length_drop. lia. }
  destruct (itoa_length (size a w v)) as (_ & Hlt & _).
  destruct (decide (widens (size a w v))) as [Hwd|Hwd].
  - (* the header widens: the cursor does not follow the content *)
    assert (Hnw : ~ widens (size a (take (length w) wd) (drop (length w) wd ++ v))).
    { rewrite Hsize by lia. apply not_widens_twice. exact Hwd. }
    assert (Hl' : length (take (length w) wd) = length w)
      by (rewrite length_take; lia).
    destruct (decide (length (digits chars t) <= length w)%nat) as [Hfit|Hfit].
    + (* enough bytes, but a space among them: the count goes down *)
      destruct Hpre as [-> | [p ->]].
      { cbn [app length] in *. lia. }
      destruct (fromSpace_blocked p run digs) as [Hps Hpos];
        [rewrite Hdl; symmetry; exact Hlen |].
      fold wd in Hps. rewrite <- Hw, Hpsi in Hps, Hpos.
      destruct (exists_last (l := wd)) as (wi & c & Hwi).
      { unfold wd. discriminate. }
      assert (Hwil : length wi = length w).
      { rewrite Hwi, length_app in Hwdl. cbn [length] in Hwdl. lia. }
      rewrite Hwi in Hps. rewrite Hwi, take_app_length' by (symmetry; exact Hwil).
      eapply (IHp (fromSpace wi)); [| | reflexivity | reflexivity].
      * rewrite (fromSpace_init wi c). lia.
      * rewrite <- Hf. unfold missing. rewrite Hwil.
        repeat destruct (decide _); lia.
    + (* not enough bytes yet *)
      eapply (IHf (missing (take (length w) wd) (drop (length w) wd ++ v)));
        [| reflexivity | reflexivity | reflexivity].
      rewrite <- Hf. unfold missing. rewrite Hl'.
      repeat destruct (decide _); try lia; contradiction.
  - (* the header keeps its width: the same layout, one byte longer *)
    rewrite <- Hwdl, firstn_all, drop_all, app_nil_l.
    specialize (Hsize (length wd) (Nat.le_refl _)).
    rewrite firstn_all, drop_all, app_nil_l in Hsize.
    destruct (decide (length (digits chars t) <= length w)%nat) as [Hfit|Hfit].
    + destruct Hpre as [-> | [p ->]].
      { cbn [app length] in *. lia. }
      eapply (IHo (slack wd v)); [| | | reflexivity].
      * rewrite <- Homega. unfold slack. rewrite Hsize, itoa_length_succ.
        rewrite decide_False by exact Hwd. unfold widens in Hwd. lia.
      * rewrite <- Hf. unfold missing. rewrite Hwdl.
        repeat destruct (decide _); lia.
      * destruct (fromSpace_blocked p run digs) as [Hps _];
          [rewrite Hdl; symmetry; exact Hlen |].
        fold wd in Hps. rewrite <- Hw, Hpsi in Hps. exact Hps.
    + eapply (IHf (missing wd v)); [| reflexivity | reflexivity | reflexivity].
      rewrite <- Hf. unfold missing. rewrite Hwdl.
      repeat destruct (decide _); try lia; contradiction.
Qed.

Lemma restarts_all (w v : bytes) : restarts a w v.
Proof. eapply restarts_measure; reflexivity. Qed.

End Terminates.

End Pass.

(** ** The field stays located *)

Lemma located_framed cfg obj idx : located cfg obj idx -> exists c, obj = frame c.
Proof. intros (a & w & v & Hobj & _). eexists. exact Hobj. Qed.

Lemma located_wellFramed cfg obj idx : located cfg obj idx -> wellFramed obj.
Proof. intros H. destruct (located_framed _ _ _ H) as [c ->]. apply wellFramed_frame. Qed.

(** Whatever the fuel, what [writeNonce] returns is a framed buffer with
    [nonceIdx] on the line of the field. *)
Lemma writeNonce_located cfg t fuel obj idx res :
  located cfg obj idx ->
  writeNonce fuel cfg t obj idx idx t = Ret res ->
  located cfg res.1 res.2.
Proof.
  intros (a & w & v & Hobj & Hfirst & Hidx) H.
  eapply (writeNonce_cursor cfg t fuel obj idx idx t res a w [] v);
    [exact Hfirst | exact Hobj | exact Hidx | | exact H].
  rewrite app_nil_r. exact Hidx.
Qed.

Lemma Index_split (s sep : bytes) (n : nat) :
  Go.Index s sep = Z.of_nat n ->
  s = take n s ++ sep ++ drop (n + length sep) s.
Proof.
  intros H.
  destruct (Index_spec s sep) as [[He _] | (n' & He & [Hn [k Hk]] & _)]; [lia |].
  assert (n' = n) by lia. subst n'.
  rewrite <- (take_drop n s) at 1. f_equal.
  rewrite Hk. f_equal. rewrite <- drop_drop, Hk, drop_app_length. reflexivity.
Qed.

Lemma scanLine_app (u : bytes) : forall (rest : bytes) (i : Z),
  LF ∉ u -> scanLine (u ++ rest) i = scanLine rest (i + Go.len u).
Proof.
  unfold Go.len. induction u as [|c u IH]; intros rest i Hu; cbn [app scanLine].
  - f_equal. cbn. lia.
  - apply not_elem_of_cons in Hu as [Hc Hu].
    rewrite bool_decide_eq_false_2 by congruence.
    rewrite IH by exact Hu. f_equal. cbn [length]. lia.
Qed.

Lemma scanLine_Some (rest : bytes) : forall (i j : Z),
  scanLine rest i = Some j ->
  exists u v, rest = u ++ LF :: v /\ (LF ∉ u) /\ j = i + Go.len u.
Proof.
  unfold Go.len. induction rest as [|c rest IH]; intros i j H; [discriminate |].
  cbn [scanLine] in H. destruct (decide (c = LF)) as [->|Hc].
  - rewrite bool_decide_eq_true_2 in H by reflexivity. injection H as <-.
    exists [], rest. repeat split; [apply not_elem_of_nil | cbn; lia].
  - rewrite bool_decide_eq_false_2 in H by exact Hc.
    destruct (IH _ _ H) as (u & v & -> & Hu & ->).
    exists (c :: u), v. repeat split.
    + apply not_elem_of_cons. split; [congruence | exact Hu].
    + cbn [length]. lia.
Qed.

(** What [addOrFindNonce] returns on a framed buffer is located. *)
Lemma addOrFindNonce_located cfg c obj idx :
  LF ∉ nonceName cfg ->
  addOrFindNonce cfg (frame c) = Some (obj, idx) ->
  located cfg obj idx.
Proof.
  intros Hname H.
  destruct (Index_spec c (nonceHeader cfg)) as [[Habs _] | (n & Hn & _)].
  - (* the field is put in *)
    destruct (Index_spec c [LF; LF]) as [[Hno _] | (k & Hk & _)].
    + exfalso. unfold addOrFindNonce in H.
      rewrite (proj2 (Contains_false (frame c) (nonceHeader cfg))) in H
        by (rewrite nonceHeader_cons, Index_frame, <- nonceHeader_cons, Habs;
            reflexivity).
      cbn [negb] in H. rewrite Index_frame, Hno in H. cbn in H. discriminate.
    + pose proof (Index_split c [LF; LF] k Hk) as Hc. cbn [app length] in Hc.
      set (x := take k c) in *. set (y := drop (k + 2) c) in *.
      assert (Hkx : k = length x).
      { apply (f_equal length) in Hc. unfold x in *.
        rewrite length_app, length_take in Hc. cbn [length] in Hc.
        rewrite length_take. lia. }
      clearbody x y. subst c k.
      destruct (addOrFindNonce_fresh cfg x y Hname Habs Hk) as [Hfirst Hadd].
      rewrite Hadd in H. apply (inj Some) in H.
      apply pair_equal_spec in H as [<- <-].
      exists x, [], (LF :: LF :: y). split; [reflexivity |].
      split; [apply (firstHeader_inv cfg x (LF :: LF :: y)); exact Hfirst |].
      rewrite !app_nil_l. change (length (@nil byte)) with 0%nat. lia.
  - (* the field is there *)
    pose proof (Index_split c (nonceHeader cfg) n Hn) as Hc.
    set (a := take n c) in *. set (V := drop (n + length (nonceHeader cfg)) c) in *.
    assert (Hna : n = length a).
    { apply (f_equal length) in Hc. unfold a, V in *.
      rewrite !length_app, length_take, length_drop, length_nonceHeader in Hc.
      rewrite length_take. lia. }
    clearbody a V. subst n c.
    set (c := a ++ nonceHeader cfg ++ V) in *.
    unfold addOrFindNonce in H.
    pose proof (Index_frame c (nonceName cfg ++ [SP])) as Hi.
    change (LF :: nonceName cfg ++ [SP]) with (nonceHeader cfg) in Hi.
    rewrite Hn in Hi.
    replace (Z.of_nat (length a) =? -1) with false in Hi
      by (symmetry; apply Z.eqb_neq; lia).
    assert (Hcont : Go.Contains (frame c) (nonceHeader cfg) = true).
    { apply not_false_iff_true. rewrite Contains_false, Hi. unfold Go.len. lia. }
    rewrite Hcont in H. cbn [negb mbind option_bind] in H.
    rewrite Hi in H. unfold Go.len in H. rewrite <- Nat2Z.inj_add in H.
    set (k := (length (hdr (length c)) + length a)%nat) in *.
    assert (Hsplit : frame c = (hdr (length c) ++ a ++ [LF])
                               ++ (nonceName cfg ++ [SP]) ++ V).
    { unfold frame, c at 2, nonceHeader. rewrite <- !app_assoc. reflexivity. }
    assert (Hk : length (hdr (length c) ++ a ++ [LF]) = S k).
    { unfold k. rewrite !length_app. cbn. lia. }
    replace (Z.of_nat k + 1) with (Z.of_nat (S k)) in H by lia.
    rewrite slice_from_nat in H by (rewrite Hsplit, length_app; lia).
    cbn [mbind option_bind] in H.
    rewrite Hsplit in H at 1. rewrite <- Hk, drop_app_length in H.
    rewrite scanLine_app in H.
    2:{ intros E. apply elem_of_app in E as [E | E]; [auto |].
        apply list_elem_of_singleton in E. discriminate. }
    destruct (scanLine V _) as [j|] eqn:Hscan; [| discriminate].
    cbn [mbind option_bind] in H. apply (inj Some) in H.
    apply pair_equal_spec in H as [<- <-].
    apply scanLine_Some in Hscan as (val & B & HV & Hval & ->).
    exists a, val, (LF :: B). split; [unfold c; rewrite HV; reflexivity |].
    split; [apply (firstHeader_inv cfg a V); exact Hn |].
    rewrite app_nil_l, <- HV. fold c. unfold Go.len, k.
    rewrite !length_app, length_nonceHeader. cbn [length]. lia.
Qed.

(** C7.  With an alphabet of at least two characters, and a field name
    without a newline, the field [addOrFindNonce] returns is located, and for
    every candidate [t] and every buffer whose field is located the block
    [writeNonce], with all its grow-and-restart turns, ends: enough fuel gives
    a result, and no panic; the result is again a buffer whose field is
    located, so the next candidate finds the same situation. *)
Theorem writeNonce_terminates cfg :
  2 <= Go.len (nonceChars cfg) ->
  LF ∉ nonceName cfg ->
  (forall c obj idx,
     addOrFindNonce cfg (frame c) = Some (obj, idx) -> located cfg obj idx) /\
  (forall t obj idx,
     located cfg obj idx ->
     exists fuel obj' idx',
       writeNonce fuel cfg t obj idx idx t = Ret (obj', idx') /\
       located cfg obj' idx').
Proof.
  intros Hradix Hname. split.
  - intros c obj idx. apply addOrFindNonce_located. exact Hname.
  - intros t obj idx (a & w & v & -> & Hfirst & ->).
    destruct (restarts_all cfg t Hradix a Hfirst w v) as ([obj' idx'] & [fuel Hr] & Hloc).
    exists fuel, obj', idx'. split; [exact Hr | exact Hloc].
Qed.

Lemma defaultConfig_radix : 2 <= Go.len (nonceChars defaultConfig).
Proof. vm_compute. discriminate. Defined.

Lemma writeNonce_terminates_witness :
  exists obj idx fuel obj' idx',
    addOrFindNonce defaultConfig (frame sampleCommit) = Some (obj, idx) /\
    writeNonce fuel defaultConfig 2014 obj idx idx 2014 = Ret (obj', idx').
Proof.
  destruct (writeNonce_terminates defaultConfig defaultConfig_radix defaultConfig_name)
    as [Hloc Hterm].
  destruct (addOrFindNonce defaultConfig (frame sampleCommit))
    as [[obj idx]|] eqn:Hadd; [| vm_compute in Hadd; discriminate].
  destruct (Hterm 2014 obj idx (Hloc sampleCommit obj idx Hadd))
    as (fuel & obj' & idx' & Hr & _).
  exists obj, idx, fuel, obj', idx'. split; [reflexivity | exact Hr].
Defined.

(** ** Rendering a candidate and reading it back *)

Lemma itoa_length_mono (n n' : nat) :
  (n <= n')%nat -> (length (Go.itoa n) <= length (Go.itoa n'))%nat.
Proof.
  induction 1 as [|n' _ IH]; [lia |].
  rewrite itoa_length_succ. destruct (decide _); lia.
Qed.

Lemma upToLF_app (u v : bytes) : LF ∉ u -> upToLF (u ++ LF :: v) = u.
Proof.
  induction u as [|c u IH]; intros H; cbn [app upToLF].
  - rewrite bool_decide_eq_true_2 by reflexivity. reflexivity.
  - apply not_elem_of_cons in H as [Hc Hu].
    rewrite bool_decide_eq_false_2 by congruence. f_equal. apply IH. exact Hu.
Qed.

Section Roundtrip.

Variable cfg : config.
Variable t : Z.
Hypothesis radix : 2 <= Go.len (nonceChars cfg).
Hypothesis nospace : SP ∉ nonceChars cfg.

Let nh := nonceHeader cfg.
Let chars := nonceChars cfg.
Let m := length (digits chars t).

(** From a value of [m - j] bytes without a space, [j] turns of growing
    that leave the width of the header alone end with the digits of [t] as
    the value, and [nonceIdx] moved [j] bytes on. *)
Lemma render_grows (j : nat) : forall (a w v : bytes),
  Go.Index (a ++ nh) nh = Z.of_nat (length a) ->
  SP ∉ w -> (length w + j = m)%nat ->
  length (Go.itoa (length (a ++ nh ++ w ++ [] ++ v) + j))
    = length (Go.itoa (length (a ++ nh ++ w ++ [] ++ v))) ->
  let idx := Z.of_nat (length (hdr (length (a ++ nh ++ w ++ [] ++ v)))
                       + length a + length nh + length w) - 1 in
  rendersTo cfg t (frame (a ++ nh ++ w ++ [] ++ v)) idx idx t
    (frame (a ++ nh ++ digits chars t ++ [] ++ v), idx + Z.of_nat j).
Proof.
  induction j as [|j IH]; intros a w v Hfirst Hw Hlen Hwide idx.
  - assert (Hrun : runLen w = length w)
      by (rewrite <- (app_nil_l w) at 1; rewrite runLen_app by exact Hw; reflexivity).
    pose proof (restart_done cfg t radix a w v Hfirst) as Hd.
    fold chars m in Hd. rewrite <- Hlen, Nat.add_0_r, Nat.sub_diag, take_0 in Hd.
    rewrite Z.add_0_r. apply Hd. lia.
  - assert (Hrun : runLen w = length w)
      by (rewrite <- (app_nil_l w) at 1; rewrite runLen_app by exact Hw; reflexivity).
    set (n := length (a ++ nh ++ w ++ [] ++ v)) in *.
    assert (Hmono1 := itoa_length_mono n (S n) ltac:(lia)).
    assert (Hmono2 := itoa_length_mono (S n) (n + S j) ltac:(lia)).
    assert (Hnw : S n <> (10 ^ length (Go.itoa n))%nat).
    { intros E. pose proof (itoa_length_succ n) as Hs.
      rewrite decide_True in Hs by exact E. lia. }
    apply (restart_grow cfg t radix a w v _ Hfirst); [fold chars m; lia |].
    cbv zeta. fold chars m nh n. rewrite decide_False by exact Hnw.
    rewrite Hrun, Nat.sub_diag, take_0, app_nil_l.
    set (digs := drop (m - length w) (digits chars t)).
    assert (Hdl : length digs = length w) by (unfold digs, m; rewrite length_drop; lia).
    replace (S (length w)) with (length (ZERO :: digs)) by (cbn [length]; lia).
    rewrite firstn_all, drop_all, app_nil_l.
    assert (Hsize : length (a ++ nh ++ (ZERO :: digs) ++ [] ++ v) = S n).
    { unfold n. rewrite !length_app. cbn [length]. lia. }
    pose proof (IH a (ZERO :: digs) v Hfirst) as IH'.
    cbv zeta in IH'. rewrite Hsize in IH'.
    assert (Hhdr : length (hdr (S n)) = length (hdr n)).
    { rewrite length_hdr_succ, decide_False by exact Hnw. reflexivity. }
    rewrite Hhdr in *.
    replace (idx + Z.of_nat (S j))
      with (Z.of_nat (length (hdr n) + length a + length nh
                      + length (ZERO :: digs)) - 1 + Z.of_nat j)
      by (unfold idx; cbn [length]; lia).
    rewrite Hsize, Hhdr. apply IH'.
    + apply not_elem_of_cons. split; [discriminate |].
      intros H. apply (subseteq_drop _ _) in H.
      pose proof (digits_in chars radix t) as Hin. rewrite Forall_forall in Hin.
      apply Hin in H. exact (nospace H).
    + cbn [length]. lia.
    + replace (S n + j)%nat with (n + S j)%nat by lia. lia.
Qed.

End Roundtrip.

(** C2, as the code has it.  Take an alphabet of at least two distinct
    characters, none of them a space or a newline, a candidate [t >= 1], and
    a buffer whose [nonceIdx] is on the last byte of the value of the field
    (or on the space before it, when the value is empty).  If the value has no
    space and is not longer than [t] has digits, and the turns of growing it
    takes to make room leave the decimal length in the header at its width,
    then the block [writeNonce] ends with exactly the digits of [t] as the
    value of the field: reading them back with the alphabet gives [t], no
    byte of an earlier value is left, and [nonceIdx] is on the last digit. *)
Theorem render_roundtrip cfg t obj idx (a val v : bytes) :
  1 <= t ->
  2 <= Go.len (nonceChars cfg) ->
  NoDup (nonceChars cfg) ->
  SP ∉ nonceChars cfg ->
  LF ∉ nonceChars cfg ->
  cursorAt cfg obj idx a val [] (LF :: v) ->
  SP ∉ val ->
  (length val <= length (digits (nonceChars cfg) t))%nat ->
  let j := (length (digits (nonceChars cfg) t) - length val)%nat in
  length (Go.itoa (length (content obj) + j))
    = length (Go.itoa (length (content obj))) ->
  exists fuel obj',
    writeNonce fuel cfg t obj idx idx t = Ret (obj', idx + Z.of_nat j) /\
    cursorAt cfg obj' (idx + Z.of_nat j) a (digits (nonceChars cfg) t) [] (LF :: v) /\
    fieldValue cfg obj' = Some (digits (nonceChars cfg) t) /\
    parseNonce (nonceChars cfg) (digits (nonceChars cfg) t) = Some t.
Proof.
  intros Ht Hradix Hnd Hsp Hlf (-> & Hfirst & ->) Hval Hlen j Hwide.
  rewrite content_frame in Hwide.
  destruct (render_grows cfg t Hradix Hsp j a val (LF :: v) Hfirst Hval ltac:(lia) Hwide)
    as [fuel Hr].
  cbv zeta in Hr. exists fuel. eexists. split; [exact Hr |].
  set (ds := digits (nonceChars cfg) t) in *.
  set (c' := a ++ nonceHeader cfg ++ ds ++ [] ++ LF :: v).
  assert (Hsize : length c' = (length (a ++ nonceHeader cfg ++ val ++ [] ++ LF :: v) + j)%nat).
  { unfold c', j. rewrite !length_app. fold ds. lia. }
  assert (Hhdr : length (hdr (length c'))
                 = length (hdr (length (a ++ nonceHeader cfg ++ val ++ [] ++ LF :: v)))).
  { rewrite !length_hdr, Hsize, Hwide. reflexivity. }
  split; [| split].
  - split; [reflexivity |]. split; [exact Hfirst |].
    fold c'. rewrite Hhdr. unfold j. fold ds. lia.
  - unfold fieldValue.
    pose proof (Index_frame c' (nonceName cfg ++ [SP])) as Hi.
    change (LF :: nonceName cfg ++ [SP]) with (nonceHeader cfg) in Hi.
    assert (Hci : Go.Index c' (nonceHeader cfg) = Z.of_nat (length a))
      by (unfold c'; apply firstHeader; exact Hfirst).
    rewrite Hci in Hi.
    replace (Z.of_nat (length a) =? -1) with false in Hi
      by (symmetry; apply Z.eqb_neq; lia).
    rewrite Hi. unfold Go.len.
    match goal with
    | |- context [?x <? 0] =>
        replace (x <? 0) with false by (symmetry; apply Z.ltb_ge; lia)
    end.
    f_equal. rewrite <- Nat2Z.inj_add, Nat2Z.id.
    replace (frame c') with ((hdr (length c') ++ a ++ nonceHeader cfg) ++ ds ++ LF :: v)
      by (unfold frame, c'; rewrite <- !app_assoc; reflexivity).
    rewrite drop_app_length' by (rewrite !length_app; lia).
    apply upToLF_app. intros H.
    pose proof (digits_in (nonceChars cfg) Hradix t) as Hin.
    rewrite Forall_forall in Hin. apply Hin in H. exact (Hlf H).
  - apply parseNonce_digits; [exact Hradix | exact Hnd | lia].
Qed.

Lemma defaultConfig_chars :
  NoDup (nonceChars defaultConfig) /\
  (SP ∉ nonceChars defaultConfig) /\ (LF ∉ nonceChars defaultConfig).
Proof. repeat split; apply (bool_decide_unpack _); vm_compute; exact I. Defined.

Lemma render_roundtrip_witness :
  exists fuel obj',
    writeNonce fuel defaultConfig 48
      (frame (take 35 sampleCommit ++ nonceHeader defaultConfig
              ++ drop 35 sampleCommit)) 51 51 48 = Ret (obj', 53) /\
    fieldValue defaultConfig obj' = Some [x34; x38] /\
    parseNonce (nonceChars defaultConfig) [x34; x38] = Some 48.
Proof.
  destruct (render_roundtrip defaultConfig 48
              (frame (take 35 sampleCommit ++ nonceHeader defaultConfig
                      ++ drop 35 sampleCommit)) 51
              (take 35 sampleCommit) [] (drop 36 sampleCommit))
    as (fuel & obj' & Hr & _ & Hf & Hp).
  - lia.
  - exact defaultConfig_radix.
  - exact (proj1 defaultConfig_chars).
  - exact (proj1 (proj2 defaultConfig_chars)).
  - exact (proj2 (proj2 defaultConfig_chars)).
  - repeat split; vm_compute; reflexivity.
  - apply not_elem_of_nil.
  - vm_compute. lia.
  - vm_compute. reflexivity.
  - exists fuel, obj'. split; [exact Hr |]. split; [exact Hf | exact Hp].
Defined.

(** C2, as it is worded, fails on a field that is already there with a
    longer value: on the commit that carries [nonce 987] the candidate 1 is
    rendered as [981], which reads back as 981. *)
Lemma render_keeps_old_digits :
  exists obj idx obj' idx',
    addOrFindNonce defaultConfig (fixHeader staleCommit) = Some (obj, idx) /\
    writeNonce 8 defaultConfig 1 obj idx idx 1 = Ret (obj', idx') /\
    fieldValue defaultConfig obj' = Some [x39; x38; x31] /\
    parseNonce (nonceChars defaultConfig) [x39; x38; x31] = Some 981.
Proof. do 4 eexists. repeat split; vm_compute; reflexivity. Qed.

(** The condition of [render_roundtrip] on [nonceIdx] cannot be left out.
    On the commit of 90 bytes the candidate 99 leaves [99] and a content of 99
    bytes; the candidate 100 makes the buffer grow, the header gets a digit
    more, and [nonceIdx] ends up on the last byte but one of the value, which
    reads [1000].  From then on the last byte is out of reach: 999 leaves
    [9990], and 1000, for which the value has no space, is as long as the
    candidate has digits, and the header keeps its width, is rendered as
    [10000]. *)
Lemma render_after_widening :
  exists obj idx o1 i1 o2 i2 o3 i3 o4 i4,
    addOrFindNonce defaultConfig (fixHeader wideCommit) = Some (obj, idx) /\
    writeNonce 50 defaultConfig 99 obj idx idx 99 = Ret (o1, i1) /\
    fieldValue defaultConfig o1 = Some [x39; x39] /\
    length (content o1) = 99%nat /\
    writeNonce 50 defaultConfig 100 o1 i1 i1 100 = Ret (o2, i2) /\
    fieldValue defaultConfig o2 = Some [x31; x30; x30; x30] /\
    length (content o2) = 101%nat /\
    Go.at_ o2 (i2 + 1) = Some x30 /\ Go.at_ o2 (i2 + 2) = Some LF /\
    writeNonce 50 defaultConfig 999 o2 i2 i2 999 = Ret (o3, i3) /\
    fieldValue defaultConfig o3 = Some [x39; x39; x39; x30] /\
    length (content o3) = 101%nat /\
    length (digits (nonceChars defaultConfig) 1000) = 4%nat /\
    writeNonce 50 defaultConfig 1000 o3 i3 i3 1000 = Ret (o4, i4) /\
    fieldValue defaultConfig o4 = Some [x31; x30; x30; x30; x30] /\
    length (content o4) = 102%nat /\
    parseNonce (nonceChars defaultConfig) [x31; x30; x30; x30; x30] = Some 10000.
Proof.
  do 10 eexists.
  repeat (split; [vm_compute; reflexivity |]).
  vm_compute. reflexivity.
Qed.

(** ** [growNonce] when the header widens *)

(** C5 at a content of 99 bytes.  The last digit of the field is at offset
    52; [growNonce] makes the content 100 bytes and the header one byte longer,
    so that digit is at offset 54 afterwards, two further and not one, and
    [nonceIdx + 1] is the offset of the byte put in.  The candidate 10 then
    ends up as [100], with [nonceIdx] on the middle digit. *)
Theorem growNonce_header_widens :
  exists obj obj' obj'',
    addOrFindNonce defaultConfig (fixHeader longCommit) = Some (obj, 52) /\
    Go.at_ obj 52 = Some x39 /\ Go.at_ obj 53 = Some LF /\
    growNonce defaultConfig obj = Some obj' /\
    Go.len obj' = Go.len obj + 2 /\
    content obj' = take 42 (content obj) ++ [ZERO] ++ drop 42 (content obj) /\
    Go.at_ obj' 53 = Some ZERO /\ Go.at_ obj' 54 = Some x39 /\
    Go.at_ obj' 55 = Some LF /\
    addOrFindNonce defaultConfig obj' = Some (obj', 54) /\
    writeNonce 20 defaultConfig 10 obj 52 52 10 = Ret (obj'', 54) /\
    fieldValue defaultConfig obj'' = Some [x31; x30; x30] /\
    Go.at_ obj'' 55 = Some ZERO /\ Go.at_ obj'' 56 = Some LF.
Proof. do 3 eexists. repeat split; vm_compute; reflexivity. Qed.

(** ** The pool *)

(** What an iteration of the worker ends in, in terms of the buffer the
    block [writeNonce] leaves and of its digest. *)
Lemma tryNonce_Ret fuel cfg w t v :
  slen (w_hexBuf w) = 0%nat -> cap (w_hexBuf w) = (2 * SHA1.Size)%nat ->
  tryNonce fuel cfg w t = Ret v ->
  exists obj idx hexBuf',
    writeNonce fuel cfg t (w_obj w) (w_nonceIdx w) (w_nonceIdx w) t = Ret (obj, idx) /\
    slen hexBuf' = 0%nat /\ cap hexBuf' = (2 * SHA1.Size)%nat /\
    v = if Re.Match (pattern cfg) (encodeHex (SHA1.sum obj))
        then Publish obj else Continue (Worker obj idx hexBuf').
Proof.
  intros Hlen Hcap H. unfold tryNonce in H.
  destruct (writeNonce fuel cfg t _ _ _ t) as [[obj idx]| |]; [| discriminate..].
  destruct (testDigest_spec cfg obj (w_hexBuf w) Hlen Hcap)
    as (_ & _ & hexBuf' & Ht & Hl' & Hc').
  rewrite Ht in H. exists obj, idx, hexBuf'.
  split; [reflexivity |]. split; [exact Hl' |]. split; [exact Hc' |].
  destruct (Re.Match _ _); congruence.
Qed.

(** A property of the goroutines that the steps of each of them keep holds
    in every state of every schedule. *)
Lemma reachable_inv cfg raw (W : wstate -> Prop) (M : mstate -> Prop) :
  W (Starting (fixHeader raw)) -> W Exited -> M Waiting ->
  (forall obj w, W (Starting obj) -> startWorker cfg obj = Some w -> W (Ranging w)) ->
  (forall w t fuel w',
     W (Ranging w) -> tryNonce fuel cfg w t = Ret (Continue w') -> W (Ranging w')) ->
  (forall w t fuel obj,
     W (Ranging w) -> tryNonce fuel cfg w t = Ret (Publish obj) -> W (Sending obj)) ->
  (forall obj, W (Sending obj) -> M (Received obj)) ->
  (forall w, M (Received w) -> M (Announced w)) ->
  forall p, reachable cfg raw p -> Forall W (p_workers p) /\ M (p_main p).
Proof.
  intros Hinit Hexit Hwait Hstart Hcont Hpub Hrecv Hann. unfold reachable.
  apply (rtc_ind_r (fun p => Forall W (p_workers p) /\ M (p_main p))).
  - split; [apply Forall_replicate; exact Hinit | exact Hwait].
  - intros p p' Hreach Hstep [IHw IHm].
    pose proof (fun i ws (H : p_workers p !! i = Some ws) =>
                  proj1 (Forall_lookup W (p_workers p)) IHw i ws H) as Hget.
    destruct Hstep as
      [p n Hc He Hq | p Hc He | p i obj w Hc Hi Hs | p i obj Hc Hi Hs
      | p i w t q Hc Hi Hq Hd | p i w t q fuel w' Hc Hi Hq Hd Ht
      | p i w t q fuel obj Hc Hi Hq Hd Ht | p i w t q fuel Hc Hi Hq Hd Ht
      | p i w Hc Hi Hq Hcl | p i obj Hc Hm Hi | p w Hc Hm];
      cbn [p_workers p_main setWorker setQueue crash].
    + split; [exact IHw | exact IHm].
    + split; [exact IHw | exact IHm].
    + split; [| exact IHm]. apply Forall_insert; [exact IHw |].
      exact (Hstart obj w (Hget _ _ Hi) Hs).
    + split; [exact IHw | exact IHm].
    + split; [| exact IHm]. apply Forall_insert; [exact IHw | exact Hexit].
    + split; [| exact IHm]. apply Forall_insert; [exact IHw |].
      exact (Hcont w t fuel w' (Hget _ _ Hi) Ht).
    + split; [| exact IHm]. apply Forall_insert; [exact IHw |].
      exact (Hpub w t fuel obj (Hget _ _ Hi) Ht).
    + split; [exact IHw | exact IHm].
    + split; [| exact IHm]. apply Forall_insert; [exact IHw | exact Hexit].
    + split; [apply Forall_insert; [exact IHw | exact Hexit] |].
      exact (Hrecv obj (Hget _ _ Hi)).
    + split; [exact IHw |]. apply Hann. rewrite <- Hm. exact IHm.
Qed.

(** The buffer [obj] passes the test of the pattern. *)
Lemma published_matches_aux cfg w t fuel obj :
  slen (w_hexBuf w) = 0%nat -> cap (w_hexBuf w) = (2 * SHA1.Size)%nat ->
  tryNonce fuel cfg w t = Ret (Publish obj) ->
  Re.Match (pattern cfg) (encodeHex (SHA1.sum obj)) = true.
Proof.
  intros Hlen Hcap H.
  destruct (tryNonce_Ret _ _ _ _ _ Hlen Hcap H) as (obj' & idx & hb & _ & _ & _ & Hv).
  destruct (Re.Match (pattern cfg) (encodeHex (SHA1.sum obj'))) eqn:E; [| discriminate].
  injection Hv as ->. exact E.
Qed.

(** C1.  In every state that any schedule of [explore], [main] and the
    workers reaches, whatever the number of workers, a buffer that a worker is
    sending on [winner], or that [main] has received from it, is one whose
    SHA-1, in lowercase hexadecimal, the pattern matches. *)
Theorem published_matches cfg raw p :
  reachable cfg raw p ->
  (forall i obj,
     p_workers p !! i = Some (Sending obj) ->
     Re.Match (pattern cfg) (encodeHex (SHA1.sum obj)) = true) /\
  (forall w,
     p_main p = Received w \/ p_main p = Announced w ->
     Re.Match (pattern cfg) (encodeHex (SHA1.sum w)) = true).
Proof.
  intros Hp.
  set (ok := fun obj => Re.Match (pattern cfg) (encodeHex (SHA1.sum obj)) = true).
  set (W := fun ws => match ws with
                      | Ranging w => slen (w_hexBuf w) = 0%nat /\
                                     cap (w_hexBuf w) = (2 * SHA1.Size)%nat
                      | Sending obj => ok obj
                      | _ => True
                      end).
  set (M := fun ms => match ms with
                      | Waiting => True
                      | Received w | Announced w => ok w
                      end).
  assert (H : Forall W (p_workers p) /\ M (p_main p)).
  { apply (reachable_inv cfg raw W M); [exact I | exact I | exact I | | | | | | exact Hp].
    - intros obj w _ Hs. unfold startWorker in Hs.
      destruct (addOrFindNonce cfg obj) as [[o i]|]; [| discriminate].
      apply (inj Some) in Hs. subst w. split; reflexivity.
    - intros w t fuel w' [Hl Hc] H.
      destruct (tryNonce_Ret _ _ _ _ _ Hl Hc H) as (o & i & hb & _ & Hl' & Hc' & Hv).
      destruct (Re.Match (pattern cfg) (encodeHex (SHA1.sum o))); [discriminate |].
      injection Hv as ->. split; assumption.
    - intros w t fuel obj [Hl Hc] H.
      exact (published_matches_aux cfg w t fuel obj Hl Hc H).
    - intros obj Hobj. exact Hobj.
    - intros w Hw. exact Hw. }
  destruct H as [Hw Hm]. split.
  - intros i obj Hi. exact (proj1 (Forall_lookup W _) Hw i _ Hi).
  - intros w [E | E]; rewrite E in Hm; exact Hm.
Qed.

Lemma published_matches_witness :
  let cfg := withPattern defaultConfig (ReCat ReBegin (ReLit x66)) in
  exists p w,
    reachable cfg sampleCommit p /\ p_main p = Received w /\
    Re.Match (pattern cfg) (encodeHex (SHA1.sum w)) = true.
Proof.
  intros cfg.
  assert (Hrun : exists p w, reachable cfg sampleCommit p /\ p_main p = Received w).
  { unfold reachable. eexists _, _. split.
    - eapply rtc_l.
      { eapply (step_start cfg _ 0%nat); [reflexivity | reflexivity |].
        vm_compute. reflexivity. }
      eapply rtc_l.
      { eapply (step_send cfg _ 0); [reflexivity | reflexivity |].
        vm_compute. lia. }
      eapply rtc_l.
      { eapply (step_match cfg _ 0%nat _ _ _ 8%nat);
          [reflexivity | reflexivity | reflexivity | reflexivity |].
        vm_compute. reflexivity. }
      eapply rtc_l.
      { eapply (step_receive cfg _ 0%nat); [reflexivity | reflexivity | reflexivity]. }
      apply rtc_refl.
    - reflexivity. }
  destruct Hrun as (p & w & Hreach & Hmain).
  exists p, w. split; [exact Hreach |]. split; [exact Hmain |].
  apply (proj2 (published_matches cfg sampleCommit p Hreach)). left. exact Hmain.
Defined.

(** What [fixHeader], and so [growNonce], returns is framed. *)
Lemma fixHeader_wellFramed (obj : bytes) : wellFramed (fixHeader obj).
Proof. rewrite fixHeader_framed. apply wellFramed_frame. Qed.

Lemma growNonce_wellFramed cfg obj obj' :
  growNonce cfg obj = Some obj' -> wellFramed obj'.
Proof.
  unfold growNonce. intros H.
  destruct (Go.slice_to obj _) as [before|]; [| discriminate].
  destruct (Go.slice_from obj _) as [after|]; [| discriminate].
  cbn [mbind option_bind] in H. apply (inj Some) in H. subst obj'.
  apply fixHeader_wellFramed.
Qed.

(** C6.  The length a header declares is the length of the content behind
    it: for the template [main] makes, for what [growNonce] and
    [addOrFindNonce] return, and, in every state of every schedule, for the
    buffer of each worker and for the buffer that the block [writeNonce] hands
    to the digest, whatever the candidate; so also for the winner. *)
Theorem hashed_buffers_framed cfg raw :
  LF ∉ nonceName cfg ->
  wellFramed (fixHeader raw) /\
  (forall obj obj', growNonce cfg obj = Some obj' -> wellFramed obj') /\
  (forall c obj idx,
     addOrFindNonce cfg (frame c) = Some (obj, idx) -> wellFramed obj) /\
  (forall p,
     reachable cfg raw p ->
     (forall i w,
        p_workers p !! i = Some (Ranging w) ->
        wellFramed (w_obj w) /\
        forall fuel t obj idx,
          writeNonce fuel cfg t (w_obj w) (w_nonceIdx w) (w_nonceIdx w) t
            = Ret (obj, idx) ->
          wellFramed obj) /\
     (forall i obj, p_workers p !! i = Some (Sending obj) -> wellFramed obj) /\
     (forall w, p_main p = Received w \/ p_main p = Announced w -> wellFramed w)).
Proof.
  intros Hname.
  split; [apply fixHeader_wellFramed |].
  split; [apply growNonce_wellFramed |].
  split.
  { intros c obj idx H. eapply located_wellFramed.
    eapply addOrFindNonce_located; eassumption. }
  intros p Hp.
  set (W := fun ws => match ws with
                      | Starting obj => exists c, obj = frame c
                      | Ranging w =>
                          located cfg (w_obj w) (w_nonceIdx w) /\
                          slen (w_hexBuf w) = 0%nat /\
                          cap (w_hexBuf w) = (2 * SHA1.Size)%nat
                      | Sending obj => wellFramed obj
                      | Exited => True
                      end).
  set (M := fun ms => match ms with
                      | Waiting => True
                      | Received w | Announced w => wellFramed w
                      end).
  assert (H : Forall W (p_workers p) /\ M (p_main p)).
  { apply (reachable_inv cfg raw W M); [| exact I | exact I | | | | | | exact Hp].
    - exists (content raw). apply fixHeader_framed.
    - intros obj w [c ->] Hs. unfold startWorker in Hs.
      destruct (addOrFindNonce cfg (frame c)) as [[o i]|] eqn:Hadd; [| discriminate].
      apply (inj Some) in Hs. subst w. cbn [w_obj w_nonceIdx w_hexBuf].
      split; [eapply addOrFindNonce_located; eassumption | split; reflexivity].
    - intros w t fuel w' (Hloc & Hl & Hc) H.
      destruct (tryNonce_Ret _ _ _ _ _ Hl Hc H) as (o & i & hb & Hr & Hl' & Hc' & Hv).
      destruct (Re.Match (pattern cfg) (encodeHex (SHA1.sum o))); [discriminate |].
      injection Hv as ->. cbn [w_obj w_nonceIdx w_hexBuf].
      split; [| split; assumption].
      exact (writeNonce_located cfg t fuel _ _ _ Hloc Hr).
    - intros w t fuel obj (Hloc & Hl & Hc) H.
      destruct (tryNonce_Ret _ _ _ _ _ Hl Hc H) as (o & i & hb & Hr & _ & _ & Hv).
      destruct (Re.Match (pattern cfg) (encodeHex (SHA1.sum o))); [| discriminate].
      injection Hv as ->.
      eapply located_wellFramed. exact (writeNonce_located cfg t fuel _ _ _ Hloc Hr).
    - intros obj Hobj. exact Hobj.
    - intros w Hw. exact Hw. }
  destruct H as [Hw Hm]. split; [| split].
  - intros i w Hi. destruct (proj1 (Forall_lookup W _) Hw i _ Hi) as (Hloc & _).
    split; [eapply located_wellFramed; exact Hloc |].
    intros fuel t obj idx Hr. eapply located_wellFramed.
    exact (writeNonce_located cfg t fuel _ _ _ Hloc Hr).
  - intros i obj Hi. exact (proj1 (Forall_lookup W _) Hw i _ Hi).
  - intros w [E | E]; rewrite E in Hm; exact Hm.
Qed.

Lemma hashed_buffers_framed_witness :
  wellFramed (fixHeader sampleCommit) /\
  declaredLength (fixHeader sampleCommit) = Some 41%nat.
Proof.
  split.
  - exact (proj1 (hashed_buffers_framed defaultConfig sampleCommit defaultConfig_name)).
  - reflexivity.
Defined.

(** ** When no candidate matches *)

Section Exhaustion.

Variable cfg : config.
Variable raw : bytes.
Hypothesis never : forall obj,
  Re.Match (pattern cfg) (encodeHex (SHA1.sum obj)) = false.
Hypothesis radix : 2 <= Go.len (nonceChars cfg).
Hypothesis name : LF ∉ nonceName cfg.
Hypothesis bits : 1 <= intSize cfg.
Hypothesis workers : (1 <= cpu cfg)%nat.
Variable w0 : worker.
Hypothesis template : startWorker cfg (fixHeader raw) = Some w0.

(** A worker between two candidates. *)
Let ready (w : worker) : Prop :=
  located cfg (w_obj w) (w_nonceIdx w) /\
  slen (w_hexBuf w) = 0%nat /\ cap (w_hexBuf w) = (2 * SHA1.Size)%nat.

Lemma ready_start : ready w0.
Proof.
  pose proof template as H. unfold startWorker in H.
  rewrite fixHeader_framed in H.
  destruct (addOrFindNonce cfg (frame (content raw))) as [[o i]|] eqn:Hadd;
    [| discriminate].
  apply (inj Some) in H. subst w0. cbn [w_obj w_nonceIdx w_hexBuf].
  split; [eapply addOrFindNonce_located; eassumption | split; reflexivity].
Qed.

(** Every candidate is rendered and tested, and the worker goes on. *)
Lemma ready_continue (w : worker) (t : Z) :
  ready w -> exists fuel w', tryNonce fuel cfg w t = Ret (Continue w') /\ ready w'.
Proof.
  intros ((a & wv & v & Hobj & Hfirst & Hidx) & Hl & Hc).
  destruct (restarts_all cfg t radix a Hfirst wv v) as ([obj' idx'] & [fuel Hr] & Hloc).
  destruct (testDigest_spec cfg obj' (w_hexBuf w) Hl Hc) as (_ & _ & hb & Ht & Hl' & Hc').
  exists fuel, (Worker obj' idx' hb). split.
  - unfold tryNonce. rewrite Hobj, Hidx, Hr, Ht, never. reflexivity.
  - split; [exact Hloc | split; assumption].
Qed.

(** No schedule gets [main] past [<-winner]. *)
Lemma never_received p :
  reachable cfg raw p ->
  p_main p = Waiting /\ forall i obj, p_workers p !! i <> Some (Sending obj).
Proof.
  intros Hp.
  set (W := fun ws => match ws with
                      | Ranging w => slen (w_hexBuf w) = 0%nat /\
                                     cap (w_hexBuf w) = (2 * SHA1.Size)%nat
                      | Sending obj => False
                      | _ => True
                      end).
  assert (H : Forall W (p_workers p) /\ p_main p = Waiting).
  { apply (reachable_inv cfg raw W (fun ms => ms = Waiting));
      [exact I | exact I | reflexivity | | | | | | exact Hp].
    - intros obj w _ Hs. unfold startWorker in Hs.
      destruct (addOrFindNonce cfg obj) as [[o i]|]; [| discriminate].
      apply (inj Some) in Hs. subst w. split; reflexivity.
    - intros w t fuel w' [Hl Hc] H.
      destruct (tryNonce_Ret _ _ _ _ _ Hl Hc H) as (o & i & hb & _ & Hl' & Hc' & Hv).
      rewrite never in Hv. injection Hv as ->. split; assumption.
    - intros w t fuel obj [Hl Hc] H.
      destruct (tryNonce_Ret _ _ _ _ _ Hl Hc H) as (o & i & hb & _ & _ & _ & Hv).
      rewrite never in Hv. discriminate.
    - intros obj [].
    - intros w Hw. discriminate. }
  destruct H as [Hw Hm]. split; [exact Hm |].
  intros i obj Hi. exact (proj1 (Forall_lookup W _) Hw i _ Hi).
Qed.


(** *** A schedule that runs out of candidates *)

Let obj0 : bytes := fixHeader raw.

(** The first [k] workers have found the field ... *)
Let poolA (k : nat) : pool :=
  Pool (Exploring 0) [] false
       (replicate k (Ranging w0) ++ replicate (cpu cfg - k) (Starting obj0))
       false Waiting false.

(** ... and the first of them has taken every candidate so far. *)
Let poolB (e : estate) (closed : bool) (ws : list wstate) : pool :=
  Pool e [] closed ws false Waiting false.

Lemma phaseA (k : nat) :
  (k <= cpu cfg)%nat -> rtc (step cfg) (startPool cfg raw) (poolA k).
Proof.
  induction k as [|k IH]; intros Hk.
  - unfold poolA, startPool. rewrite Nat.sub_0_r. apply rtc_refl.
  - eapply rtc_r; [apply IH; lia |].
    assert (Hsplit : replicate (cpu cfg - k) (Starting obj0)
                     = Starting obj0 :: replicate (cpu cfg - S k) (Starting obj0)).
    { replace (cpu cfg - k)%nat with (S (cpu cfg - S k)) by lia. reflexivity. }
    replace (poolA (S k)) with (setWorker (poolA k) k (Ranging w0)).
    + eapply (step_start cfg (poolA k) k obj0 w0); [reflexivity | | exact template].
      unfold poolA. cbn [p_workers]. rewrite Hsplit.
      apply list_lookup_middle. rewrite length_replicate. reflexivity.
    + unfold setWorker, poolA. cbn [p_explore p_queue p_closed p_workers p_done
                                     p_main p_crashed].
      f_equal. rewrite Hsplit.
      rewrite insert_app_r_alt by (rewrite length_replicate; lia).
      rewrite length_replicate, Nat.sub_diag. cbn [insert list_insert].
      rewrite (cons_middle (Ranging w0)), app_assoc. f_equal.
      clear. induction k as [|k IH]; [reflexivity |].
      cbn [replicate app]. f_equal. exact IH.
Qed.

Lemma wrapInt_zero (k : Z) :
  1 <= k <= 2 ^ intSize cfg ->
  (wrapInt (intSize cfg) k =? 0) = bool_decide (k = 2 ^ intSize cfg).
Proof.
  intros Hk. destruct (pow_bits (intSize cfg) bits) as [Hp Hh].
  destruct (decide (k < 2 ^ (intSize cfg - 1))).
  - rewrite wrapInt_small by lia.
    rewrite bool_decide_eq_false_2 by lia. apply Z.eqb_neq. lia.
  - rewrite wrapInt_high by lia.
    destruct (decide (k = 2 ^ intSize cfg)) as [E|E].
    + rewrite bool_decide_eq_true_2 by exact E. apply Z.eqb_eq. lia.
    + rewrite bool_decide_eq_false_2 by exact E. apply Z.eqb_neq. lia.
Qed.

(** Where [explore] stands after [k] of its [2^bits] turns. *)
Let expl (k : N) : estate :=
  if bool_decide (Z.of_N k = 2 ^ intSize cfg) then Breaking
  else Exploring (wrapInt (intSize cfg) (Z.of_N k)).

Let others : list wstate := replicate (cpu cfg - 1) (Ranging w0).

Lemma phaseB (k : N) :
  Z.of_N k <= 2 ^ intSize cfg ->
  exists w, ready w /\
    rtc (step cfg) (startPool cfg raw) (poolB (expl k) false (Ranging w :: others)).
Proof.
  destruct (pow_bits (intSize cfg) bits) as [Hp Hh].
  induction k as [|k IH] using N.peano_ind; intros Hk.
  - exists w0. split; [exact ready_start |].
    replace (poolB (expl 0) false (Ranging w0 :: others)) with (poolA (cpu cfg)).
    + apply phaseA. lia.
    + unfold poolA, poolB, expl, others.
      rewrite bool_decide_eq_false_2 by (cbn; lia).
      rewrite wrapInt_small by (cbn; lia).
      rewrite Nat.sub_diag. cbn [replicate]. rewrite app_nil_r.
      replace (cpu cfg) with (S (cpu cfg - 1)) at 1 by lia. reflexivity.
  - destruct IH as (w & Hw & Hrun); [lia |].
    set (n' := wrapInt (intSize cfg) (Z.of_N (N.succ k))).
    destruct (ready_continue w n' Hw) as (fuel & w' & Htry & Hw').
    exists w'. split; [exact Hw' |].
    eapply rtc_r; [eapply rtc_r; [exact Hrun |] |].
    + (* [c <- t] *)
      eapply (step_send cfg _ (wrapInt (intSize cfg) (Z.of_N k))).
      * reflexivity.
      * unfold poolB, expl. cbn [p_explore].
        rewrite bool_decide_eq_false_2 by lia. reflexivity.
      * cbn. unfold queueCap. lia.
    + (* the first worker takes it *)
      cbv zeta. rewrite wrapInt_succ by exact bits.
      replace (Z.of_N k + 1) with (Z.of_N (N.succ k)) by lia.
      rewrite wrapInt_zero by lia. fold n'.
      replace (poolB (expl (N.succ k)) false (Ranging w' :: others))
        with (setWorker
                (setQueue
                   (Pool (if bool_decide (Z.of_N (N.succ k) = 2 ^ intSize cfg)
                          then Breaking else Exploring n')
                         ([] ++ [n']) false (Ranging w :: others) false Waiting false)
                   []) 0 (Ranging w'))
        by reflexivity.
      eapply (step_continue cfg _ 0%nat w n' [] fuel w');
        [reflexivity | reflexivity | reflexivity | reflexivity | exact Htry].
Qed.

(** Once the channel is closed and empty, the workers return one by one. *)
Lemma phaseD (ws : list worker) : forall pre : list wstate,
  rtc (step cfg)
      (poolB Finished true (pre ++ (Ranging <$> ws)))
      (poolB Finished true (pre ++ replicate (length ws) Exited)).
Proof.
  induction ws as [|w ws IH]; intros pre; [apply rtc_refl |].
  eapply rtc_l.
  - eapply (step_drained cfg _ (length pre) w); [reflexivity | | reflexivity | reflexivity].
    cbn [poolB p_workers fmap list_fmap]. apply list_lookup_middle. reflexivity.
  - unfold setWorker, poolB.
    cbn [p_explore p_queue p_closed p_workers p_done p_main p_crashed fmap list_fmap].
    rewrite insert_app_r_alt by lia. rewrite Nat.sub_diag. cbn [insert list_insert].
    specialize (IH (pre ++ [Exited])). unfold poolB in IH.
    rewrite <- !app_assoc in IH. cbn [app length replicate] in *. exact IH.
Qed.

Lemma exhausted_reachable :
  reachable cfg raw (poolB Finished true (replicate (cpu cfg) Exited)).
Proof.
  destruct (pow_bits (intSize cfg) bits) as [Hp Hh].
  destruct (phaseB (Z.to_N (2 ^ intSize cfg))) as (w & _ & Hrun); [lia |].
  unfold reachable. etrans; [exact Hrun |].
  eapply rtc_l.
  - eapply step_close; [reflexivity |].
    unfold poolB, expl. cbn [p_explore].
    rewrite bool_decide_eq_true_2 by lia. reflexivity.
  - pose proof (phaseD (w :: replicate (cpu cfg - 1) w0) []) as Hd.
    cbn [app] in Hd. rewrite length_cons, length_replicate in Hd.
    replace (S (cpu cfg - 1)) with (cpu cfg) in Hd by lia.
    unfold others. rewrite fmap_cons, fmap_replicate in Hd. exact Hd.
Qed.

(** In that state nothing can move, and [main] still waits for a winner. *)
Lemma exhausted_stuck p' :
  ~ step cfg (poolB Finished true (replicate (cpu cfg) Exited)) p'.
Proof.
  intros H. inversion H; subst; cbn in *;
    repeat match goal with
           | E : replicate _ _ !! _ = Some _ |- _ =>
               apply lookup_replicate in E as [E _]
           end;
    discriminate.
Qed.

End Exhaustion.

(** C8, on the code.  Take a pattern no digest matches, a template in
    which the field can be put, and at least one worker.  Then no schedule
    publishes a winner, and there is a schedule on which [explore] sends all
    its [2^intSize] candidates and closes the channel and every worker
    returns; in the state it ends in no goroutine can take a step, and
    [main] is still blocked in [<-winner]: it neither returns nor reports
    that the search failed. *)
Theorem exhaustion_deadlocks cfg raw :
  (forall obj, Re.Match (pattern cfg) (encodeHex (SHA1.sum obj)) = false) ->
  2 <= Go.len (nonceChars cfg) ->
  LF ∉ nonceName cfg ->
  1 <= intSize cfg ->
  (1 <= cpu cfg)%nat ->
  is_Some (startWorker cfg (fixHeader raw)) ->
  let stuck :=
    Pool Finished [] true (replicate (cpu cfg) Exited) false Waiting false in
  (forall p, reachable cfg raw p ->
     p_main p = Waiting /\
     forall i obj, p_workers p !! i <> Some (Sending obj)) /\
  reachable cfg raw stuck /\
  p_main stuck = Waiting /\
  forall p', ~ step cfg stuck p'.
Proof.
  intros Hnever Hradix Hname Hbits Hcpu [w0 Hw0] stuck.
  split; [intros p Hp; apply (never_received cfg raw Hnever p Hp) |].
  split; [exact (exhausted_reachable cfg raw Hnever Hradix Hname Hbits Hcpu w0 Hw0) |].
  split; [reflexivity |].
  intros p'. apply exhausted_stuck.
Qed.

Lemma encodeHex_chars (bs : bytes) : Forall (fun c => c ∈ hexdigits) (encodeHex bs).
Proof.
  induction bs as [|b bs IH]; [constructor |].
  cbn [encodeHex flat_map app]. constructor; [| constructor; [| exact IH]].
  - destruct b; apply (bool_decide_unpack _); vm_compute; exact I.
  - destruct b; apply (bool_decide_unpack _); vm_compute; exact I.
Qed.

(** No digest has a [g] in it. *)
Lemma never_g (obj : bytes) :
  Re.Match (ReLit x67) (encodeHex (SHA1.sum obj)) = false.
Proof.
  apply not_true_iff_false. intros H.
  apply existsb_exists in H as (i & _ & Hm).
  unfold Re.matchesAt in Hm. cbn [Re.ends] in Hm.
  destruct (encodeHex (SHA1.sum obj) !! i) as [d|] eqn:E.
  - destruct (decide (x67 = d)) as [<-|Hne].
    + pose proof (encodeHex_chars (SHA1.sum obj)) as Hc.
      rewrite Forall_forall in Hc. apply list_elem_of_lookup_2 in E.
      apply Hc in E. revert E. apply (bool_decide_unpack _). vm_compute. exact I.
    + rewrite (bool_decide_eq_false_2 (x67 = d)) in Hm by exact Hne.
      apply bool_decide_eq_true in Hm. apply Hm. reflexivity.
  - apply bool_decide_eq_true in Hm. apply Hm. reflexivity.
Qed.

Lemma exhaustion_deadlocks_witness :
  let cfg := withPattern defaultConfig (ReLit x67) in
  let stuck := Pool Finished [] true (replicate 4 Exited) false Waiting false in
  reachable cfg sampleCommit stuck /\ forall p', ~ step cfg stuck p'.
Proof.
  intros cfg stuck.
  destruct (exhaustion_deadlocks cfg sampleCommit) as (_ & Hreach & _ & Hstuck).
  - exact never_g.
  - exact defaultConfig_radix.
  - exact defaultConfig_name.
  - cbn. lia.
  - cbn. lia.
  - eexists. vm_compute. reflexivity.
  - split; [exact Hreach | exact Hstuck].
Defined.

(** * Further properties of the code *)

(** ** [fixHeader] on what [git cat-file] prints, and on a framed buffer *)

Lemma IndexByte_absent (s : bytes) (c : byte) : c ∉ s -> Go.IndexByte s c = -1.
Proof.
  intros H. apply Index_absent. intros n [Hn [k Hk]]. apply H.
  rewrite <- (take_drop n s), Hk. apply elem_of_app. right. left.
Qed.

(** X1.  A buffer without a NUL byte, as [git cat-file -p] prints a commit,
    loses nothing to [fixHeader]: the result is ["commit "], the decimal
    length of the buffer, a NUL, and the buffer itself; and what [main] cuts
    off again for [git hash-object], the bytes after the first NUL, is the
    buffer it started from. *)
Theorem fixHeader_fresh (raw : bytes) :
  NUL ∉ raw ->
  fixHeader raw = commitTag ++ Go.itoa (length raw) ++ NUL :: raw /\
  content (fixHeader raw) = raw.
Proof.
  intros H.
  assert (E : fixHeader raw = frame raw).
  { unfold fixHeader. rewrite IndexByte_absent by exact H. cbn [Z.add Z.to_nat drop].
    unfold frame, hdr. rewrite <- !app_assoc. reflexivity. }
  split.
  - rewrite E. unfold frame, hdr. rewrite <- !app_assoc. reflexivity.
  - rewrite E. apply content_frame.
Qed.

Lemma fixHeader_fresh_witness :
  fixHeader sampleCommit
    = commitTag ++ [x34; x31] ++ NUL :: sampleCommit /\
  content (fixHeader sampleCommit) = sampleCommit.
Proof.
  apply (fixHeader_fresh sampleCommit).
  apply (bool_decide_unpack _). vm_compute. exact I.
Defined.

Lemma fixHeader_prefix (p s : bytes) :
  NUL ∉ p -> fixHeader (p ++ NUL :: s) = frame s.
Proof.
  intros H. unfold fixHeader. rewrite IndexByte_first by exact H.
  replace (Z.to_nat (Go.len p + 1)) with (S (length p)) by (unfold Go.len; lia).
  replace (drop (S (length p)) (p ++ NUL :: s)) with s.
  - unfold frame, hdr. rewrite <- !app_assoc. reflexivity.
  - rewrite (cons_middle NUL), app_assoc.
    rewrite drop_app_length'; [reflexivity |].
    rewrite length_app. cbn [length]. lia.
Qed.

(** X2.  Whatever stands before the first NUL of a buffer, a header of a
    commit or not, and of the right length or not, [fixHeader] replaces it:
    the result is the header for the bytes after that NUL, and those
    bytes. *)
Theorem fixHeader_replaces (p s : bytes) :
  NUL ∉ p ->
  fixHeader (p ++ NUL :: s) = commitTag ++ Go.itoa (length s) ++ NUL :: s.
Proof.
  intros H. rewrite fixHeader_prefix by exact H.
  unfold frame, hdr. rewrite <- !app_assoc. reflexivity.
Qed.

Lemma fixHeader_replaces_witness :
  fixHeader (list_byte_of_string "tree 9999" ++ NUL :: sampleCommit)
    = commitTag ++ Go.itoa 41 ++ NUL :: sampleCommit.
Proof.
  apply (fixHeader_replaces (list_byte_of_string "tree 9999") sampleCommit).
  apply (bool_decide_unpack _). vm_compute. exact I.
Defined.

(** X3.  [fixHeader] is idempotent and touches nothing but the header: the
    bytes after the first NUL are those of its argument, and a second call
    returns what the first returned. *)
Theorem fixHeader_idempotent (obj : bytes) :
  fixHeader (fixHeader obj) = fixHeader obj /\
  content (fixHeader obj) = content obj.
Proof.
  rewrite (fixHeader_framed obj). split.
  - apply fixHeader_frame.
  - apply content_frame.
Qed.

(** ** [hexInPlace] and the array it shares with its argument *)

(** X4.  [hexInPlace] fails exactly when twice the length of its argument
    exceeds the capacity.  When it succeeds the backing array keeps its size,
    the bytes beyond the result are untouched, and the argument itself is
    lost: read again, the slice that was passed holds the first half of the
    hexadecimal text in place of the data. *)
Theorem hexInPlace_in_place (v : slice) :
  match hexInPlace v with
  | Some h =>
      (2 * slen v <= cap v)%nat /\
      cap h = cap v /\
      drop (2 * slen v) (arr h) = drop (2 * slen v) (arr v) /\
      contents (Slice (arr h) (slen v))
        = take (slen v) (encodeHex (contents v))
  | None => (cap v < 2 * slen v)%nat
  end.
Proof.
  destruct v as [a n]. unfold hexInPlace, cap, contents. cbn [slen arr].
  destruct (n * 2 <=? length a)%nat eqn:E.
  - apply Nat.leb_le in E. cbn [arr slen].
    rewrite hexLoop_spec by lia.
    assert (Hl : length (encodeHex (take n a)) = (2 * n)%nat)
      by (rewrite length_encodeHex, length_take; lia).
    split; [lia |]. split; [| split].
    + rewrite length_app, Hl, length_drop. lia.
    + rewrite drop_app_length' by (symmetry; exact Hl). reflexivity.
    + rewrite take_app_le by lia. reflexivity.
  - apply Nat.leb_gt in E. lia.
Qed.

Lemma unhex_hex (b : byte) :
  unhex (hexChar (Byte.to_N b / 16)) (hexChar (Byte.to_N b mod 16)) = Some b.
Proof. destruct b; vm_compute; reflexivity. Qed.

Lemma encodeHex_inj (bs : bytes) : forall bs' : bytes,
  encodeHex bs = encodeHex bs' -> bs = bs'.
Proof.
  induction bs as [|b bs IH]; intros [|b' bs'] H; try discriminate; [reflexivity |].
  cbn [encodeHex flat_map app] in H. injection H as Hhi Hlo Hrest.
  f_equal; [| apply IH; exact Hrest].
  pose proof (unhex_hex b) as Hb. rewrite Hhi, Hlo, unhex_hex in Hb.
  congruence.
Qed.

(** X5.  [hexInPlace] loses no information: two slices that it turns into
    the same text held the same bytes. *)
Theorem hexInPlace_injective (v v' h h' : slice) :
  hexInPlace v = Some h -> hexInPlace v' = Some h' ->
  contents h = contents h' -> contents v = contents v'.
Proof.
  intros Hv Hv' Heq.
  assert (Hc : forall u k, hexInPlace u = Some k ->
                 contents k = encodeHex (contents u)).
  { intros u k Hu.
    destruct (hexInPlace_spec u) as (k' & Hk' & _ & _ & Hct).
    - unfold hexInPlace in Hu.
      destruct (slen u * 2 <=? cap u)%nat eqn:E; [| discriminate].
      apply Nat.leb_le in E. lia.
    - congruence. }
  apply encodeHex_inj. rewrite <- (Hc _ _ Hv), <- (Hc _ _ Hv'). exact Heq.
Qed.

Lemma hexInPlace_injective_witness :
  contents (Slice [xab; x00; x07] 1) = contents (Slice [xab; x11] 1).
Proof.
  apply (hexInPlace_injective _ _ (Slice [x61; x62; x07] 2) (Slice [x61; x62] 2));
    reflexivity.
Defined.

(** ** [explore] covers the whole of [int] *)

Lemma wrapInt_inv (bits j : Z) :
  1 <= bits -> 0 <= j < 2 ^ bits ->
  (wrapInt bits (j + 1) - 1) mod 2 ^ bits = j.
Proof.
  intros Hb Hj. unfold wrapInt.
  replace ((j + 1 + 2 ^ (bits - 1)) mod 2 ^ bits - 2 ^ (bits - 1) - 1)
    with ((j + 1 + 2 ^ (bits - 1)) mod 2 ^ bits - (2 ^ (bits - 1) + 1)) by lia.
  rewrite Zminus_mod_idemp_l.
  replace (j + 1 + 2 ^ (bits - 1) - (2 ^ (bits - 1) + 1)) with j by lia.
  apply Z.mod_small. exact Hj.
Qed.

Lemma wrapInt_range (bits x : Z) :
  1 <= bits -> - 2 ^ (bits - 1) <= wrapInt bits x < 2 ^ (bits - 1).
Proof.
  intros Hb. destruct (pow_bits bits Hb) as [Hp Hh]. unfold wrapInt.
  pose proof (Z.mod_pos_bound (x + 2 ^ (bits - 1)) (2 ^ bits) ltac:(lia)). lia.
Qed.

(** X6.  By the time [explore] closes the channel it has sent every value
    of [int] exactly once: the [2^bits] values sent are all within the range of
    a [bits]-bit [int], the value [x] of that range is the one sent at position
    [(x - 1) mod 2^bits], and no value is sent at two positions. *)
Theorem explore_each_once (bits : Z) :
  1 <= bits ->
  let sent := e_sent (explore_run bits (Z.to_N (2 ^ bits))) in
  length sent = Z.to_nat (2 ^ bits) /\
  (forall (j : nat) (x : Z),
     sent !! j = Some x -> - 2 ^ (bits - 1) <= x < 2 ^ (bits - 1)) /\
  (forall x : Z,
     - 2 ^ (bits - 1) <= x < 2 ^ (bits - 1) ->
     sent !! Z.to_nat ((x - 1) mod 2 ^ bits) = Some x) /\
  (forall (j j' : nat) (x : Z),
     sent !! j = Some x -> sent !! j' = Some x -> j = j').
Proof.
  intros Hb sent.
  destruct (pow_bits bits Hb) as [Hp Hh].
  destruct (explore_run_sent bits Hb (Z.to_N (2 ^ bits))) as [Hl Hs]; [lia |].
  fold sent in Hl, Hs.
  assert (Hget : forall (j : nat) (x : Z), sent !! j = Some x ->
            Z.of_nat j < 2 ^ bits /\ x = wrapInt bits (Z.of_nat j + 1)).
  { intros j x Hj. apply lookup_lt_Some in Hj as Hlt. rewrite Hl in Hlt.
    split; [lia |].
    specialize (Hs (N.of_nat j) ltac:(lia)).
    rewrite Nat2N.id, Hj in Hs. injection Hs as ->. f_equal. lia. }
  split; [rewrite Hl; lia |]. split; [| split].
  - intros j x Hj. destruct (Hget j x Hj) as [_ ->]. apply wrapInt_range. exact Hb.
  - intros x Hx.
    pose proof (Z.mod_pos_bound (x - 1) (2 ^ bits) ltac:(lia)) as Hm.
    specialize (Hs (Z.to_N ((x - 1) mod 2 ^ bits)) ltac:(lia)).
    replace (N.to_nat (Z.to_N ((x - 1) mod 2 ^ bits)))
      with (Z.to_nat ((x - 1) mod 2 ^ bits)) in Hs by lia.
    rewrite Hs. f_equal. rewrite Z2N.id by lia. unfold wrapInt.
    rewrite <- Z.add_assoc, Zplus_mod_idemp_l.
    replace (x - 1 + (1 + 2 ^ (bits - 1))) with (x + 2 ^ (bits - 1)) by lia.
    rewrite Z.mod_small by lia. lia.
  - intros j j' x Hj Hj'.
    destruct (Hget j x Hj) as [Hlt Hx]. destruct (Hget j' x Hj') as [Hlt' Hx'].
    pose proof (wrapInt_inv bits (Z.of_nat j) Hb ltac:(lia)) as E.
    pose proof (wrapInt_inv bits (Z.of_nat j') Hb ltac:(lia)) as E'.
    rewrite <- Hx in E. rewrite <- Hx' in E'. lia.
Qed.

Lemma explore_each_once_witness :
  e_sent (explore_run 3 8) = [1; 2; 3; -4; -3; -2; -1; 0] /\
  e_sent (explore_run 3 8) !! Z.to_nat ((-4 - 1) mod 2 ^ 3) = Some (-4).
Proof.
  split; [reflexivity |].
  apply (proj1 (proj2 (proj2 (explore_each_once 3 ltac:(lia))))). lia.
Defined.

(** ** [addOrFindNonce]: a field that is there, one that is put in, and
    the buffers it cannot handle *)

Lemma scanLine_None_iff (rest : bytes) : forall i : Z,
  scanLine rest i = None <-> LF ∉ rest.
Proof.
  induction rest as [|c rest IH]; intros i; cbn [scanLine].
  - split; [intros _; apply not_elem_of_nil | reflexivity].
  - destruct (decide (c = LF)) as [->|Hc].
    + rewrite bool_decide_eq_true_2 by reflexivity.
      split; [discriminate |]. intros H. exfalso. apply H. left.
    + rewrite bool_decide_eq_false_2 by exact Hc. rewrite IH.
      rewrite not_elem_of_cons. split; [intros H; split; [congruence | exact H] | tauto].
Qed.

Lemma Index_occurs (s sep : bytes) (n : nat) :
  occursAt sep s n -> exists m : nat, Go.Index s sep = Z.of_nat m /\ (m <= n)%nat.
Proof.
  intros Ho. destruct (Index_spec s sep) as [[_ Hno] | (m & Hm & _ & Hmin)].
  - exfalso. exact (Hno n Ho).
  - exists m. split; [exact Hm |].
    destruct (decide (m <= n)%nat) as [|Hgt]; [assumption |].
    exfalso. apply (Hmin n); [lia | exact Ho].
Qed.

Lemma Index_occursAt (s sep : bytes) (n : nat) :
  Go.Index s sep = Z.of_nat n -> occursAt sep s n.
Proof.
  intros H. destruct (Index_spec s sep) as [[He _] | (m & Hm & Ho & _)]; [lia |].
  assert (m = n) by lia. subst m. exact Ho.
Qed.

(** On a framed buffer in which the field is found [n] bytes into the
    content, [addOrFindNonce] is the scan for the end of that line. *)
Lemma addOrFindNonce_scan cfg (c : bytes) (n : nat) :
  Go.Index c (nonceHeader cfg) = Z.of_nat n ->
  addOrFindNonce cfg (frame c)
  = (i ← scanLine (drop (S n) c) (Z.of_nat (length (hdr (length c)) + n));
     Some (frame c, i)).
Proof.
  intros Hn.
  pose proof (Index_frame c (nonceName cfg ++ [SP])) as Hi.
  change (LF :: nonceName cfg ++ [SP]) with (nonceHeader cfg) in Hi.
  rewrite Hn in Hi.
  replace (Z.of_nat n =? -1) with false in Hi by (symmetry; apply Z.eqb_neq; lia).
  unfold Go.len in Hi. rewrite <- Nat2Z.inj_add in Hi.
  destruct (Index_occursAt _ _ _ Hn) as [Hle [k Hk]].
  assert (Hlen : (S n <= length c)%nat).
  { apply (f_equal length) in Hk. rewrite length_drop, length_app in Hk.
    pose proof (length_nonceHeader cfg). lia. }
  unfold addOrFindNonce.
  assert (Hcont : Go.Contains (frame c) (nonceHeader cfg) = true).
  { apply not_false_iff_true. rewrite Contains_false, Hi. lia. }
  rewrite Hcont. cbn [negb mbind option_bind]. rewrite Hi.
  replace (Z.of_nat (length (hdr (length c)) + n) + 1)
    with (Z.of_nat (length (hdr (length c)) + S n)) by lia.
  rewrite slice_from_nat by (unfold frame; rewrite length_app; lia).
  cbn [mbind option_bind].
  replace (drop (length (hdr (length c)) + S n) (frame c)) with (drop (S n) c)
    by (unfold frame; rewrite drop_app_add'; reflexivity).
  reflexivity.
Qed.

(** On a framed buffer without the field, whose first blank line is [k]
    bytes into the content, [addOrFindNonce] goes on as on the buffer with the
    field put in there, in which the field is found. *)
Lemma addOrFindNonce_insert cfg (c : bytes) (k : nat) :
  Go.Index c (nonceHeader cfg) = -1 ->
  Go.Index c [LF; LF] = Z.of_nat k ->
  let c' := take k c ++ nonceHeader cfg ++ drop k c in
  addOrFindNonce cfg (frame c) = addOrFindNonce cfg (frame c') /\
  (exists n : nat, Go.Index c' (nonceHeader cfg) = Z.of_nat n /\ (n <= k)%nat) /\
  c' !! (k + length (nonceHeader cfg))%nat = Some LF.
Proof.
  intros Habs Hblank c'.
  destruct (Index_occursAt _ _ _ Hblank) as [Hle [y Hy]].
  assert (Hocc : exists n : nat,
            Go.Index c' (nonceHeader cfg) = Z.of_nat n /\ (n <= k)%nat).
  { apply Index_occurs. pose proof (occursAt_app (nonceHeader cfg) (take k c) (drop k c)) as Ho.
    rewrite length_take, Nat.min_l in Ho by exact Hle. exact Ho. }
  split; [| split; [exact Hocc |]].
  - destruct Hocc as (n & Hn & _).
    pose proof (Index_frame c' (nonceName cfg ++ [SP])) as Hi'.
    change (LF :: nonceName cfg ++ [SP]) with (nonceHeader cfg) in Hi'.
    rewrite Hn in Hi'.
    replace (Z.of_nat n =? -1) with false in Hi' by (symmetry; apply Z.eqb_neq; lia).
    assert (Hcont' : Go.Contains (frame c') (nonceHeader cfg) = true).
    { apply not_false_iff_true. rewrite Contains_false, Hi'. unfold Go.len. lia. }
    assert (Hcont : Go.Contains (frame c) (nonceHeader cfg) = false).
    { apply Contains_false. rewrite nonceHeader_cons, Index_frame.
      rewrite <- nonceHeader_cons, Habs. reflexivity. }
    unfold addOrFindNonce. rewrite Hcont, Hcont'. cbn [negb].
    rewrite Index_frame, Hblank.
    replace (Z.of_nat k =? -1) with false by (symmetry; apply Z.eqb_neq; lia).
    unfold Go.len. rewrite <- Nat2Z.inj_add.
    rewrite slice_to_nat, slice_from_nat by (unfold frame; rewrite length_app; lia).
    cbn [mbind option_bind].
    replace (take (length (hdr (length c)) + k) (frame c))
      with (hdr (length c) ++ take k c)
      by (unfold frame; rewrite take_app_add'; reflexivity).
    replace (drop (length (hdr (length c)) + k) (frame c)) with (drop k c)
      by (unfold frame; rewrite drop_app_add'; reflexivity).
    rewrite <- app_assoc, fixHeader_hdr. reflexivity.
  - unfold c'. rewrite Hy.
    rewrite lookup_app_r by (rewrite length_take; lia).
    rewrite length_take, Nat.min_l by exact Hle.
    rewrite lookup_app_r by lia.
    replace (k + length (nonceHeader cfg) - k - length (nonceHeader cfg))%nat
      with 0%nat by lia.
    reflexivity.
Qed.

(** X7.  A field that is there is taken as it is, wherever its line stands:
    on any buffer, framed or not, in which the first ["\n<name> "] is followed
    by a value and a newline, [addOrFindNonce] returns the buffer unchanged,
    its header included, with the offset of the last byte of the value, or of
    the space when the value is empty. *)
Theorem addOrFindNonce_existing cfg (p val b : bytes) :
  let obj := p ++ nonceHeader cfg ++ val ++ LF :: b in
  LF ∉ nonceName cfg ->
  LF ∉ val ->
  Go.Index obj (nonceHeader cfg) = Z.of_nat (length p) ->
  addOrFindNonce cfg obj
  = Some (obj, Z.of_nat (length p + length (nonceHeader cfg) + length val) - 1).
Proof.
  intros obj Hname Hval Hidx. unfold addOrFindNonce.
  assert (Hcont : Go.Contains obj (nonceHeader cfg) = true).
  { apply not_false_iff_true. rewrite Contains_false, Hidx. lia. }
  rewrite Hcont. cbn [negb mbind option_bind]. rewrite Hidx.
  replace (Z.of_nat (length p) + 1) with (Z.of_nat (S (length p))) by lia.
  assert (Hobj : obj = (p ++ [LF]) ++ (nonceName cfg ++ SP :: val) ++ LF :: b).
  { unfold obj, nonceHeader. rewrite <- ?app_assoc. cbn [app].
    rewrite <- ?app_assoc. reflexivity. }
  rewrite slice_from_nat
    by (rewrite Hobj, !length_app; cbn [length]; lia).
  cbn [mbind option_bind].
  rewrite Hobj at 1.
  rewrite drop_app_length' by (rewrite length_app; cbn [length]; lia).
  rewrite scanLine_spec.
  - cbn [mbind option_bind]. do 2 f_equal. unfold Go.len.
    rewrite length_app, length_nonceHeader. cbn [length]. lia.
  - rewrite not_elem_of_app, not_elem_of_cons. repeat split; [assumption | discriminate | assumption].
Qed.

Lemma addOrFindNonce_existing_witness :
  addOrFindNonce defaultConfig
    (list_byte_of_string "tree 4b825dc" ++ nonceHeader defaultConfig
       ++ list_byte_of_string "987" ++ LF :: drop 36 sampleCommit)
  = Some (list_byte_of_string "tree 4b825dc" ++ nonceHeader defaultConfig
            ++ list_byte_of_string "987" ++ LF :: drop 36 sampleCommit, 21).
Proof.
  apply (addOrFindNonce_existing defaultConfig
           (list_byte_of_string "tree 4b825dc") (list_byte_of_string "987")
           (drop 36 sampleCommit)).
  - exact defaultConfig_name.
  - apply (bool_decide_unpack _). vm_compute. exact I.
  - vm_compute. reflexivity.
Defined.

(** X8.  On a framed buffer [addOrFindNonce] panics in exactly two
    situations: the content has neither the field nor a blank line to put it
    before (the slice [obj[:-1]]), or it has the field and no newline anywhere
    after the start of its line (the scan runs off the end of the buffer). *)
Theorem addOrFindNonce_fails_iff cfg (c : bytes) :
  addOrFindNonce cfg (frame c) = None <->
  (Go.Index c (nonceHeader cfg) = -1 /\ Go.Index c [LF; LF] = -1) \/
  (exists n : nat,
     Go.Index c (nonceHeader cfg) = Z.of_nat n /\ LF ∉ drop (S n) c).
Proof.
  assert (Hscan : forall (d : bytes) (n : nat),
            Go.Index d (nonceHeader cfg) = Z.of_nat n ->
            addOrFindNonce cfg (frame d) = None <-> LF ∉ drop (S n) d).
  { intros d n Hn. rewrite (addOrFindNonce_scan cfg d n Hn).
    rewrite <- (scanLine_None_iff (drop (S n) d)
                  (Z.of_nat (length (hdr (length d)) + n))).
    destruct (scanLine _ _); cbn; split; congruence. }
  destruct (Index_spec c (nonceHeader cfg)) as [[Habs _] | (n & Hn & _)].
  - destruct (Index_spec c [LF; LF]) as [[Hno _] | (k & Hk & _)].
    + split; [intros _; left; split; assumption |]. intros _.
      unfold addOrFindNonce.
      rewrite (proj2 (Contains_false (frame c) (nonceHeader cfg)))
        by (rewrite nonceHeader_cons, Index_frame, <- nonceHeader_cons, Habs;
            reflexivity).
      cbn [negb]. rewrite Index_frame, Hno. reflexivity.
    + destruct (addOrFindNonce_insert cfg c k Habs Hk) as (E & (n & Hn & Hnk) & Hlf).
      cbv zeta in E, Hn, Hlf. rewrite E, (Hscan _ n Hn). split.
      * intros H. exfalso. apply H.
        apply (list_elem_of_lookup_2 _ (k + length (nonceHeader cfg) - S n)%nat).
        rewrite lookup_drop, <- Hlf. f_equal.
        pose proof (length_nonceHeader cfg). lia.
      * intros [[_ H] | (m & Hm & _)]; lia.
  - rewrite (Hscan c n Hn). split.
    + intros H. right. exists n. split; assumption.
    + intros [[H _] | (m & Hm & H)]; [lia |].
      assert (m = n) by lia. subst m. exact H.
Qed.

(** X9.  [addOrFindNonce] puts the field in at most once: applied to the
    buffer it has returned for a framed buffer, it returns that buffer again,
    and the same offset. *)
Theorem addOrFindNonce_idempotent cfg (c obj : bytes) (idx : Z) :
  addOrFindNonce cfg (frame c) = Some (obj, idx) ->
  addOrFindNonce cfg obj = Some (obj, idx).
Proof.
  assert (Hfound : forall (d : bytes) (n : nat) o i,
            Go.Index d (nonceHeader cfg) = Z.of_nat n ->
            addOrFindNonce cfg (frame d) = Some (o, i) ->
            addOrFindNonce cfg o = Some (o, i)).
  { intros d n o i Hn H. pose proof H as H'.
    rewrite (addOrFindNonce_scan cfg d n Hn) in H'.
    destruct (scanLine _ _) as [j|]; [| discriminate].
    cbn [mbind option_bind] in H'. apply (inj Some) in H'.
    apply pair_equal_spec in H' as [<- _]. exact H. }
  intros H.
  destruct (Index_spec c (nonceHeader cfg)) as [[Habs _] | (n & Hn & _)].
  - destruct (Index_spec c [LF; LF]) as [[Hno _] | (k & Hk & _)].
    + exfalso. unfold addOrFindNonce in H.
      rewrite (proj2 (Contains_false (frame c) (nonceHeader cfg))) in H
        by (rewrite nonceHeader_cons, Index_frame, <- nonceHeader_cons, Habs;
            reflexivity).
      cbn [negb] in H. rewrite Index_frame, Hno in H. discriminate.
    + destruct (addOrFindNonce_insert cfg c k Habs Hk) as (E & (n & Hn & _) & _).
      cbv zeta in E, Hn. rewrite E in H. exact (Hfound _ n _ _ Hn H).
  - exact (Hfound c n _ _ Hn H).
Qed.

Lemma addOrFindNonce_idempotent_witness :
  exists obj idx,
    addOrFindNonce defaultConfig (frame sampleCommit) = Some (obj, idx) /\
    addOrFindNonce defaultConfig obj = Some (obj, idx).
Proof.
  destruct (addOrFindNonce defaultConfig (frame sampleCommit))
    as [[obj idx]|] eqn:Hadd; [| vm_compute in Hadd; discriminate].
  exists obj, idx. split; [reflexivity |].
  exact (addOrFindNonce_idempotent defaultConfig sampleCommit obj idx Hadd).
Defined.

(** ** [growNonce]: with the field, and without it *)

(** The value of the field in a framed buffer whose first nonce line is
    [a] bytes into the content. *)
Lemma fieldValue_frame cfg (a v : bytes) :
  Go.Index (a ++ nonceHeader cfg) (nonceHeader cfg) = Z.of_nat (length a) ->
  fieldValue cfg (frame (a ++ nonceHeader cfg ++ v)) = Some (upToLF v).
Proof.
  intros Hfirst. unfold fieldValue.
  set (c := a ++ nonceHeader cfg ++ v).
  pose proof (Index_frame c (nonceName cfg ++ [SP])) as Hi.
  change (LF :: nonceName cfg ++ [SP]) with (nonceHeader cfg) in Hi.
  assert (Hci : Go.Index c (nonceHeader cfg) = Z.of_nat (length a))
    by (unfold c; apply firstHeader; exact Hfirst).
  rewrite Hci in Hi.
  replace (Z.of_nat (length a) =? -1) with false in Hi
    by (symmetry; apply Z.eqb_neq; lia).
  rewrite Hi. unfold Go.len.
  match goal with
  | |- context [?x <? 0] =>
      replace (x <? 0) with false by (symmetry; apply Z.ltb_ge; lia)
  end.
  f_equal. rewrite <- Nat2Z.inj_add, Nat2Z.id.
  replace (frame c) with ((hdr (length c) ++ a ++ nonceHeader cfg) ++ v)
    by (unfold frame, c; rewrite <- !app_assoc; reflexivity).
  rewrite drop_app_length' by (rewrite !length_app; lia).
  reflexivity.
Qed.

(** X10.  On a framed buffer that has the field, [growNonce] does not fail;
    it puts one byte, the character [0] whatever the alphabet is, right after
    the first ["\n<name> "] and leaves the rest of the content as it is: the
    content is one byte longer, and the value of the field is the old value
    with a [0] in front. *)
Theorem growNonce_prepends_zero cfg (c : bytes) (n : nat) :
  Go.Index c (nonceHeader cfg) = Z.of_nat n ->
  let k := (n + length (nonceHeader cfg))%nat in
  exists obj val,
    growNonce cfg (frame c) = Some obj /\
    content obj = take k c ++ ZERO :: drop k c /\
    wellFramed obj /\
    fieldValue cfg (frame c) = Some val /\
    fieldValue cfg obj = Some (ZERO :: val).
Proof.
  intros Hn k.
  destruct (Index_occursAt _ _ _ Hn) as [Hle _].
  pose proof (Index_split c (nonceHeader cfg) n Hn) as Hc.
  set (a := take n c) in *. set (v := drop (n + length (nonceHeader cfg)) c) in *.
  assert (Hna : n = length a).
  { unfold a. rewrite length_take. lia. }
  assert (Hfirst : Go.Index (a ++ nonceHeader cfg) (nonceHeader cfg)
                   = Z.of_nat (length a)).
  { apply (firstHeader_inv cfg a v). rewrite <- Hc, <- Hna. exact Hn. }
  assert (Hk : take k c ++ ZERO :: drop k c = a ++ nonceHeader cfg ++ ZERO :: v).
  { unfold k. fold v. rewrite (app_assoc a). f_equal. rewrite Hc at 1.
    rewrite app_assoc. apply take_app_length'.
    rewrite length_app. lia. }
  exists (frame (a ++ nonceHeader cfg ++ ZERO :: v)), (upToLF v).
  split; [| split; [| split; [| split]]].
  - rewrite Hc. apply growNonce_frame. apply firstHeader. exact Hfirst.
  - rewrite content_frame. symmetry. exact Hk.
  - apply wellFramed_frame.
  - rewrite Hc. apply fieldValue_frame. exact Hfirst.
  - rewrite (fieldValue_frame cfg a (ZERO :: v) Hfirst). reflexivity.
Qed.

Lemma growNonce_prepends_zero_witness :
  exists obj,
    growNonce defaultConfig (frame staleCommit) = Some obj /\
    fieldValue defaultConfig (frame staleCommit) = Some [x39; x38; x37] /\
    fieldValue defaultConfig obj = Some [x30; x39; x38; x37].
Proof.
  destruct (growNonce_prepends_zero defaultConfig staleCommit 35)
    as (obj & val & Hg & _ & _ & Hv & Hv'); [vm_compute; reflexivity |].
  assert (E : val = [x39; x38; x37]).
  { apply (inj Some). rewrite <- Hv. vm_compute. reflexivity. }
  exists obj. rewrite <- E. split; [exact Hg | split; [exact Hv | exact Hv']].
Defined.

(** X11.  On a framed buffer that lacks the field [growNonce] reports
    nothing.  [bytes.Index] gives -1, so the byte goes in at offset
    [len(name) + 1] of the buffer: when that is within the header, the byte is
    thrown away with the old header and the buffer comes back unchanged; when
    it is within the content, the content gets a [0] at that place; only when
    it is beyond the end of the buffer does the call panic. *)
Theorem growNonce_without_field cfg (c : bytes) :
  Go.Index c (nonceHeader cfg) = -1 ->
  let i := S (length (nonceName cfg)) in
  let h := length (hdr (length c)) in
  growNonce cfg (frame c) =
    if decide (i < h)%nat then Some (frame c)
    else if decide (i <= h + length c)%nat
         then Some (frame (take (i - h) c ++ ZERO :: drop (i - h) c))
         else None.
Proof.
  intros Habs i h. unfold growNonce.
  assert (Hi : Go.Index (frame c) (nonceHeader cfg) + Go.len (nonceHeader cfg)
               = Z.of_nat i).
  { rewrite nonceHeader_cons, Index_frame, <- nonceHeader_cons, Habs.
    change (-1 =? -1) with true. cbv iota.
    unfold Go.len. rewrite length_nonceHeader. unfold i. lia. }
  rewrite Hi.
  assert (Hlen : length (frame c) = (h + length c)%nat)
    by (unfold frame, h; apply length_app).
  destruct (decide (i <= h + length c)%nat) as [Hin|Hout].
  - rewrite slice_to_nat, slice_from_nat by lia. cbn [mbind option_bind].
    unfold frame at 1 2. rewrite take_app, drop_app. fold h.
    destruct (decide (i < h)%nat) as [Hlt|Hge].
    + replace (i - h)%nat with 0%nat by lia. rewrite take_0, drop_0, app_nil_r.
      f_equal. unfold hdr in *.
      assert (Hh : h = S (length (commitTag ++ Go.itoa (length c)))).
      { unfold h. rewrite app_assoc, (length_app _ [NUL]). cbn [length]. lia. }
      rewrite (app_assoc commitTag).
      rewrite take_app_le, drop_app_le by lia.
      rewrite <- !app_assoc. cbn [app].
      change (ZERO :: drop i (commitTag ++ Go.itoa (length c)) ++ NUL :: c)
        with ((ZERO :: drop i (commitTag ++ Go.itoa (length c))) ++ NUL :: c).
      rewrite app_assoc. apply fixHeader_prefix.
      destruct (hdr_chars (length c)) as [Hnul _].
      rewrite not_elem_of_app, not_elem_of_cons. repeat split.
      * intros H. apply Hnul. eapply subseteq_take. exact H.
      * discriminate.
      * intros H. apply Hnul. eapply subseteq_drop. exact H.
    + rewrite take_ge, drop_ge by (fold h; lia). cbn [app].
      rewrite <- app_assoc. rewrite fixHeader_hdr. reflexivity.
  - destruct (decide (i < h)%nat); [lia |].
    unfold Go.slice_to.
    replace (Z.of_nat i <=? Go.len (frame c)) with false
      by (symmetry; apply Z.leb_gt; unfold Go.len; lia).
    rewrite andb_false_r. reflexivity.
Qed.

Lemma growNonce_without_field_witness :
  growNonce defaultConfig (frame sampleCommit) = Some (frame sampleCommit).
Proof.
  apply (growNonce_without_field defaultConfig sampleCommit).
  vm_compute. reflexivity.
Defined.

(** ** What [writeNonce] leaves alone *)

Section Keeps.

Variable cfg : config.
Variable t : Z.
Variables a V : bytes.
Variable P : byte -> Prop.
Hypothesis first :
  Go.Index (a ++ nonceHeader cfg) (nonceHeader cfg) = Z.of_nat (length a).
Hypothesis P_zero : P ZERO.
Hypothesis P_chars : forall b, b ∈ nonceChars cfg -> P b.

Let nh := nonceHeader cfg.

Let buf (w d v : bytes) : bytes := frame (a ++ nh ++ w ++ d ++ v).

Let pos (w d v : bytes) : Z :=
  Z.of_nat (length (hdr (length (a ++ nh ++ w ++ d ++ v))) + length a
            + length nh + length w) - 1.

(** The content stays [a], the header of the field, a value and [V]:
    whatever the fuel, the block [writeNonce] writes between the header of the
    field and [V] only, bytes of the alphabet and the [0] of [growNonce]. *)
Lemma writeNonce_keeps (fuel : nat) :
  forall obj nonceIdx i x res w d y,
    obj = buf w d (y ++ V) -> i = pos w d (y ++ V) ->
    nonceIdx = pos (w ++ d) [] (y ++ V) ->
    Forall P (w ++ d ++ y) ->
    writeNonce fuel cfg t obj nonceIdx i x = Ret res ->
    exists w' y',
      res = (buf w' [] (y' ++ V), pos w' [] (y' ++ V)) /\
      Forall P (w' ++ y') /\
      (length (w ++ d ++ y) <= length (w' ++ y'))%nat.
Proof.
  induction fuel as [|fuel IH]; intros obj nonceIdx i x res w d y -> -> -> HP H;
    [discriminate |].
  cbn [writeNonce] in H.
  destruct (0 <? x) eqn:Hx.
  2:{ injection H as <-. exists (w ++ d), y. split; [| split].
      - f_equal. symmetry. exact (buf_join cfg a w d (y ++ V)).
      - rewrite <- app_assoc. exact HP.
      - rewrite <- app_assoc. lia. }
  assert (Hgrow : forall z,
            writeNonce fuel cfg t (buf (ZERO :: w) d (y ++ V))
              (pos (w ++ d) [] (y ++ V) + 1) (pos (w ++ d) [] (y ++ V) + 1) z
              = Ret res ->
            exists w' y',
              res = (buf w' [] (y' ++ V), pos w' [] (y' ++ V)) /\
              Forall P (w' ++ y') /\
              (length (w ++ d ++ y) <= length (w' ++ y'))%nat).
  { intros z Hr.
    pose proof (grow_cursor cfg a (w ++ d) (y ++ V)) as Hg. cbv zeta in Hg.
    set (wd := ZERO :: w ++ d) in *.
    set (k := if decide (S (length (a ++ nonceHeader cfg ++ (w ++ d) ++ [] ++ y ++ V))
                         = 10 ^ length (Go.itoa (length
                             (a ++ nonceHeader cfg ++ (w ++ d) ++ [] ++ y ++ V))))%nat
              then length (w ++ d) else S (length (w ++ d))) in *.
    destruct Hg as [Hb Hp].
    assert (Hk : (k <= length wd)%nat)
      by (unfold k, wd; cbn [length]; destruct (decide _); lia).
    assert (Hb' : buf (ZERO :: w) d (y ++ V)
                  = buf (take k wd) [] ((drop k wd ++ y) ++ V)).
    { unfold buf, nh. rewrite <- (app_assoc (drop k wd)). rewrite <- Hb.
      unfold wd. rewrite <- (buf_join cfg a (ZERO :: w) d (y ++ V)). reflexivity. }
    assert (Hp' : pos (w ++ d) [] (y ++ V) + 1
                  = pos (take k wd) [] ((drop k wd ++ y) ++ V)).
    { unfold pos, nh. rewrite <- (app_assoc (drop k wd)). exact Hp. }
    rewrite Hb', Hp' in Hr.
    destruct (IH _ (pos (take k wd) [] ((drop k wd ++ y) ++ V)) _ z res
                (take k wd) [] (drop k wd ++ y) eq_refl eq_refl)
      as (w' & y' & Hres & HP' & Hl); [| | exact Hr |].
    { rewrite app_nil_r. reflexivity. }
    { cbn [app]. rewrite app_assoc, take_drop. unfold wd. cbn [app].
      constructor; [exact P_zero |]. rewrite <- ?app_assoc. exact HP. }
    exists w', y'. split; [exact Hres | split; [exact HP' |]].
    cbn [app] in Hl. rewrite app_assoc, take_drop in Hl.
    unfold wd in Hl. rewrite !length_app in *. cbn [length] in Hl.
    rewrite !length_app in Hl. lia. }
  destruct (exists_last_or_nil w) as [-> | (w0 & ch & ->)].
  - unfold buf, pos, nh in H. rewrite (at_cursor_nil cfg a d (y ++ V)) in H.
    rewrite bool_decide_eq_true_2 in H by reflexivity.
    rewrite (grow_buf cfg a [] d (y ++ V) first) in H. exact (Hgrow _ H).
  - unfold buf, pos, nh in H. rewrite (at_cursor_snoc cfg a w0 ch d (y ++ V)) in H.
    destruct (bool_decide (ch = SP)) eqn:Hch.
    + rewrite (grow_buf cfg a (w0 ++ [ch]) d (y ++ V) first) in H. exact (Hgrow _ H).
    + destruct (Go.len (nonceChars cfg) =? 0); [discriminate |].
      destruct (Go.at_ (nonceChars cfg) _) as [dg|] eqn:Hdg; [| discriminate].
      destruct (set_cursor cfg a w0 ch dg d (y ++ V)) as [Hset Hpos].
      rewrite Hset, Hpos in H.
      assert (Hin : dg ∈ nonceChars cfg).
      { unfold Go.at_ in Hdg. destruct (_ && _); [| discriminate].
        eapply list_elem_of_lookup_2. exact Hdg. }
      destruct (IH _ (pos ((w0 ++ [ch]) ++ d) [] (y ++ V)) _
                  (Z.quot x (Go.len (nonceChars cfg))) res
                  w0 (dg :: d) y eq_refl eq_refl)
        as (w' & y' & Hres & HP' & Hl); [| | exact H |].
      { apply (pos_same cfg a); [| reflexivity].
        rewrite <- !app_assoc, !length_app. reflexivity. }
      { rewrite <- app_assoc in HP. apply Forall_app in HP as [H0 H1].
        apply Forall_cons in H1 as [_ H1]. apply Forall_app. split; [exact H0 |].
        constructor; [apply P_chars; exact Hin | exact H1]. }
      exists w', y'. split; [exact Hres | split; [exact HP' |]].
      rewrite !length_app in *. cbn [length] in *. rewrite ?length_app in *.
      cbn [length] in *. lia.
Qed.

End Keeps.

(** X12.  Rendering a candidate changes the value of the field and nothing
    else.  From a buffer whose content is [a], the first ["\n<name> "], a
    value [x] with [nonceIdx] on its last byte, and a rest [V], the block
    [writeNonce] ends, whatever the candidate and however often it has to grow
    the buffer, in a framed buffer whose content is [a], the same header of
    the field, a value [x'] and the same [V]; the value has not become shorter,
    and each of its bytes is a byte of [x], the [0] of [growNonce], or a
    character of the alphabet. *)
Theorem writeNonce_keeps_commit cfg (t : Z) (obj : bytes) (idx : Z) (a x V : bytes) :
  2 <= Go.len (nonceChars cfg) ->
  cursorAt cfg obj idx a x [] V ->
  exists fuel idx' x',
    writeNonce fuel cfg t obj idx idx t
      = Ret (frame (a ++ nonceHeader cfg ++ x' ++ V), idx') /\
    (length x <= length x')%nat /\
    Forall (fun b => b ∈ x \/ b = ZERO \/ b ∈ nonceChars cfg) x'.
Proof.
  intros Hradix (-> & Hfirst & ->).
  destruct (restarts_all cfg t Hradix a Hfirst x V) as (res & [fuel Hr] & _).
  set (idx := Z.of_nat (length (hdr (length (a ++ nonceHeader cfg ++ x ++ [] ++ V)))
                        + length a + length (nonceHeader cfg) + length x) - 1) in *.
  destruct (writeNonce_keeps cfg t a V
              (fun b => b ∈ x \/ b = ZERO \/ b ∈ nonceChars cfg) Hfirst
              ltac:(right; left; reflexivity) ltac:(intros b Hb; right; right; exact Hb)
              fuel _ idx _ t res x [] [] eq_refl eq_refl)
    as (w' & y' & -> & HP & Hl); [| | exact Hr |].
  - rewrite app_nil_r. reflexivity.
  - rewrite !app_nil_r. apply Forall_forall. intros b Hb. left. exact Hb.
  - exists fuel. eexists. exists (w' ++ y'). split; [| split].
    + rewrite Hr. do 2 f_equal. rewrite <- !app_assoc. reflexivity.
    + rewrite !app_nil_r in Hl. exact Hl.
    + exact HP.
Qed.

Lemma writeNonce_keeps_commit_witness :
  exists fuel idx' x',
    writeNonce fuel defaultConfig 48
      (frame (take 35 sampleCommit ++ nonceHeader defaultConfig
              ++ drop 35 sampleCommit)) 51 51 48
    = Ret (frame (take 35 sampleCommit ++ nonceHeader defaultConfig
                  ++ x' ++ drop 35 sampleCommit), idx').
Proof.
  destruct (writeNonce_keeps_commit defaultConfig 48
              (frame (take 35 sampleCommit ++ nonceHeader defaultConfig
                      ++ drop 35 sampleCommit)) 51
              (take 35 sampleCommit) [] (drop 35 sampleCommit))
    as (fuel & idx' & x' & Hr & _).
  - exact defaultConfig_radix.
  - repeat split; vm_compute; reflexivity.
  - exists fuel, idx', x'. exact Hr.
Defined.

(** X13.  With an alphabet of fewer than two characters no positive
    candidate is ever rendered: with none the index [nonce % 0] panics, with
    one [nonce /= 1] never brings the nonce down, so the block [writeNonce]
    writes, grows and starts again until something panics, if anything does.
    Whatever the buffer and the number of steps allowed, it does not come to a
    result. *)
Theorem writeNonce_small_alphabet cfg (t : Z) (fuel : nat) :
  Go.len (nonceChars cfg) <= 1 ->
  0 < t ->
  forall obj nonceIdx i nonce res,
    0 < nonce ->
    writeNonce fuel cfg t obj nonceIdx i nonce <> Ret res.
Proof.
  intros Hr Ht. induction fuel as [|fuel IH]; intros obj nonceIdx i nonce res Hn;
    [discriminate |].
  cbn [writeNonce].
  replace (0 <? nonce) with true by (symmetry; apply Z.ltb_lt; exact Hn).
  destruct (Go.at_ obj i) as [c|]; [| discriminate].
  destruct (bool_decide (c = SP)).
  - destruct (growNonce cfg obj) as [obj'|]; [| discriminate].
    apply IH. exact Ht.
  - destruct (Go.len (nonceChars cfg) =? 0) eqn:E; [discriminate |].
    apply Z.eqb_neq in E.
    assert (E1 : Go.len (nonceChars cfg) = 1) by (unfold Go.len in *; lia).
    rewrite E1, Z.quot_1_r.
    destruct (Go.at_ (nonceChars cfg) _); [| discriminate].
    apply IH. exact Hn.
Qed.

Lemma writeNonce_small_alphabet_witness :
  let cfg := Config (pattern defaultConfig) 4 (nonceName defaultConfig) [x78] 64 in
  writeNonce 1000 cfg 1 (frame sampleCommit) 51 51 1 <> Ret (frame sampleCommit, 51).
Proof.
  intros cfg.
  apply (writeNonce_small_alphabet cfg 1 1000); [vm_compute; discriminate | lia | lia].
Defined.

(** A panic, like a result, does not depend on the fuel left over. *)
Lemma writeNonce_fuel_panic cfg t (fuel : nat) : forall fuel' obj nonceIdx i nonce,
  (fuel <= fuel')%nat ->
  writeNonce fuel cfg t obj nonceIdx i nonce = Panic ->
  writeNonce fuel' cfg t obj nonceIdx i nonce = Panic.
Proof.
  induction fuel as [|fuel IH]; intros fuel' obj nonceIdx i nonce Hle H;
    [discriminate |].
  destruct fuel' as [|fuel']; [lia |].
  cbn [writeNonce] in *.
  destruct (0 <? nonce); [| discriminate].
  destruct (Go.at_ obj i) as [c|]; [| reflexivity].
  destruct (bool_decide (c = SP)).
  - destruct (growNonce cfg obj) as [obj'|]; [| reflexivity].
    apply IH; [lia | exact H].
  - destruct (Go.len (nonceChars cfg) =? 0); [reflexivity |].
    destruct (Go.at_ (nonceChars cfg) _); [| reflexivity].
    apply IH; [lia | exact H].
Qed.

(** On a buffer whose field is located, with an alphabet of at least two
    characters, the block [writeNonce] does not panic, whatever the fuel. *)
Lemma writeNonce_no_panic cfg t fuel obj idx :
  2 <= Go.len (nonceChars cfg) ->
  located cfg obj idx ->
  writeNonce fuel cfg t obj idx idx t <> Panic.
Proof.
  intros Hradix (a & w & v & -> & Hfirst & ->) Hp.
  destruct (restarts_all cfg t Hradix a Hfirst w v) as (res & [fuel' Hr] & _).
  apply (writeNonce_fuel_panic cfg t fuel (Nat.max fuel fuel')) in Hp; [| lia].
  apply (writeNonce_fuel cfg t fuel' (Nat.max fuel fuel')) in Hr; [| lia].
  congruence.
Qed.

(** ** Candidates in increasing order *)

Lemma digits_length_mono (chars : bytes) :
  2 <= Go.len chars ->
  forall t' t : Z, t <= t' ->
    (length (digits chars t) <= length (digits chars t'))%nat.
Proof.
  intros Hr t'.
  apply (digits_ind chars Hr
           (fun t' => forall t, t <= t' ->
              (length (digits chars t) <= length (digits chars t'))%nat)).
  - intros x Hx t Ht. rewrite (digits_nonpos chars t) by lia. cbn. lia.
  - intros x Hx IH t Ht.
    destruct (decide (t <= 0)) as [Hle | Hgt].
    + rewrite (digits_nonpos chars t) by lia. cbn. lia.
    + rewrite (digits_step chars Hr t), (digits_step chars Hr x) by lia.
      rewrite !length_app. cbn [length].
      specialize (IH (Z.quot t (Go.len chars))
                     ltac:(apply Z.quot_le_mono; lia)). lia.
Qed.

(** X14.  A worker is handed its candidates in increasing order, and so
    each is rendered exactly.  Take an alphabet of at least two characters
    without the space, and a buffer whose field holds the digits of a
    candidate [t] (nothing at all for [t = 0], the field as [addOrFindNonce]
    puts it in), with [nonceIdx] on the last of them.  For a candidate
    [t' >= t] the block [writeNonce] leaves the digits of [t'] as the value of
    the field, with [nonceIdx] on the last of them and the rest of the content
    as it was, provided that the bytes it grows the buffer by leave the decimal
    length in the header at its width. *)
Theorem render_increasing cfg (t t' : Z) (obj : bytes) (idx : Z) (a v : bytes) :
  0 <= t <= t' ->
  2 <= Go.len (nonceChars cfg) ->
  SP ∉ nonceChars cfg ->
  cursorAt cfg obj idx a (digits (nonceChars cfg) t) [] v ->
  let j := (length (digits (nonceChars cfg) t')
            - length (digits (nonceChars cfg) t))%nat in
  length (Go.itoa (length (content obj) + j))
    = length (Go.itoa (length (content obj))) ->
  exists fuel obj',
    writeNonce fuel cfg t' obj idx idx t' = Ret (obj', idx + Z.of_nat j) /\
    cursorAt cfg obj' (idx + Z.of_nat j) a (digits (nonceChars cfg) t') [] v.
Proof.
  intros Ht Hradix Hsp (-> & Hfirst & ->) j Hwide.
  rewrite content_frame in Hwide.
  pose proof (digits_length_mono (nonceChars cfg) Hradix t' t ltac:(lia)) as Hmono.
  assert (Hnosp : SP ∉ digits (nonceChars cfg) t).
  { intros H. pose proof (digits_in (nonceChars cfg) Hradix t) as Hin.
    rewrite Forall_forall in Hin. exact (Hsp (Hin _ H)). }
  destruct (render_grows cfg t' Hradix Hsp j a (digits (nonceChars cfg) t) v
              Hfirst Hnosp ltac:(unfold j; lia) Hwide) as [fuel Hr].
  cbv zeta in Hr. exists fuel. eexists. split; [exact Hr |].
  set (ds := digits (nonceChars cfg) t') in *.
  set (ds0 := digits (nonceChars cfg) t) in *.
  split; [reflexivity |]. split; [exact Hfirst |].
  assert (Hsize : length (a ++ nonceHeader cfg ++ ds ++ [] ++ v)
                  = (length (a ++ nonceHeader cfg ++ ds0 ++ [] ++ v) + j)%nat).
  { unfold j. rewrite !length_app. lia. }
  rewrite !length_hdr, Hsize, Hwide. unfold j. lia.
Qed.

Lemma render_increasing_witness :
  exists fuel obj',
    writeNonce fuel defaultConfig 10
      (frame (take 35 sampleCommit ++ nonceHeader defaultConfig
              ++ [x39] ++ [] ++ drop 35 sampleCommit)) 52 52 10
    = Ret (obj', 53) /\
    fieldValue defaultConfig obj' = Some [x31; x30].
Proof.
  destruct (render_increasing defaultConfig 9 10
              (frame (take 35 sampleCommit ++ nonceHeader defaultConfig
                      ++ [x39] ++ [] ++ drop 35 sampleCommit)) 52
              (take 35 sampleCommit) (drop 35 sampleCommit))
    as (fuel & obj' & Hr & (Hobj & _)).
  - lia.
  - exact defaultConfig_radix.
  - exact (proj1 (proj2 defaultConfig_chars)).
  - repeat split; vm_compute; reflexivity.
  - vm_compute. reflexivity.
  - exists fuel, obj'. split; [exact Hr |]. rewrite Hobj. vm_compute. reflexivity.
Defined.

(** ** The pool: what a winner looks like, and that nothing panics *)

(** An iteration that ends has rendered the candidate; what it ends in is
    the buffer published or the worker that goes on with it. *)
Lemma tryNonce_inv fuel cfg w t v :
  tryNonce fuel cfg w t = Ret v ->
  exists obj idx,
    writeNonce fuel cfg t (w_obj w) (w_nonceIdx w) (w_nonceIdx w) t = Ret (obj, idx) /\
    (v = Publish obj \/ exists hexBuf, v = Continue (Worker obj idx hexBuf)).
Proof.
  unfold tryNonce. intros H.
  destruct (writeNonce fuel cfg t _ _ _ t) as [[obj idx]| |]; [| discriminate..].
  exists obj, idx. split; [reflexivity |].
  destruct (testDigest cfg obj (w_hexBuf w)) as [[[|] hb]|]; [| | discriminate].
  - left. congruence.
  - right. exists hb. congruence.
Qed.

Lemma content_absent (raw : bytes) : NUL ∉ raw -> content raw = raw.
Proof.
  intros H. unfold content. rewrite IndexByte_absent by exact H. reflexivity.
Qed.

(** A short schedule on the sample commit, with [-pattern ^f]: one worker
    starts, [explore] sends 1, the worker finds that it matches, and [main]
    receives the buffer. *)
Lemma sample_schedule :
  exists p w,
    reachable (withPattern defaultConfig (ReCat ReBegin (ReLit x66))) sampleCommit p /\
    p_main p = Received w.
Proof.
  unfold reachable. eexists _, _. split.
  - eapply rtc_l.
    { eapply (step_start _ _ 0%nat); [reflexivity | reflexivity |].
      vm_compute. reflexivity. }
    eapply rtc_l.
    { eapply (step_send _ _ 0); [reflexivity | reflexivity |].
      vm_compute. lia. }
    eapply rtc_l.
    { eapply (step_match _ _ 0%nat _ _ _ 8%nat);
        [reflexivity | reflexivity | reflexivity | reflexivity |].
      vm_compute. reflexivity. }
    eapply rtc_l.
    { eapply (step_receive _ _ 0%nat); [reflexivity | reflexivity | reflexivity]. }
    apply rtc_refl.
  - reflexivity.
Qed.

(** From a worker that starts with the content [a], the header of the
    field, a value [x0] and [V], every buffer published has the content [a],
    the header of the field, a value and [V]. *)
Lemma winner_form cfg raw (a V x0 : bytes) (P : byte -> Prop) (w0 : worker) p :
  P ZERO -> (forall b, b ∈ nonceChars cfg -> P b) ->
  startWorker cfg (fixHeader raw) = Some w0 ->
  cursorAt cfg (w_obj w0) (w_nonceIdx w0) a x0 [] V ->
  Forall P x0 ->
  reachable cfg raw p ->
  forall w,
    (p_main p = Received w \/ p_main p = Announced w \/
     exists i, p_workers p !! i = Some (Sending w)) ->
    exists x, content w = a ++ nonceHeader cfg ++ x ++ V /\ Forall P x.
Proof.
  intros Pz Pc Hw0 Hcur Hx0 Hp w Hw.
  set (good := fun obj : bytes =>
                 exists x, content obj = a ++ nonceHeader cfg ++ x ++ V /\ Forall P x).
  set (W := fun ws => match ws with
                      | Starting obj => obj = fixHeader raw
                      | Ranging wk =>
                          exists wv y,
                            cursorAt cfg (w_obj wk) (w_nonceIdx wk) a wv [] (y ++ V) /\
                            Forall P (wv ++ y)
                      | Sending obj => good obj
                      | Exited => True
                      end).
  set (M := fun ms => match ms with
                      | Waiting => True
                      | Received o | Announced o => good o
                      end).
  assert (Hfirst : Go.Index (a ++ nonceHeader cfg) (nonceHeader cfg)
                   = Z.of_nat (length a))
    by (destruct Hcur as (_ & H & _); exact H).
  assert (Hstep : forall wk t fuel obj idx,
            W (Ranging wk) ->
            writeNonce fuel cfg t (w_obj wk) (w_nonceIdx wk) (w_nonceIdx wk) t
              = Ret (obj, idx) ->
            exists w' y',
              cursorAt cfg obj idx a w' [] (y' ++ V) /\ Forall P (w' ++ y')).
  { intros wk t fuel obj idx (wv & y & (Hobj & _ & Hidx) & HP) Hr.
    destruct (writeNonce_keeps cfg t a V P Hfirst Pz Pc
                fuel (w_obj wk) (w_nonceIdx wk) (w_nonceIdx wk) t (obj, idx)
                wv [] y Hobj Hidx)
      as (w' & y' & E & HP' & _); [| exact HP | exact Hr |].
    - rewrite app_nil_r. exact Hidx.
    - apply pair_equal_spec in E as [-> ->].
      exists w', y'. split; [| exact HP'].
      split; [reflexivity | split; [exact Hfirst | reflexivity]]. }
  assert (Hgood : forall obj idx w' y',
            cursorAt cfg obj idx a w' [] (y' ++ V) -> Forall P (w' ++ y') -> good obj).
  { intros obj idx w' y' (-> & _) HP. exists (w' ++ y'). split; [| exact HP].
    rewrite content_frame, <- !app_assoc. reflexivity. }
  assert (H : Forall W (p_workers p) /\ M (p_main p)).
  { apply (reachable_inv cfg raw W M); [reflexivity | exact I | exact I | | | | | | exact Hp].
    - intros obj wk -> Hs. rewrite Hw0 in Hs. apply (inj Some) in Hs. subst wk.
      exists x0, []. split; [exact Hcur | rewrite app_nil_r; exact Hx0].
    - intros wk t fuel w' HW Ht.
      destruct (tryNonce_inv _ _ _ _ _ Ht) as (obj & idx & Hr & [E | [hb E]]);
        [discriminate |].
      injection E as ->. cbn [w_obj w_nonceIdx].
      exact (Hstep wk t fuel obj idx HW Hr).
    - intros wk t fuel obj HW Ht.
      destruct (tryNonce_inv _ _ _ _ _ Ht) as (obj' & idx & Hr & [E | [hb E]]);
        [| discriminate].
      injection E as ->.
      destruct (Hstep wk t fuel obj' idx HW Hr) as (w' & y' & Hc & HP).
      exact (Hgood _ _ _ _ Hc HP).
    - intros obj Hobj. exact Hobj.
    - intros o Ho. exact Ho. }
  destruct H as [HW HM].
  destruct Hw as [E | [E | [i Hi]]].
  - rewrite E in HM. exact HM.
  - rewrite E in HM. exact HM.
  - exact (proj1 (Forall_lookup W _) HW i _ Hi).
Qed.

(** X15.  What gitbrute hands to [git hash-object] is the commit it read
    with one line more.  If the commit [git cat-file] printed is [h], a blank
    line and [msg], with no NUL and no ["\n<name> "] in it and no blank line
    within [h], then on every schedule the buffer a worker publishes, and so
    the one [main] receives, has as its content, the bytes after the first
    NUL, [h], the line ["\n<name> "] with a value, the blank line and [msg];
    and the value is made of characters of the alphabet and the [0] of
    [growNonce]. *)
Theorem winner_keeps_commit cfg (h msg : bytes) (p : pool) (w : bytes) :
  let raw := h ++ LF :: LF :: msg in
  NUL ∉ raw ->
  LF ∉ nonceName cfg ->
  Go.Index raw [LF; LF] = Z.of_nat (length h) ->
  Go.Index raw (nonceHeader cfg) = -1 ->
  reachable cfg raw p ->
  (p_main p = Received w \/ p_main p = Announced w \/
   exists i, p_workers p !! i = Some (Sending w)) ->
  exists x,
    content w = h ++ nonceHeader cfg ++ x ++ LF :: LF :: msg /\
    Forall (fun b => b = ZERO \/ b ∈ nonceChars cfg) x.
Proof.
  intros raw Hnul Hname Hblank Habs Hp Hw.
  destruct (addOrFindNonce_fresh cfg h msg Hname Habs Hblank) as [Hfirst Hadd].
  fold raw in Hadd.
  eapply (winner_form cfg raw h (LF :: LF :: msg) []
            (fun b => b = ZERO \/ b ∈ nonceChars cfg));
    [left; reflexivity | intros b Hb; right; exact Hb | | | constructor
    | exact Hp | exact Hw].
  - unfold startWorker.
    rewrite fixHeader_framed, content_absent, Hadd by exact Hnul. reflexivity.
  - cbn [w_obj w_nonceIdx]. split; [reflexivity |]. split.
    + apply (firstHeader_inv cfg h (LF :: LF :: msg)). exact Hfirst.
    + cbn [app length]. rewrite Nat.add_0_r. reflexivity.
Qed.

Lemma winner_keeps_commit_witness :
  exists p w x,
    reachable (withPattern defaultConfig (ReCat ReBegin (ReLit x66))) sampleCommit p /\
    p_main p = Received w /\
    content w = take 35 sampleCommit ++ nonceHeader defaultConfig ++ x
                ++ LF :: LF :: drop 37 sampleCommit.
Proof.
  destruct sample_schedule as (p & w & Hp & Hm).
  destruct (winner_keeps_commit (withPattern defaultConfig (ReCat ReBegin (ReLit x66)))
              (take 35 sampleCommit) (drop 37 sampleCommit) p w)
    as (x & Hx & _).
  - apply (bool_decide_unpack _). vm_compute. exact I.
  - exact defaultConfig_name.
  - vm_compute. reflexivity.
  - vm_compute. reflexivity.
  - exact Hp.
  - left. exact Hm.
  - exists p, w, x. split; [exact Hp | split; [exact Hm | exact Hx]].
Defined.

(** A schedule on the commit whose message has a line that begins with the
    name of the field, with a pattern every hash matches: one worker starts,
    [explore] sends 1, the worker publishes, and [main] receives. *)
Lemma message_schedule :
  exists p w,
    reachable (withPattern defaultConfig (ReClass hexdigits)) messageCommit p /\
    p_main p = Received w.
Proof.
  unfold reachable. eexists _, _. split.
  - eapply rtc_l.
    { eapply (step_start _ _ 0%nat); [reflexivity | reflexivity |].
      vm_compute. reflexivity. }
    eapply rtc_l.
    { eapply (step_send _ _ 0); [reflexivity | reflexivity |].
      vm_compute. lia. }
    eapply rtc_l.
    { eapply (step_match _ _ 0%nat _ _ _ 8%nat);
        [reflexivity | reflexivity | reflexivity | reflexivity |].
      vm_compute. reflexivity. }
    eapply rtc_l.
    { eapply (step_receive _ _ 0%nat); [reflexivity | reflexivity | reflexivity]. }
    apply rtc_refl.
  - reflexivity.
Qed.

(** X16.  A field that is there is used where it is, and no other line is
    added.  If the commit [git cat-file] printed has no NUL and reads [a],
    the first ["\n<name> "], a value [val] and the rest from a newline on,
    then on every schedule the content of the buffer published is [a], the
    same ["\n<name> "], a value made of bytes of [val], of the alphabet and of
    the [0] of [growNonce], and the same rest.  It does not matter where the
    line stands: when the headers lack the field and a line of the message
    begins with its name, it is the message that is rewritten. *)
Theorem winner_reuses_field cfg (a val b : bytes) (p : pool) (w : bytes) :
  let raw := a ++ nonceHeader cfg ++ val ++ LF :: b in
  NUL ∉ raw ->
  LF ∉ nonceName cfg ->
  LF ∉ val ->
  Go.Index raw (nonceHeader cfg) = Z.of_nat (length a) ->
  reachable cfg raw p ->
  (p_main p = Received w \/ p_main p = Announced w \/
   exists i, p_workers p !! i = Some (Sending w)) ->
  exists x,
    content w = a ++ nonceHeader cfg ++ x ++ LF :: b /\
    Forall (fun c => c ∈ val \/ c = ZERO \/ c ∈ nonceChars cfg) x.
Proof.
  intros raw Hnul Hname Hval Hidx Hp Hw.
  pose proof (addOrFindNonce_found cfg a val b Hname Hval Hidx) as Hadd.
  cbv zeta in Hadd. fold raw in Hadd.
  eapply (winner_form cfg raw a (LF :: b) val
            (fun c => c ∈ val \/ c = ZERO \/ c ∈ nonceChars cfg));
    [right; left; reflexivity | intros c Hc; right; right; exact Hc | | |
    | exact Hp | exact Hw].
  - unfold startWorker.
    rewrite fixHeader_framed, content_absent, Hadd by exact Hnul. reflexivity.
  - cbn [w_obj w_nonceIdx]. split; [reflexivity |]. split.
    + apply (firstHeader_inv cfg a (val ++ LF :: b)). exact Hidx.
    + reflexivity.
  - apply Forall_forall. intros c Hc. left. exact Hc.
Qed.

Lemma winner_reuses_field_witness :
  exists p w x,
    reachable (withPattern defaultConfig (ReClass hexdigits)) messageCommit p /\
    p_main p = Received w /\
    content w = (take 37 sampleCommit ++ list_byte_of_string "see")
                ++ nonceHeader defaultConfig ++ x
                ++ LF :: list_byte_of_string "end" ++ [LF].
Proof.
  destruct message_schedule as (p & w & Hp & Hm).
  destruct (winner_reuses_field (withPattern defaultConfig (ReClass hexdigits))
              (take 37 sampleCommit ++ list_byte_of_string "see")
              (list_byte_of_string "7") (list_byte_of_string "end" ++ [LF]) p w)
    as (x & Hx & _).
  - apply (bool_decide_unpack _). vm_compute. exact I.
  - exact defaultConfig_name.
  - apply (bool_decide_unpack _). vm_compute. exact I.
  - vm_compute. reflexivity.
  - exact Hp.
  - left. exact Hm.
  - exists p, w, x. split; [exact Hp | split; [exact Hm | exact Hx]].
Defined.

(** *** No goroutine panics *)

Section Safe.

Variable cfg : config.
Variable raw : bytes.
Hypothesis radix : 2 <= Go.len (nonceChars cfg).
Hypothesis name : LF ∉ nonceName cfg.
Hypothesis template : is_Some (startWorker cfg (fixHeader raw)).

(** What holds of a goroutine of the pool at any time. *)
Let sound (ws : wstate) : Prop :=
  match ws with
  | Starting obj => obj = fixHeader raw
  | Ranging w =>
      located cfg (w_obj w) (w_nonceIdx w) /\
      slen (w_hexBuf w) = 0%nat /\ cap (w_hexBuf w) = (2 * SHA1.Size)%nat
  | _ => True
  end.

Lemma sound_workers p : reachable cfg raw p -> Forall sound (p_workers p).
Proof.
  intros Hp.
  apply (reachable_inv cfg raw sound (fun _ => True));
    [reflexivity | exact I | exact I | | | | | | exact Hp]; try (intros; exact I).
  - intros obj w -> Hs. unfold startWorker in Hs. rewrite fixHeader_framed in Hs.
    destruct (addOrFindNonce cfg (frame (content raw))) as [[o i]|] eqn:Hadd;
      [| discriminate].
    apply (inj Some) in Hs. subst w. cbn [sound w_obj w_nonceIdx w_hexBuf].
    split; [eapply addOrFindNonce_located; eassumption | split; reflexivity].
  - intros w t fuel w' (Hloc & Hl & Hc) H.
    destruct (tryNonce_Ret _ _ _ _ _ Hl Hc H) as (o & i & hb & Hr & Hl' & Hc' & Hv).
    destruct (Re.Match (pattern cfg) (encodeHex (SHA1.sum o))); [discriminate |].
    injection Hv as ->. cbn [sound w_obj w_nonceIdx w_hexBuf].
    split; [| split; assumption].
    exact (writeNonce_located cfg t fuel _ _ _ Hloc Hr).
Qed.

(** A worker between two candidates renders and tests the next one: with
    enough fuel the iteration ends, and with no fuel does it panic. *)
Lemma sound_tryNonce (w : worker) (t : Z) :
  sound (Ranging w) ->
  (exists fuel v, tryNonce fuel cfg w t = Ret v) /\
  (forall fuel, tryNonce fuel cfg w t <> Panic).
Proof.
  intros (Hloc & Hl & Hc). split.
  - destruct Hloc as (a & wv & v & Hobj & Hfirst & Hidx).
    destruct (restarts_all cfg t radix a Hfirst wv v) as ([obj' idx'] & [fuel Hr] & _).
    destruct (testDigest_spec cfg obj' (w_hexBuf w) Hl Hc) as (_ & _ & hb & Ht & _).
    exists fuel. unfold tryNonce. rewrite Hobj, Hidx, Hr, Ht.
    destruct (Re.Match _ _); eexists; reflexivity.
  - intros fuel. unfold tryNonce.
    destruct (writeNonce fuel cfg t _ _ _ t) as [[obj idx]| |] eqn:Hr.
    + destruct (testDigest_spec cfg obj (w_hexBuf w) Hl Hc) as (_ & _ & hb & Ht & _).
      rewrite Ht. destruct (Re.Match _ _); discriminate.
    + exfalso. exact (writeNonce_no_panic cfg t fuel _ _ radix Hloc Hr).
    + discriminate.
Qed.

Lemma never_crashed p : reachable cfg raw p -> p_crashed p = false.
Proof.
  unfold reachable. revert p.
  apply (rtc_ind_r (fun p => p_crashed p = false)); [reflexivity |].
  intros p p' Hreach Hstep IH.
  pose proof (sound_workers p Hreach) as Hs.
  pose proof (fun i ws (H : p_workers p !! i = Some ws) =>
                proj1 (Forall_lookup sound (p_workers p)) Hs i ws H) as Hget.
  destruct Hstep as
    [p n Hc He Hq | p Hc He | p i obj w Hc Hi Hst | p i obj Hc Hi Hst
    | p i w t q Hc Hi Hq Hd | p i w t q fuel w' Hc Hi Hq Hd Ht
    | p i w t q fuel obj Hc Hi Hq Hd Ht | p i w t q fuel Hc Hi Hq Hd Ht
    | p i w Hc Hi Hq Hcl | p i obj Hc Hm Hi | p w Hc Hm];
    cbn [p_crashed setWorker setQueue crash]; try exact IH.
  - exfalso. pose proof (Hget _ _ Hi) as E. cbn [sound] in E. subst obj.
    destruct template as [w0 Hw0]. congruence.
  - exfalso. exact (proj2 (sound_tryNonce w t (Hget _ _ Hi)) fuel Ht).
Qed.

End Safe.

(** X17.  With an alphabet of at least two characters, a field name
    without a newline, and a commit in which the field is found or can be put
    (so that the first worker gets past [addOrFindNonce]), no goroutine
    panics on any schedule: no index or slice bound is out of range, in
    [addOrFindNonce], [growNonce], the block [writeNonce] or [hexInPlace]. *)
Theorem pool_never_panics cfg raw p :
  2 <= Go.len (nonceChars cfg) ->
  LF ∉ nonceName cfg ->
  is_Some (startWorker cfg (fixHeader raw)) ->
  reachable cfg raw p ->
  p_crashed p = false /\
  (forall i obj, p_workers p !! i = Some (Starting obj) ->
     is_Some (startWorker cfg obj)) /\
  (forall i w t fuel, p_workers p !! i = Some (Ranging w) ->
     tryNonce fuel cfg w t <> Panic).
Proof.
  intros Hradix Hname Ht Hp.
  pose proof (sound_workers cfg raw Hname p Hp) as Hs.
  split; [exact (never_crashed cfg raw Hradix Hname Ht p Hp) | split].
  - intros i obj Hi.
    pose proof (proj1 (Forall_lookup _ (p_workers p)) Hs i _ Hi) as E.
    cbn in E. subst obj. exact Ht.
  - intros i w t fuel Hi.
    apply (proj2 (sound_tryNonce cfg raw Hradix w t
                    (proj1 (Forall_lookup _ (p_workers p)) Hs i _ Hi))).
Qed.

Lemma pool_never_panics_witness :
  exists p,
    reachable (withPattern defaultConfig (ReCat ReBegin (ReLit x66))) sampleCommit p /\
    p_crashed p = false.
Proof.
  destruct sample_schedule as (p & w & Hp & _).
  exists p. split; [exact Hp |].
  apply (pool_never_panics (withPattern defaultConfig (ReCat ReBegin (ReLit x66)))
           sampleCommit p).
  - exact defaultConfig_radix.
  - exact defaultConfig_name.
  - eexists. vm_compute. reflexivity.
  - exact Hp.
Defined.

(** ** The pool: the channel of candidates *)

Lemma wrapInt_add (bits x y : Z) :
  wrapInt bits (wrapInt bits x + y) = wrapInt bits (x + y).
Proof.
  unfold wrapInt. f_equal.
  replace ((x + 2 ^ (bits - 1)) mod 2 ^ bits - 2 ^ (bits - 1) + y + 2 ^ (bits - 1))
    with ((x + 2 ^ (bits - 1)) mod 2 ^ bits + y) by lia.
  rewrite Zplus_mod_idemp_l. f_equal. lia.
Qed.

(** The channel is closed exactly when [explore] has returned. *)
Lemma closed_iff_finished cfg raw p :
  reachable cfg raw p -> (p_closed p = true <-> p_explore p = Finished).
Proof.
  unfold reachable. revert p.
  apply (rtc_ind_r (fun p => p_closed p = true <-> p_explore p = Finished)).
  { cbn. split; discriminate. }
  intros p p' _ Hstep IH.
  destruct Hstep as
    [p n Hc He Hq | p Hc He | p i obj w Hc Hi Hst | p i obj Hc Hi Hst
    | p i w t q Hc Hi Hq Hd | p i w t q fuel w' Hc Hi Hq Hd Ht
    | p i w t q fuel obj Hc Hi Hq Hd Ht | p i w t q fuel Hc Hi Hq Hd Ht
    | p i w Hc Hi Hq Hcl | p i obj Hc Hm Hi | p w Hc Hm];
    cbn [p_closed p_explore setWorker setQueue crash]; try exact IH.
  - rewrite He in IH. rewrite IH. split; [discriminate |].
    destruct (n' =? 0); discriminate.
  - tauto.
Qed.

(** X18.  On every schedule the channel [possibilities] holds at most its
    512 candidates, and holds them in the order [explore] made them: the
    candidates waiting are consecutive values of [int], with its wrap-around,
    the last of them the value [explore] sent last; and the channel is closed
    exactly when [explore] has returned. *)
Theorem queue_in_order cfg raw p :
  reachable cfg raw p ->
  (length (p_queue p) <= queueCap)%nat /\
  (p_closed p = true <-> p_explore p = Finished) /\
  (forall (j : nat) (t : Z),
     p_queue p !! j = Some t ->
     t = wrapInt (intSize cfg)
           (counter (p_explore p)
            - (Z.of_nat (length (p_queue p)) - 1 - Z.of_nat j))).
Proof.
  unfold reachable. revert p.
  apply (rtc_ind_r (fun p =>
           (length (p_queue p) <= queueCap)%nat /\
           (p_closed p = true <-> p_explore p = Finished) /\
           (forall (j : nat) (t : Z),
              p_queue p !! j = Some t ->
              t = wrapInt (intSize cfg)
                    (counter (p_explore p)
                     - (Z.of_nat (length (p_queue p)) - 1 - Z.of_nat j))))).
  { cbn. split; [unfold queueCap; lia |]. split; [split; discriminate |].
    intros j t H. rewrite lookup_nil in H. discriminate. }
  intros p p' _ Hstep (IHl & IHc & IHq).
  assert (Hpop : forall t q, p_queue p = t :: q ->
            (length q <= queueCap)%nat /\
            forall (j : nat) (u : Z), q !! j = Some u ->
              u = wrapInt (intSize cfg)
                    (counter (p_explore p) - (Z.of_nat (length q) - 1 - Z.of_nat j))).
  { intros t q Hq. rewrite Hq in IHl, IHq. cbn [length] in IHl, IHq.
    split; [lia |]. intros j u Hj.
    rewrite (IHq (S j) u Hj). f_equal. lia. }
  destruct Hstep as
    [p n Hc He Hq | p Hc He | p i obj w Hc Hi Hst | p i obj Hc Hi Hst
    | p i w t q Hc Hi Hq Hd | p i w t q fuel w' Hc Hi Hq Hd Ht
    | p i w t q fuel obj Hc Hi Hq Hd Ht | p i w t q fuel Hc Hi Hq Hd Ht
    | p i w Hc Hi Hq Hcl | p i obj Hc Hm Hi | p w Hc Hm];
    cbn [p_queue p_closed p_explore setWorker setQueue crash];
    try (split; [exact IHl | split; [exact IHc | exact IHq]]);
    try (destruct (Hpop t q Hq) as [Hl' Hq']; split; [exact Hl' | split; [exact IHc | exact Hq']]).
  - (* explore sends *)
    rewrite He in IHc, IHq. cbn [counter] in IHq.
    split; [rewrite length_app; cbn [length]; lia |]. split.
    + rewrite IHc. split; [discriminate |]. destruct (n' =? 0); discriminate.
    + intros j t Hj.
      assert (Hcnt : counter (if n' =? 0 then Breaking else Exploring n') = n').
      { destruct (n' =? 0) eqn:E; [apply Z.eqb_eq in E; cbn; lia | reflexivity]. }
      rewrite Hcnt, length_app. cbn [length].
      destruct (decide (j < length (p_queue p))%nat) as [Hlt|Hge].
      * rewrite lookup_app_l in Hj by exact Hlt.
        rewrite (IHq j t Hj). unfold n'.
        match goal with
        | |- context [wrapInt ?b (wrapInt ?b ?x - ?y)] =>
            replace (wrapInt b x - y) with (wrapInt b x + - y) by lia
        end.
        rewrite wrapInt_add. f_equal. lia.
      * rewrite lookup_app_r in Hj by lia.
        destruct (j - length (p_queue p))%nat as [|k] eqn:Ek; [| destruct k; discriminate].
        injection Hj as <-. unfold n'.
        match goal with
        | |- context [wrapInt ?b (wrapInt ?b ?x - ?y)] =>
            replace (wrapInt b x - y) with (wrapInt b x + - y) by lia
        end.
        rewrite wrapInt_add. f_equal. lia.
  - (* explore closes the channel *)
    rewrite He in IHq. cbn [counter] in *.
    split; [exact IHl | split; [tauto | exact IHq]].
Qed.


Lemma queue_in_order_witness :
  (length (p_queue (startPool defaultConfig sampleCommit)) <= queueCap)%nat.
Proof.
  apply (queue_in_order defaultConfig sampleCommit (startPool defaultConfig sampleCommit)).
  apply rtc_refl.
Defined.

(** *** The search does not stall *)

Lemma all_exited_or (l : list wstate) :
  Forall (fun ws => Exited = ws) l \/
  exists i ws, l !! i = Some ws /\ ws <> Exited.
Proof.
  induction l as [|ws l IH]; [left; constructor |].
  destruct IH as [IH | (i & ws' & Hi & Hne)].
  - destruct ws; try (right; exists 0%nat; eexists; split; [reflexivity | discriminate]).
    left. constructor; [reflexivity | exact IH].
  - right. exists (S i), ws'. split; assumption.
Qed.

(** The workers are as many as were started; while [main] waits, [done] is
    open, and a worker has returned only after the channel was closed and
    emptied. *)
Lemma pool_shape cfg raw p :
  reachable cfg raw p ->
  length (p_workers p) = cpu cfg /\
  (p_main p = Waiting -> p_done p = false) /\
  (p_main p = Waiting ->
   forall i, p_workers p !! i = Some Exited ->
     p_explore p = Finished /\ p_queue p = []).
Proof.
  unfold reachable. revert p.
  apply (rtc_ind_r (fun p =>
           length (p_workers p) = cpu cfg /\
           (p_main p = Waiting -> p_done p = false) /\
           (p_main p = Waiting ->
            forall i, p_workers p !! i = Some Exited ->
              p_explore p = Finished /\ p_queue p = []))).
  { cbn. split; [apply length_replicate |]. split; [reflexivity |].
    intros _ i H. apply lookup_replicate in H as [H _]. discriminate. }
  intros p p' Hreach Hstep (IHl & IHd & IHe).
  destruct Hstep as
    [p n Hc He Hq | p Hc He | p i obj w Hc Hi Hst | p i obj Hc Hi Hst
    | p i w t q Hc Hi Hq Hd | p i w t q fuel w' Hc Hi Hq Hd Ht
    | p i w t q fuel obj Hc Hi Hq Hd Ht | p i w t q fuel Hc Hi Hq Hd Ht
    | p i w Hc Hi Hq Hcl | p i obj Hc Hm Hi | p w Hc Hm];
    cbn [p_workers p_main p_done p_explore p_queue setWorker setQueue crash];
    rewrite ?length_insert;
    (split; [exact IHl |]); (split; [try exact IHd; try discriminate |]);
    try discriminate; intros Hm' j Hj.
  - destruct (IHe Hm' j Hj) as [E _]. congruence.
  - destruct (IHe Hm' j Hj) as [E _]. congruence.
  - apply list_lookup_insert_Some in Hj as [(_ & E & _) | [_ Hj]]; [discriminate |].
    exact (IHe Hm' j Hj).
  - exact (IHe Hm' j Hj).
  - rewrite (IHd Hm') in Hd. discriminate.
  - apply list_lookup_insert_Some in Hj as [(_ & E & _) | [_ Hj]]; [discriminate |].
    destruct (IHe Hm' j Hj) as [_ E]. congruence.
  - apply list_lookup_insert_Some in Hj as [(_ & E & _) | [_ Hj]]; [discriminate |].
    destruct (IHe Hm' j Hj) as [_ E]. congruence.
  - destruct (IHe Hm' j Hj) as [_ E]. congruence.
  - apply list_lookup_insert_Some in Hj as [_ | [_ Hj]]; [| exact (IHe Hm' j Hj)].
    split; [| exact Hq].
    apply (closed_iff_finished cfg raw p Hreach). exact Hcl.
Qed.

(** X19.  The search does not stall before the candidates run out.  With
    an alphabet of at least two characters, a field name without a newline, a
    commit the first worker gets past [addOrFindNonce] with, and at least one
    worker: in every state of every schedule in which [main] is still waiting
    for a winner some goroutine can take a step, unless [explore] has
    returned, the channel is empty and every worker has returned; and once
    [main] has a winner it goes on to close [done]. *)
Theorem search_never_stalls cfg raw p :
  2 <= Go.len (nonceChars cfg) ->
  LF ∉ nonceName cfg ->
  (1 <= cpu cfg)%nat ->
  is_Some (startWorker cfg (fixHeader raw)) ->
  reachable cfg raw p ->
  (p_main p = Waiting ->
   (exists p', step cfg p p') \/
   (p_explore p = Finished /\ p_queue p = [] /\
    p_workers p = replicate (cpu cfg) Exited)) /\
  (forall w, p_main p = Received w -> exists p', step cfg p p').
Proof.
  intros Hradix Hname Hcpu Htpl Hp.
  pose proof (never_crashed cfg raw Hradix Hname Htpl p Hp) as Hc.
  split; [| intros w Hm; eexists; eapply step_announce; eassumption].
  intros Hm.
  destruct (pool_shape cfg raw p Hp) as (Hlen & Hdone & Hex).
  specialize (Hdone Hm). specialize (Hex Hm).
  pose proof (closed_iff_finished cfg raw p Hp) as Hcl.
  pose proof (sound_workers cfg raw Hname p Hp) as Hs.
  (* a worker that has not returned can move, if it has something to take *)
  assert (Hmove : forall i ws,
            p_workers p !! i = Some ws -> ws <> Exited ->
            (p_queue p <> [] \/ p_closed p = true) ->
            exists p', step cfg p p').
  { intros i ws Hi Hne Hq.
    pose proof (proj1 (Forall_lookup _ (p_workers p)) Hs i _ Hi) as Hws.
    destruct ws as [obj | wk | obj |]; [| | | congruence].
    - cbn in Hws. subst obj. destruct Htpl as [w0 Hw0].
      eexists. eapply step_start; eassumption.
    - destruct (p_queue p) as [|t q] eqn:Eq.
      + destruct Hq as [Hq | Hq]; [congruence |].
        eexists. eapply step_drained; eassumption.
      + destruct (proj1 (sound_tryNonce cfg raw Hradix wk t Hws)) as (fuel & [w' | obj] & Ht).
        * eexists. eapply step_continue; eassumption.
        * eexists. eapply step_match; eassumption.
    - eexists. eapply step_receive; eassumption. }
  assert (H0 : exists ws, p_workers p !! 0%nat = Some ws).
  { apply lookup_lt_is_Some. lia. }
  destruct H0 as [ws0 Hws0].
  destruct (p_explore p) as [n | |] eqn:He.
  - left. destruct (decide (length (p_queue p) < queueCap)%nat) as [Hlt | Hfull].
    + eexists. eapply step_send; eassumption.
    + apply (Hmove 0%nat ws0 Hws0).
      * intros ->. destruct (Hex 0%nat Hws0) as [E _]. discriminate.
      * left. intros E. rewrite E in Hfull. apply Hfull. cbn. unfold queueCap. lia.
  - left. eexists. eapply step_close; eassumption.
  - destruct (all_exited_or (p_workers p)) as [Hall | (i & ws & Hi & Hne)].
    + right. split; [reflexivity |]. split.
      * apply (Forall_lookup_1 _ _ _ _ Hall) in Hws0 as Hw. subst ws0.
        exact (proj2 (Hex 0%nat Hws0)).
      * symmetry. apply replicate_as_Forall. split; assumption.
    + left. apply (Hmove i ws Hi Hne). right. apply Hcl. reflexivity.
Qed.

Lemma search_never_stalls_witness :
  (exists p', step defaultConfig (startPool defaultConfig sampleCommit) p') \/
  (p_explore (startPool defaultConfig sampleCommit) = Finished /\
   p_queue (startPool defaultConfig sampleCommit) = [] /\
   p_workers (startPool defaultConfig sampleCommit)
     = replicate (cpu defaultConfig) Exited).
Proof.
  apply (search_never_stalls defaultConfig sampleCommit
           (startPool defaultConfig sampleCommit)).
  - exact defaultConfig_radix.
  - exact defaultConfig_name.
  - cbn. lia.
  - eexists. vm_compute. reflexivity.
  - apply rtc_refl.
  - reflexivity.
Defined.

(** *** Without workers *)

Lemma seq_snoc_Z (k : nat) :
  map Z.of_nat (seq 1 k) ++ [Z.of_nat k + 1] = map Z.of_nat (seq 1 (S k)).
Proof.
  rewrite seq_S, map_app. cbn [map]. do 2 f_equal. lia.
Qed.

(** X20.  With [-cpus 0] no worker is started, and the program locks up:
    [explore] fills the channel with the candidates 1 to 512 and blocks on
    the next, [main] is blocked on [winner], and no goroutine is left to take
    a candidate; on no schedule does [main] get a winner. *)
Theorem no_workers_deadlock cfg raw :
  cpu cfg = 0%nat ->
  11 <= intSize cfg ->
  let stuck :=
    Pool (Exploring 512) (map Z.of_nat (seq 1 512)) false [] false Waiting false in
  reachable cfg raw stuck /\
  (forall p', ~ step cfg stuck p') /\
  (forall p, reachable cfg raw p -> p_main p = Waiting).
Proof.
  intros Hcpu Hbits stuck.
  assert (Hhalf : 1024 <= 2 ^ (intSize cfg - 1)).
  { change 1024 with (2 ^ 10). apply Z.pow_le_mono_r; lia. }
  assert (Hfill : forall k : nat, (k <= 512)%nat ->
            rtc (step cfg) (startPool cfg raw)
              (Pool (Exploring (Z.of_nat k)) (map Z.of_nat (seq 1 k))
                    false [] false Waiting false)).
  { induction k as [|k IH]; intros Hk.
    - unfold startPool. rewrite Hcpu. apply rtc_refl.
    - eapply rtc_r; [apply IH; lia |].
      pose proof (step_send cfg
                    (Pool (Exploring (Z.of_nat k)) (map Z.of_nat (seq 1 k))
                          false [] false Waiting false)
                    (Z.of_nat k) eq_refl eq_refl) as Hs.
      cbn [p_queue p_closed p_workers p_done p_main p_crashed] in Hs.
      rewrite length_map, length_seq in Hs. cbv zeta in Hs.
      rewrite (wrapInt_small (intSize cfg) ltac:(lia)) in Hs by lia.
      replace (Z.of_nat k + 1 =? 0) with false in Hs
        by (symmetry; apply Z.eqb_neq; lia).
      rewrite seq_snoc_Z in Hs.
      replace (Z.of_nat k + 1) with (Z.of_nat (S k)) in Hs by lia.
      apply Hs. unfold queueCap. lia. }
  split; [exact (Hfill 512%nat ltac:(lia)) |]. split.
  - intros p' H.
    assert (Hq : length (p_queue stuck) = 512%nat)
      by (unfold stuck; cbn [p_queue]; rewrite length_map, length_seq; reflexivity).
    assert (Hw : p_workers stuck = []) by reflexivity.
    assert (He : p_explore stuck = Exploring 512) by reflexivity.
    assert (Hm : p_main stuck = Waiting) by reflexivity.
    clearbody stuck.
    destruct H;
      try match goal with
          | E : p_workers _ !! _ = Some _ |- _ =>
              rewrite Hw, lookup_nil in E; discriminate
          end;
      try congruence.
    match goal with
    | E : (_ < queueCap)%nat |- _ => rewrite Hq in E; unfold queueCap in E; lia
    end.
  - intros p Hp.
    enough (p_workers p = [] /\ p_main p = Waiting) by tauto.
    revert p Hp. unfold reachable.
    apply (rtc_ind_r (fun p => p_workers p = [] /\ p_main p = Waiting)).
    { unfold startPool. rewrite Hcpu. split; reflexivity. }
    intros p p' _ Hstep [IHw IHm].
    destruct Hstep; cbn [p_workers p_main setWorker setQueue crash];
      try (split; assumption);
      match goal with
      | E : p_workers _ !! _ = Some _ |- _ =>
          rewrite IHw, lookup_nil in E; discriminate
      | E : p_main _ = Received _ |- _ => congruence
      end.
Qed.

Lemma no_workers_deadlock_witness :
  let cfg :=
    Config (pattern defaultConfig) 0 (nonceName defaultConfig)
           (nonceChars defaultConfig) 64 in
  reachable cfg sampleCommit
    (Pool (Exploring 512) (map Z.of_nat (seq 1 512)) false [] false Waiting false).
Proof.
  intros cfg.
  apply (no_workers_deadlock cfg sampleCommit); [reflexivity | cbn; lia].
Defined.

(** ** The first match can win *)

Lemma passes_nonneg cfg w0 n w : passes cfg w0 n w -> 0 <= n.
Proof. induction 1; lia. Qed.

Section Wins.

Variable cfg : config.
Variable raw : bytes.
Variable w0 : worker.
Hypothesis workers : (1 <= cpu cfg)%nat.
Hypothesis bits : 1 <= intSize cfg.
Hypothesis template : startWorker cfg (fixHeader raw) = Some w0.

(** The first worker stands as [ws]; the others have not started, the
    channel is empty and [explore] has sent [n]. *)
Let alone (n : Z) (ws : wstate) (done : bool) (m : mstate) : pool :=
  Pool (Exploring n) [] false
       (ws :: replicate (cpu cfg - 1) (Starting (fixHeader raw))) done m false.

Lemma alone_send n w :
  0 <= n -> n + 1 < 2 ^ (intSize cfg - 1) ->
  step cfg (alone n (Ranging w) false Waiting)
    (Pool (Exploring (n + 1)) [n + 1] false
          (Ranging w :: replicate (cpu cfg - 1) (Starting (fixHeader raw)))
          false Waiting false).
Proof using workers bits.
  intros Hn Hlt.
  pose proof (step_send cfg (alone n (Ranging w) false Waiting) n eq_refl eq_refl) as Hs.
  cbn [alone p_queue p_closed p_workers p_done p_main p_crashed length] in Hs.
  cbv zeta in Hs.
  rewrite (wrapInt_small (intSize cfg) bits) in Hs by lia.
  replace (n + 1 =? 0) with false in Hs by (symmetry; apply Z.eqb_neq; lia).
  apply Hs. unfold queueCap. lia.
Qed.

Lemma alone_passes n w :
  passes cfg w0 n w -> n < 2 ^ (intSize cfg - 1) ->
  rtc (step cfg) (startPool cfg raw) (alone n (Ranging w) false Waiting).
Proof using workers bits template.
  induction 1 as [|n w fuel w' Hpass IH Ht]; intros Hlt.
  - apply rtc_once.
    replace (alone 0 (Ranging w0) false Waiting)
      with (setWorker (startPool cfg raw) 0 (Ranging w0)).
    + eapply step_start; [reflexivity | | exact template].
      cbn [startPool p_workers]. apply lookup_replicate_2. lia.
    + unfold setWorker, startPool, alone. cbn [p_explore p_queue p_closed p_workers
        p_done p_main p_crashed]. f_equal.
      replace (cpu cfg) with (S (cpu cfg - 1)) at 1 by lia. reflexivity.
  - pose proof (passes_nonneg _ _ _ _ Hpass) as Hn.
    eapply rtc_r; [eapply rtc_r; [apply IH; lia | apply alone_send; lia] |].
    match goal with
    | |- step _ ?q _ =>
        change (alone (n + 1) (Ranging w') false Waiting)
          with (setWorker (setQueue q []) 0 (Ranging w'))
    end.
    eapply (step_continue cfg _ 0%nat w (n + 1) [] fuel w');
      [reflexivity | reflexivity | reflexivity | reflexivity | exact Ht].
Qed.

End Wins.

(** X21.  The search can succeed with the first candidate that matches.
    If a worker handed the candidates 1 to [n] finds no match among them and
    finds that [n + 1] matches, with [n + 1] a positive [int], then there is a
    schedule on which [explore] sends exactly these candidates, that worker
    publishes the buffer it has rendered [n + 1] into, and [main] receives
    this buffer and closes [done]. *)
Theorem first_match_wins cfg raw (w0 w : worker) (n : Z) (fuel : nat) (obj : bytes) :
  (1 <= cpu cfg)%nat ->
  1 <= intSize cfg ->
  n + 1 < 2 ^ (intSize cfg - 1) ->
  startWorker cfg (fixHeader raw) = Some w0 ->
  passes cfg w0 n w ->
  tryNonce fuel cfg w (n + 1) = Ret (Publish obj) ->
  exists p,
    reachable cfg raw p /\
    p_explore p = Exploring (n + 1) /\ p_queue p = [] /\
    p_main p = Announced obj /\ p_done p = true /\ p_crashed p = false.
Proof.
  intros Hcpu Hbits Hlt Htpl Hpass Ht.
  pose proof (passes_nonneg _ _ _ _ Hpass) as Hn.
  set (rest := replicate (cpu cfg - 1) (Starting (fixHeader raw))).
  set (q1 := Pool (Exploring (n + 1)) [n + 1] false (Ranging w :: rest)
                  false Waiting false).
  set (q2 := setWorker (setQueue q1 []) 0 (Sending obj)).
  set (q3 := Pool (p_explore q2) (p_queue q2) (p_closed q2)
                  (<[0%nat := Exited]> (p_workers q2)) (p_done q2) (Received obj)
                  (p_crashed q2)).
  set (q4 := Pool (p_explore q3) (p_queue q3) (p_closed q3) (p_workers q3)
                  true (Announced obj) (p_crashed q3)).
  exists q4. split; [| repeat split; reflexivity].
  unfold reachable.
  eapply rtc_r; [eapply rtc_r; [eapply rtc_r; [eapply rtc_r;
    [apply (alone_passes cfg raw w0 Hcpu Hbits Htpl n w Hpass); lia |] |] |] |].
  - exact (alone_send cfg raw Hcpu Hbits n w Hn Hlt).
  - apply (step_match cfg q1 0%nat w (n + 1) [] fuel obj);
      [reflexivity | reflexivity | reflexivity | reflexivity | exact Ht].
  - apply (step_receive cfg q2 0%nat obj); reflexivity.
  - apply (step_announce cfg q3 obj); reflexivity.
Qed.

Lemma first_match_wins_witness :
  exists p obj,
    reachable (withPattern defaultConfig (ReCat ReBegin (ReLit x66))) sampleCommit p /\
    p_main p = Announced obj /\ p_done p = true.
Proof.
  destruct (first_match_wins
              (withPattern defaultConfig (ReCat ReBegin (ReLit x66))) sampleCommit
              (Worker (frame (take 35 sampleCommit ++ nonceHeader defaultConfig
                              ++ drop 35 sampleCommit)) 51 (make0 40))
              (Worker (frame (take 35 sampleCommit ++ nonceHeader defaultConfig
                              ++ drop 35 sampleCommit)) 51 (make0 40))
              0 8
              (frame (take 35 sampleCommit ++ nonceHeader defaultConfig
                      ++ [x31] ++ drop 35 sampleCommit)))
    as (p & Hp & _ & _ & Hm & Hd & _).
  - cbn. lia.
  - cbn. lia.
  - cbn. lia.
  - vm_compute. reflexivity.
  - constructor.
  - vm_compute. reflexivity.
  - exists p. eexists. split; [exact Hp | split; [exact Hm | exact Hd]].
Defined.

(** ** The prologue of [main] *)

Lemma skipSpace_solid (c : byte) (s : bytes) :
  (Byte.to_N c < 128)%N -> GoStrings.asciiSpace c = false ->
  GoStrings.skipSpace (c :: s) = Some (c :: s).
Proof.
  intros Ha Hs. cbn [GoStrings.skipSpace].
  replace (128 <=? Byte.to_N c)%N with false by (symmetry; apply N.leb_gt; exact Ha).
  rewrite Hs. reflexivity.
Qed.

(** A line of ASCII characters other than spaces, with the newline that
    ends it, is trimmed to the line. *)
Lemma TrimSpace_line (s : bytes) :
  Forall (fun c => (Byte.to_N c < 128)%N /\ GoStrings.asciiSpace c = false) s ->
  GoStrings.TrimSpace (s ++ [LF]) = Some s.
Proof.
  intros H. unfold GoStrings.TrimSpace.
  destruct (exists_last_or_nil s) as [-> | (s' & c & ->)]; [reflexivity |].
  pose proof H as H0.
  apply Forall_app in H0 as [_ Hc]. apply Forall_cons in Hc as [[Ha Hs] _].
  assert (Hl : GoStrings.skipSpace ((s' ++ [c]) ++ [LF]) = Some ((s' ++ [c]) ++ [LF])).
  { destruct s' as [|d s'].
    - cbn [app]. apply skipSpace_solid; assumption.
    - apply Forall_app in H as [H _]. apply Forall_cons in H as [[Hda Hds] _].
      cbn [app]. apply skipSpace_solid; assumption. }
  rewrite Hl. cbn [mbind option_bind].
  rewrite rev_app_distr. cbn [rev app].
  rewrite rev_app_distr. cbn [rev app].
  change (GoStrings.skipSpace (LF :: c :: rev s'))
    with (GoStrings.skipSpace (c :: rev s')).
  rewrite skipSpace_solid by assumption. cbn [mbind option_bind].
  cbn [rev]. rewrite rev_involutive. reflexivity.
Qed.

Lemma hexdigits_solid (c : byte) :
  c ∈ hexdigits -> (Byte.to_N c < 128)%N /\ GoStrings.asciiSpace c = false.
Proof.
  intros H.
  assert (E : bool_decide (c ∈ hexdigits) = true) by (apply bool_decide_eq_true; exact H).
  destruct c; try (vm_compute in E; discriminate); split; reflexivity.
Qed.

(** X22.  [main] starts no search on a commit whose hash already matches,
    and the flag [-force] does not change that: it is read nowhere.  When
    [git rev-parse HEAD] prints the forty hexadecimal characters of a hash and
    a newline, [main] tests the pattern on those characters, returns if it
    matches, whatever [-force] is, and otherwise starts [explore] and the
    workers on [fixHeader] of the commit; for the hash of that buffer the
    test is the one a worker applies to the buffer as it stands. *)
Theorem mainStart_already_matches cfg (force : bool) (d raw : bytes) :
  mainStart cfg force (encodeHex d ++ [LF]) raw
    = Some (if Re.Match (pattern cfg) (encodeHex d)
            then AlreadyMatches (encodeHex d)
            else Searching (startPool cfg raw)) /\
  (mainStart cfg force (encodeHex (SHA1.sum (fixHeader raw)) ++ [LF]) raw
     = Some (AlreadyMatches (encodeHex (SHA1.sum (fixHeader raw)))) <->
   exists hexBuf,
     testDigest cfg (fixHeader raw) (make0 (SHA1.Size * 2)) = Some (true, hexBuf)).
Proof.
  assert (Hm : forall e : bytes,
            mainStart cfg force (encodeHex e ++ [LF]) raw
            = Some (if Re.Match (pattern cfg) (encodeHex e)
                    then AlreadyMatches (encodeHex e)
                    else Searching (startPool cfg raw))).
  { intros e. unfold mainStart. rewrite TrimSpace_line.
    - cbn [mbind option_bind]. destruct (Re.Match _ _); reflexivity.
    - eapply Forall_impl; [apply encodeHex_chars |]. apply hexdigits_solid. }
  split; [apply Hm |].
  rewrite Hm.
  destruct (testDigest_spec cfg (fixHeader raw) (make0 (SHA1.Size * 2)))
    as (_ & _ & hb & Ht & _); [reflexivity | reflexivity |].
  rewrite Ht.
  destruct (Re.Match (pattern cfg) (encodeHex (SHA1.sum (fixHeader raw)))); split.
  - intros _. exists hb. reflexivity.
  - reflexivity.
  - discriminate.
  - intros [x Hx]. discriminate.
Qed.
